(** * Amagaki static-site builder: a shallow embedding of [src/builder.ts]

  The development follows the class [Builder]: path normalisation,
  manifest diffing, stale-output cleanup, the two bounded-concurrency
  passes (staging, then hash/stat/move) and the [export] orchestration.

  Strings are Rocq strings, JavaScript plain objects used as maps are
  finite maps of own properties together with the properties every object
  literal inherits from [Object.prototype], exceptions are an outcome type
  threaded with the mutable world.  The collaborators of the builder (the
  pod and its router, Node's [path], [fs] and [crypto], [minimatch],
  [JSON], the plugin hooks) are the fields of an environment; so is the
  order in which pending I/O completes, which makes every run of the two
  concurrent passes a function of the environment.

  Definitions come first, then the facts proved about them. *)

From Stdlib Require Import ZArith Lia.
From Stdlib Require Import Ascii String.
From stdpp Require Import base tactics option list gmap strings.

Local Open Scope Z_scope.

(* ===================================================================== *)
(** ** Strings as JavaScript uses them                                    *)
(* ===================================================================== *)

Module Str.

(** The characters of a string, first to last. *)
Definition chars (s : string) : list ascii := list_ascii_of_string s.

Definition of_chars (l : list ascii) : string := string_of_list_ascii l.

(** [s.endsWith(suffix)] *)
Definition endsWith (s suffix : string) : bool :=
  bool_decide (take (List.length (chars suffix)) (reverse (chars s))
               = reverse (chars suffix)).

(** [s.slice(from, to)] for [0 <= from <= to]. *)
Definition slice (s : string) (from to : Z) : string :=
  String.substring (Z.to_nat from) (Z.to_nat (to - from)) s.

(** JavaScript truthiness of a string: every string but the empty one. *)
Definition truthy (s : string) : bool :=
  match s with EmptyString => false | String _ _ => true end.

End Str.

(* ===================================================================== *)
(** ** [fsPath.extname] and [Builder.normalizePath]                       *)
(* ===================================================================== *)

Module Path.

Definition CHAR_FORWARD_SLASH : ascii := "/"%char.
Definition CHAR_DOT : ascii := "."%char.

(** The local variables of Node's [posix.extname] loop ([-1] is the
    "not found yet" marker, as in the JavaScript). *)
Record ExtScan := mkExtScan {
  startDot : Z;
  startPart : Z;
  end_ : Z;
  matchedSlash : bool;
  preDotState : Z
}.

Definition extScan0 : ExtScan :=
  {| startDot := -1; startPart := 0; end_ := -1;
     matchedSlash := true; preDotState := 0 |}.

(** The loop body for a character that is not a path separator: the
    two [if] statements that follow the separator test. *)
Definition scan_char (code : ascii) (i : Z) (st : ExtScan) : ExtScan :=
  let st1 :=
    if end_ st =? -1
    then {| startDot := startDot st; startPart := startPart st;
            end_ := i + 1; matchedSlash := false;
            preDotState := preDotState st |}
    else st in
  if Ascii.eqb code CHAR_DOT then
    if startDot st1 =? -1
    then {| startDot := i; startPart := startPart st1; end_ := end_ st1;
            matchedSlash := matchedSlash st1;
            preDotState := preDotState st1 |}
    else if negb (preDotState st1 =? 1)
    then {| startDot := startDot st1; startPart := startPart st1;
            end_ := end_ st1; matchedSlash := matchedSlash st1;
            preDotState := 1 |}
    else st1
  else if negb (startDot st1 =? -1)
  then {| startDot := startDot st1; startPart := startPart st1;
          end_ := end_ st1; matchedSlash := matchedSlash st1;
          preDotState := -1 |}
  else st1.

(** One pass of [for (let i = path.length - 1; i >= 0; --i)].  The
    argument holds [path[i], path[i-1], ..., path[0]], so the index of
    its head is the length of its tail.  A [break] returns, a [continue]
    recurses with the state unchanged. *)
Fixpoint extname_scan (rpath : list ascii) (st : ExtScan) : ExtScan :=
  match rpath with
  | [] => st
  | code :: rest =>
      let i := Z.of_nat (List.length rest) in
      if Ascii.eqb code CHAR_FORWARD_SLASH then
        if negb (matchedSlash st)
        then {| startDot := startDot st; startPart := i + 1; end_ := end_ st;
                matchedSlash := matchedSlash st; preDotState := preDotState st |}
        else extname_scan rest st
      else extname_scan rest (scan_char code i st)
  end.

(** [fsPath.extname(path)] on a POSIX host: Node's [path.posix.extname],
    which is not part of the repository, taken from Node's [lib/path.js].
    The loop tells [/] and [.] from every other character and nothing
    else, so reading a string byte by byte instead of by UTF-16 code unit
    changes no answer. *)
Definition extname (path : string) : string :=
  let st := extname_scan (reverse (Str.chars path)) extScan0 in
  if (startDot st =? -1)
     || (end_ st =? -1)
     || (preDotState st =? 0)
     || ((preDotState st =? 1)
         && (startDot st =? end_ st - 1)
         && (startDot st =? startPart st + 1))
  then ""
  else Str.slice path (startDot st) (end_ st).

(** [static normalizePath(path)] *)
Definition normalizePath (path : string) : string :=
  if Str.endsWith path "/" then path +:+ "index.html"
  else if Str.truthy (extname path) then path else path +:+ "/index.html".

End Path.

(* ===================================================================== *)
(** ** Plain JavaScript objects used as string maps                       *)
(* ===================================================================== *)

Module Js.

(** The property names an object literal [{}] inherits from
    [Object.prototype]. *)
Definition ObjectPrototype : list string :=
  [ "constructor"; "__defineGetter__"; "__defineSetter__"; "hasOwnProperty";
    "__lookupGetter__"; "__lookupSetter__"; "isPrototypeOf";
    "propertyIsEnumerable"; "toString"; "valueOf"; "__proto__";
    "toLocaleString" ].

Definition inherited (key : string) : bool :=
  bool_decide (key ∈ ObjectPrototype).

(** What a property read can give back on a [Record<string, string>]:
    a string stored by the program, or the function or object found
    under that name on the prototype. *)
Inductive Value :=
| VString (s : string)
| VInherited (name : string).

(** [{}]: no own property. *)
Definition empty : gmap string string := ∅.

(** [obj[key] = value] with a string value.  The inherited [__proto__]
    accessor ignores a value that is neither an object nor [null]; any
    other name becomes (or overwrites) an own property. *)
Definition set (obj : gmap string string) (key value : string)
  : gmap string string :=
  if bool_decide (key = "__proto__") then obj else <[key := value]> obj.

(** [key in obj]: own properties, then the prototype chain. *)
Definition has (key : string) (obj : gmap string string) : bool :=
  bool_decide (is_Some (obj !! key)) || inherited key.

(** [obj[key]]; [None] is [undefined]. *)
Definition get (obj : gmap string string) (key : string) : option Value :=
  match obj !! key with
  | Some s => Some (VString s)
  | None => if inherited key then Some (VInherited key) else None
  end.

(** [s === v] for a string [s]. *)
Definition strict_eq (s : string) (v : option Value) : bool :=
  match v with
  | Some (VString t) => bool_decide (s = t)
  | _ => false
  end.

End Js.

(* ===================================================================== *)
(** ** Manifests and [Builder.cleanOutputUsingManifests]                  *)
(* ===================================================================== *)

Record PodPathSha := mkPodPathSha { path : string; sha : string }.

Record CommitAuthor := mkCommitAuthor { name : string; email : string }.

Record Commit := mkCommit {
commit_sha : string;
author : CommitAuthor;
message : string
}.

Record BuildManifest := mkBuildManifest {
branch : option string;
built : string;
commit : option Commit;
files : list PodPathSha
}.

Record BuildDiffPaths := mkBuildDiffPaths {
adds : list string;
edits : list string;
noChanges : list string;
deletes : list string
}.

(** [ExportOptions]: [patterns] is optional. *)
Record ExportOptions := mkExportOptions { patterns : option (list string) }.

(** The truthiness of [options?.patterns]: [options] may be missing, and so
  may the field; an array, even an empty one, is truthy. *)
Definition patterns_truthy (options : option ExportOptions) : bool :=
match options with
| Some {| patterns := Some _ |} => true
| _ => false
end.

Module Diff.

Definition push_adds (p : string) (d : BuildDiffPaths) : BuildDiffPaths :=
  {| adds := adds d ++ [p]; edits := edits d;
     noChanges := noChanges d; deletes := deletes d |}.
Definition push_edits (p : string) (d : BuildDiffPaths) : BuildDiffPaths :=
  {| adds := adds d; edits := edits d ++ [p];
     noChanges := noChanges d; deletes := deletes d |}.
Definition push_noChanges (p : string) (d : BuildDiffPaths) : BuildDiffPaths :=
  {| adds := adds d; edits := edits d;
     noChanges := noChanges d ++ [p]; deletes := deletes d |}.
Definition push_deletes (p : string) (d : BuildDiffPaths) : BuildDiffPaths :=
  {| adds := adds d; edits := edits d;
     noChanges := noChanges d; deletes := deletes d ++ [p] |}.

(** [files.forEach(pathSha => { obj[pathSha.path] = pathSha.sha; })] *)
Definition assign_all (obj : gmap string string) (fs : list PodPathSha)
  : gmap string string :=
  foldl (λ obj pathSha, Js.set obj (path pathSha) (sha pathSha)) obj fs.

(** [const obj = {}] followed by the [forEach] above. *)
Definition pathShas (fs : list PodPathSha) : gmap string string :=
  assign_all Js.empty fs.

(** The body of the [newManifest.files.forEach] that builds adds, edits
    and no changes. *)
Definition classify (existingPathShas : gmap string string)
    (d : BuildDiffPaths) (newPathSha : PodPathSha) : BuildDiffPaths :=
  if Js.has (path newPathSha) existingPathShas then
    if Js.strict_eq (sha newPathSha)
                    (Js.get existingPathShas (path newPathSha))
    then push_noChanges (path newPathSha) d
    else push_edits (path newPathSha) d
  else push_adds (path newPathSha) d.

(** The body of the [existingManifest.files.forEach] that builds deletes. *)
Definition collect_delete (newPathShas : gmap string string)
    (d : BuildDiffPaths) (pathSha : PodPathSha) : BuildDiffPaths :=
  if negb (Js.has (path pathSha) newPathShas)
  then push_deletes (path pathSha) d
  else d.

Definition cleanOutputUsingManifests
    (existingManifest : option BuildManifest) (newManifest : BuildManifest)
    (options : option ExportOptions) : BuildDiffPaths :=
  let buildDiffPaths :=
    {| adds := []; edits := []; noChanges := []; deletes := [] |} in
  match existingManifest with
  | None =>
      {| adds := path <$> files newManifest;
         edits := edits buildDiffPaths;
         noChanges := noChanges buildDiffPaths;
         deletes := deletes buildDiffPaths |}
  | Some existingManifest =>
      let existingPathShas := pathShas (files existingManifest) in
      let buildDiffPaths :=
        foldl (classify existingPathShas) buildDiffPaths (files newManifest) in
      let newPathShas := pathShas (files newManifest) in
      if negb (patterns_truthy options)
      then foldl (collect_delete newPathShas) buildDiffPaths
                 (files existingManifest)
      else buildDiffPaths
  end.

(** A manifest without version-control metadata, as [export] creates it. *)
Definition manifest_of (fs : list PodPathSha) : BuildManifest :=
  {| branch := None; built := "Mon Jan 01 2024"; commit := None; files := fs |}.

(** The three branches of [classify], as tests on a file of the new
    manifest. *)
Definition is_add (existingPathShas : gmap string string) (ps : PodPathSha) : bool :=
  negb (Js.has (path ps) existingPathShas).
Definition is_noChange (existingPathShas : gmap string string) (ps : PodPathSha) : bool :=
  Js.has (path ps) existingPathShas
  && Js.strict_eq (sha ps) (Js.get existingPathShas (path ps)).
Definition is_edit (existingPathShas : gmap string string) (ps : PodPathSha) : bool :=
  Js.has (path ps) existingPathShas
  && negb (Js.strict_eq (sha ps) (Js.get existingPathShas (path ps))).

(** The test of [collect_delete]. *)
Definition is_delete (newPathShas : gmap string string) (ps : PodPathSha) : bool :=
  negb (Js.has (path ps) newPathShas).

(** The output paths a manifest lists, in order. *)
Definition paths (m : BuildManifest) : list string := path <$> files m.

(** The paths of the previous manifest; none when there is no manifest. *)
Definition previous_paths (existingManifest : option BuildManifest) : list string :=
  match existingManifest with
  | Some m => paths m
  | None => []
  end.

(** How many times a path shows up over the four lists of a diff. *)
Definition occurrences (p : string) (d : BuildDiffPaths) : nat :=
  List.length (filter (λ q, q = p) (adds d ++ edits d ++ noChanges d ++ deletes d)).

End Diff.

(* ===================================================================== *)
(** ** Routes, the pod and the mutable world                              *)
(* ===================================================================== *)

(** What a [throw] carries.  [NothingToBuild] is the error object [export]
    creates itself; [SystemError] is a Node file-system error with its
    [errno] and [code]; [Raised] is anything a collaborator (a route's
    [build], a plugin hook, [JSON.parse]) throws. *)
Inductive Error :=
| NothingToBuild (root : string)
| SystemError (errno : Z) (code : string)
| Raised (what : string).

Definition ENOENT : Error := SystemError (-2) "ENOENT".
Definition EACCES : Error := SystemError (-13) "EACCES".
Definition EXDEV : Error := SystemError (-18) "EXDEV".

(** [err.errno], when [err] has one. *)
Definition errno_of (err : Error) : option Z :=
  match err with SystemError n _ => Some n | _ => None end.

(** [err.code], when [err] has one. *)
Definition code_of (err : Error) : option string :=
  match err with SystemError _ c => Some c | _ => None end.

Inductive outcome (A : Type) :=
| Ok (a : A)
| Throw (err : Error).
Arguments Ok {A} a.
Arguments Throw {A} err.

(** A route as the builder sees it.  [route.url.path] and [route.urlPath]
    are the same string; [build] is what awaiting [route.build()] gives. *)
Record Route := mkRoute {
  podPath : option string;
  urlPath : string;
  provider_type : string;
  staticFile_podPath : string;
  build : outcome string
}.

Record CreatedPath := mkCreatedPath {
  route : Route;
  tempPath : string;
  normalPath : string;
  realPath : string
}.

(** The source calls the two fields [tempPath] and [realPath], like those
    of [CreatedPath]. *)
Record Artifact := mkArtifact {
  artifact_tempPath : string;
  artifact_realPath : string
}.

Record BuildMetrics := mkBuildMetrics {
  memoryUsage : Z;
  localesToNumMissingTranslations : list (string * Z);
  numMissingTranslations : Z;
  numDocumentRoutes : Z;
  numStaticRoutes : Z;
  outputSizeDocuments : Z;
  outputSizeStaticFiles : Z
}.

Record BuildResult := mkBuildResult {
  metrics : BuildMetrics;
  manifest : BuildManifest;
  diff : BuildDiffPaths
}.

(** A locale of [pod.cache.locales]. *)
Record Locale := mkLocale {
  locale_id : string;
  is_defaultLocale : bool;
  recordedStrings_size : Z
}.

(** The calls that leave the process: file-system calls and plugin hooks. *)
Inductive Op :=
| OpHook (hookName : string)
| OpExists (p : string)
| OpRead (p : string)
| OpMkdtemp (p : string)
| OpEnsureDir (p : string)
| OpCopy (src dst : string)
| OpWrite (p : string)
| OpHash (p : string)
| OpStat (p : string)
| OpRename (before after : string)
| OpUnlink (p : string)
| OpPruneDir (p : string)
| OpRmTree (p : string).

Global Instance Op_eq_dec : EqDecision Op.
Proof. solve_decision. Defined.

(** A line on the console. *)
Inductive ConsoleLine :=
| Warning (absOutputPath : string)
| Summary (d : BuildDiffPaths) (m : BuildMetrics).

(** Everything [export] can change.  [disk] holds the files of the pod and
    of its output directory by absolute path; [staging] holds the files
    under the temporary directory that [mkdtempSync] creates, which is fresh
    and so shares no file with [disk].  Directories carry no content of
    their own.  [artifacts], [bar], [moveBar], [manifest_files] and
    [buildMetrics] are the locals of [export] that its concurrent tasks
    update.  [trace] records every [Op] in the order in which the calls
    took effect. *)
Record World := mkWorld {
  disk : gmap string string;
  staging : gmap string string;
  artifacts : list Artifact;
  bar : nat;
  moveBar : nat;
  manifest_files : list PodPathSha;
  buildMetrics : BuildMetrics;
  console : list ConsoleLine;
  trace : list Op
}.

(** The collaborators of the builder, which are not part of it: the pod and
    its router, Node's [path] and [crypto], [minimatch], [JSON], the plugin
    hooks, and the two things only a run decides: which I/O calls fail for a
    reason of their own, and in which order pending I/O completes. *)
Record Env := mkEnv {
  pod_root : string;
  getAbsoluteFilePath : string → string;
  join : list string → string;
  dirname : string → string;
  tempDirRoot : string;
  router_routes : outcome (list Route);
  minimatch : string → string → bool;
  sha1_hex : string → string;
  JSON_parse : string → outcome (option BuildManifest);
  stringify_manifest : BuildManifest → string;
  stringify_metrics : BuildMetrics → string;
  built_date : string;
  heapUsed : Z;
  cache_locales : list Locale;
  hook_fails : string → option string;
  io_fails : Op → option (Z * string);
  build_completion_order : list nat;
  move_completion_order : list nat
}.

(** *** Computations that change the world and may throw *)

Definition M (A : Type) : Type := World → outcome A * World.

Definition ret {A} (a : A) : M A := λ w, (Ok a, w).

Definition throw {A} (err : Error) : M A := λ w, (Throw err, w).

Definition bind {A B} (m : M A) (k : A → M B) : M B :=
  λ w, match m w with
       | (Ok a, w') => k a w'
       | (Throw err, w') => (Throw err, w')
       end.

Notation "'let*' x := m 'in' k" := (bind m (λ x, k))
  (at level 10, x name, m at level 100, k at level 200).
Notation "m >> k" := (bind m (λ _, k))
  (at level 100, k at level 200, right associativity).

(** [try { body } catch (err) { handler(err) }] *)
Definition try_catch {A} (body : M A) (handler : Error → M A) : M A :=
  λ w, match body w with
       | (Ok a, w') => (Ok a, w')
       | (Throw err, w') => handler err w'
       end.

(** [try { body } finally { cleanup }]: the cleanup runs either way; when it
    throws, its error replaces the outcome of the body. *)
Definition try_finally {A} (body : M A) (cleanup : M unit) : M A :=
  λ w, match body w with
       | (r, w') =>
           match cleanup w' with
           | (Ok _, w'') => (r, w'')
           | (Throw err, w'') => (Throw err, w'')
           end
       end.

(** [items.forEach(f)] with a callback that may throw. *)
Fixpoint forEach {A} (f : A → M unit) (items : list A) : M unit :=
  match items with
  | [] => ret tt
  | x :: rest => f x >> forEach f rest
  end.

Definition modify (f : World → World) : M unit := λ w, (Ok tt, f w).

Definition get_world : M World := λ w, (Ok w, w).

(** *** Updates of single fields *)

Definition set_disk (f : gmap string string → gmap string string) (w : World) : World :=
  {| disk := f (disk w); staging := staging w; artifacts := artifacts w;
     bar := bar w; moveBar := moveBar w; manifest_files := manifest_files w;
     buildMetrics := buildMetrics w; console := console w; trace := trace w |}.

Definition set_staging (f : gmap string string → gmap string string) (w : World) : World :=
  {| disk := disk w; staging := f (staging w); artifacts := artifacts w;
     bar := bar w; moveBar := moveBar w; manifest_files := manifest_files w;
     buildMetrics := buildMetrics w; console := console w; trace := trace w |}.

Definition push_artifact (a : Artifact) (w : World) : World :=
  {| disk := disk w; staging := staging w; artifacts := artifacts w ++ [a];
     bar := bar w; moveBar := moveBar w; manifest_files := manifest_files w;
     buildMetrics := buildMetrics w; console := console w; trace := trace w |}.

Definition bar_increment (w : World) : World :=
  {| disk := disk w; staging := staging w; artifacts := artifacts w;
     bar := S (bar w); moveBar := moveBar w; manifest_files := manifest_files w;
     buildMetrics := buildMetrics w; console := console w; trace := trace w |}.

Definition moveBar_increment (w : World) : World :=
  {| disk := disk w; staging := staging w; artifacts := artifacts w;
     bar := bar w; moveBar := S (moveBar w); manifest_files := manifest_files w;
     buildMetrics := buildMetrics w; console := console w; trace := trace w |}.

Definition push_manifest_file (ps : PodPathSha) (w : World) : World :=
  {| disk := disk w; staging := staging w; artifacts := artifacts w;
     bar := bar w; moveBar := moveBar w;
     manifest_files := manifest_files w ++ [ps];
     buildMetrics := buildMetrics w; console := console w; trace := trace w |}.

Definition set_buildMetrics (f : BuildMetrics → BuildMetrics) (w : World) : World :=
  {| disk := disk w; staging := staging w; artifacts := artifacts w;
     bar := bar w; moveBar := moveBar w; manifest_files := manifest_files w;
     buildMetrics := f (buildMetrics w); console := console w; trace := trace w |}.

Definition console_push (l : ConsoleLine) (w : World) : World :=
  {| disk := disk w; staging := staging w; artifacts := artifacts w;
     bar := bar w; moveBar := moveBar w; manifest_files := manifest_files w;
     buildMetrics := buildMetrics w; console := console w ++ [l]; trace := trace w |}.

Definition record_op (op : Op) (w : World) : World :=
  {| disk := disk w; staging := staging w; artifacts := artifacts w;
     bar := bar w; moveBar := moveBar w; manifest_files := manifest_files w;
     buildMetrics := buildMetrics w; console := console w; trace := trace w ++ [op] |}.

(** The locals of [export] as it declares them: nothing built yet. *)
Definition buildMetrics0 : BuildMetrics :=
  {| memoryUsage := 0; localesToNumMissingTranslations := [];
     numMissingTranslations := 0; numDocumentRoutes := 0; numStaticRoutes := 0;
     outputSizeDocuments := 0; outputSizeStaticFiles := 0 |}.

Definition fresh_locals (w : World) : World :=
  {| disk := disk w; staging := staging w; artifacts := [];
     bar := 0; moveBar := 0; manifest_files := [];
     buildMetrics := buildMetrics0; console := console w; trace := trace w |}.

(* ===================================================================== *)
(** ** The bounded-concurrency runner of [async.eachLimit] / [mapLimit]   *)
(* ===================================================================== *)

Module Async.
Section Limit.

Context {T S : Type}.

(** An [async] iteratee runs until its first [await] and is then resumed
    once for every pending operation that completes.  [inl s] is a task
    suspended in state [s], [inr tt] a task that has resolved, [Throw] a
    task that has rejected. *)
Variable iteratee_start : T → M (S + unit).
Variable iteratee_resume : S → M (S + unit).
Variable limit : nat.

(** One turn of the runner.  While fewer than [limit] tasks are in flight
    and items remain, the next item is started at once; otherwise the
    in-flight task picked by the head of [order] is resumed.  The first
    rejection settles the run with that error, in the world as it is at that
    moment: the tasks still in flight are not followed any further.  The
    run resolves when nothing is pending or in flight.  [None]: the run has
    not settled within [fuel] turns. *)
Fixpoint run (fuel : nat) (pending : list T) (running : list S)
    (order : list nat) (w : World) : option (outcome unit * World) :=
  match fuel with
  | O => None
  | Datatypes.S fuel =>
      match (if Nat.ltb (List.length running) limit then pending else []) with
      | t :: _ =>
          match iteratee_start t w with
          | (Ok (inl s), w') => run fuel (tail pending) (running ++ [s]) order w'
          | (Ok (inr _), w') => run fuel (tail pending) running order w'
          | (Throw err, w') => Some (Throw err, w')
          end
      | [] =>
          match running with
          | [] => match pending with
                  | [] => Some (Ok tt, w)
                  | _ :: _ => None
                  end
          | _ :: _ =>
              let k := Nat.modulo (hd O order) (List.length running) in
              match running !! k with
              | Some s =>
                  match iteratee_resume s w with
                  | (Ok (inl s'), w') =>
                      run fuel pending (<[k := s']> running) (tail order) w'
                  | (Ok (inr _), w') =>
                      run fuel pending (delete k running) (tail order) w'
                  | (Throw err, w') => Some (Throw err, w')
                  end
              | None => None
              end
          end
      end
  end.

(** A bound on the number of resumptions one task needs. *)
Variable max_resumes : nat.

Definition turns (items : list T) : nat :=
  Datatypes.S (List.length items * Datatypes.S max_resumes).

(** [await async.eachLimit(items, limit, iteratee)] *)
Definition eachLimit (items : list T) (order : list nat) : M unit :=
  λ w, match run (turns items) items [] order w with
       | Some r => r
       | None => (Throw (Raised "the run never settles"), w)
       end.

End Limit.
End Async.

(* ===================================================================== *)
(** ** The class [Builder]                                                *)
(* ===================================================================== *)

Module Builder.

Definition DefaultOutputDirectory : string := "build".
Definition NumConcurrentBuilds : nat := 40.
Definition NumConcurrentCopies : nat := 2000.
Definition ShowMoveProgressBarThreshold : nat := 1000.

Section WithEnv.

Variable env : Env.

Definition outputDirectoryPodPath : string := DefaultOutputDirectory.

Definition manifestPodPath : string :=
  join env [outputDirectoryPodPath; ".amagaki"; "manifest.json"].

Definition metricsPodPath : string :=
  join env [outputDirectoryPodPath; ".amagaki"; "metrics.json"].

(** *** File-system calls *)

(** Issue a call: it is recorded, and fails when the run says so. *)
Definition issue (op : Op) : M unit :=
  λ w, match io_fails env op with
       | Some (n, c) => (Throw (SystemError n c), record_op op w)
       | None => (Ok tt, record_op op w)
       end.

Definition lift {A} (r : outcome A) : M A := λ w, (r, w).

(** [pod.fileExists(podPath)]: never throws. *)
Definition fileExists (podPath : string) : M bool :=
  λ w, let p := getAbsoluteFilePath env podPath in
       (Ok (bool_decide (is_Some (disk w !! p))), record_op (OpExists p) w).

(** [pod.readFile(podPath)] *)
Definition readFile (podPath : string) : M string :=
  let p := getAbsoluteFilePath env podPath in
  issue (OpRead p) >>
  let* w := get_world in
  match disk w !! p with
  | Some content => ret content
  | None => throw ENOENT
  end.

(** [fs.unlinkSync(absPath)] on the output directory. *)
Definition unlinkSync (absPath : string) : M unit :=
  issue (OpUnlink absPath) >>
  let* w := get_world in
  match disk w !! absPath with
  | Some _ => modify (set_disk (delete absPath))
  | None => throw ENOENT
  end.

(** [static ensureDirectoryExists(path)]: [existsSync] and, when needed,
    [mkdirSync] on the parent directory. *)
Definition ensureDirectoryExists (path : string) : M unit :=
  issue (OpEnsureDir (dirname env path)).

(** The completion of [fs.promises.copyFile] from the pod into staging. *)
Definition copyFile_to_staging (absSource outputPath : string) : M unit :=
  issue (OpCopy absSource outputPath) >>
  let* w := get_world in
  match disk w !! absSource with
  | Some content => modify (set_staging (<[outputPath := content]>))
  | None => throw ENOENT
  end.

(** The completion of [fs.promises.writeFile] into staging. *)
Definition writeFile_to_staging (outputPath content : string) : M unit :=
  issue (OpWrite outputPath) >>
  modify (set_staging (<[outputPath := content]>)).

(** The completion of [fs.promises.writeFile] into the output directory. *)
Definition writeFile_to_disk (outputPath content : string) : M unit :=
  issue (OpWrite outputPath) >>
  modify (set_disk (<[outputPath := content]>)).

(** [getFileSha(outputPath)] on a staged file, once the stream has ended. *)
Definition getFileSha (outputPath : string) : M string :=
  issue (OpHash outputPath) >>
  let* w := get_world in
  match staging w !! outputPath with
  | Some content => ret (sha1_hex env content)
  | None => throw ENOENT
  end.

(** [(await fs.promises.stat(path)).size] on a staged file. *)
Definition stat_size (path : string) : M Z :=
  issue (OpStat path) >>
  let* w := get_world in
  match staging w !! path with
  | Some content => ret (Z.of_nat (String.length content))
  | None => throw ENOENT
  end.

(** The completion of [fs.promises.rename] from staging to the output
    directory. *)
Definition rename (beforePath afterPath : string) : M unit :=
  issue (OpRename beforePath afterPath) >>
  let* w := get_world in
  match staging w !! beforePath with
  | Some content =>
      modify (set_disk (<[afterPath := content]>)) >>
      modify (set_staging (delete beforePath))
  | None => throw ENOENT
  end.

(** The completion of the [copyFile] that [moveFileAsync] falls back to. *)
Definition copyFile_to_disk (beforePath afterPath : string) : M unit :=
  issue (OpCopy beforePath afterPath) >>
  let* w := get_world in
  match staging w !! beforePath with
  | Some content => modify (set_disk (<[afterPath := content]>))
  | None => throw ENOENT
  end.

(** [fs.mkdtempSync(...)] *)
Definition mkdtempSync : M string :=
  issue (OpMkdtemp (tempDirRoot env)) >> ret (tempDirRoot env).

(** [deleteDirectoryRecursive(tempDirRoot)]: whatever is still staged goes. *)
Definition deleteDirectoryRecursive (path : string) : M unit :=
  issue (OpRmTree path) >> modify (set_staging (λ _, ∅)).

(** [existsSync], [readdirSync] and [rmdirSync] on the parent directory of
    a deleted file; removing an empty directory removes no file. *)
Definition pruneDirectory (dirPath : string) : M unit :=
  issue (OpPruneDir dirPath).

(** [pod.plugins.trigger(hookName, ...)] *)
Definition trigger (hookName : string) : M unit :=
  modify (record_op (OpHook hookName)) >>
  match hook_fails env hookName with
  | Some what => throw (Raised what)
  | None => ret tt
  end.

(** *** [deleteOutputFiles] *)

(** The body of [paths.forEach(outputPath => ...)]. *)
Definition deleteOutputFile (outputPath : string) : M unit :=
  let absOutputPath :=
    getAbsoluteFilePath env (join env [outputDirectoryPodPath; outputPath]) in
  try_catch (unlinkSync absOutputPath)
    (λ err, if bool_decide (errno_of err = Some (-2))
            then modify (console_push (Warning absOutputPath))
            else throw err) >>
  pruneDirectory (dirname env absOutputPath).

Definition deleteOutputFiles (paths : list string) : M unit :=
  forEach deleteOutputFile paths.

(** *** [getExistingManifest] *)

Definition getExistingManifest : M (option BuildManifest) :=
  let* found := fileExists manifestPodPath in
  if found : bool then
    let* content := readFile manifestPodPath in
    lift (JSON_parse env content)
  else ret None.

(** *** Route selection (the filter at the top of [export]) *)

(** [s.replace(/^\//, '')] *)
Definition strip_leading_slash (s : string) : string :=
  match s with
  | String c rest => if Ascii.eqb c "/" then rest else s
  | EmptyString => s
  end.

(** [options.patterns.some(pattern => route.podPath && minimatch(...))] *)
Definition route_matches (pats : list string) (r : Route) : bool :=
  existsb
    (λ pattern,
       match podPath r with
       | Some p =>
           Str.truthy p
           && minimatch env (strip_leading_slash p) (strip_leading_slash pattern)
       | None => false
       end)
    pats.

Definition select_routes (options : option ExportOptions) (routes : list Route)
  : list Route :=
  match options with
  | Some {| patterns := Some pats |} => List.filter (route_matches pats) routes
  | _ => routes
  end.

(** *** Staging: the iteratee of [async.eachLimit] *)

Definition createdPath_of (r : Route) : CreatedPath :=
  let normalPath := Path.normalizePath (urlPath r) in
  {| route := r;
     tempPath := join env [tempDirRoot env; outputDirectoryPodPath; normalPath];
     normalPath := normalPath;
     realPath :=
       getAbsoluteFilePath env (join env [outputDirectoryPodPath; normalPath]) |}.

Definition artifact_of (cp : CreatedPath) : Artifact :=
  {| artifact_tempPath := tempPath cp; artifact_realPath := realPath cp |}.

(** The [finally] block of the iteratee. *)
Definition bookkeeping (cp : CreatedPath) : M unit :=
  modify (push_artifact (artifact_of cp)) >> modify bar_increment.

Definition is_staticDir (cp : CreatedPath) : bool :=
  bool_decide (provider_type (route cp) = "staticDir").

Inductive StageState :=
| AwaitCopy (cp : CreatedPath)
| AwaitBuild (cp : CreatedPath)
| AwaitWrite (cp : CreatedPath) (content : string).

(** Up to the first suspension.  A static route creates the directory and
    starts the copy; the promise is returned without [await], so the
    [finally] block runs before the copy completes.  Any other route calls
    [route.build()] and waits for it inside the [try].  The profiler's
    timer around the build changes nothing the builder reads and is left
    out. *)
Definition stage_start (cp : CreatedPath) : M (StageState + unit) :=
  if is_staticDir cp then
    try_finally
      (ensureDirectoryExists (tempPath cp) >> ret (inl (AwaitCopy cp)))
      (bookkeeping cp)
  else ret (inl (AwaitBuild cp)).

Definition stage_resume (s : StageState) : M (StageState + unit) :=
  match s with
  | AwaitCopy cp =>
      copyFile_to_staging
        (getAbsoluteFilePath env (staticFile_podPath (route cp))) (tempPath cp) >>
      ret (inr tt)
  | AwaitBuild cp =>
      try_finally
        (let* content := lift (build (route cp)) in
         ensureDirectoryExists (tempPath cp) >>
         ret (inl (AwaitWrite cp content)))
        (bookkeeping cp)
  | AwaitWrite cp content =>
      writeFile_to_staging (tempPath cp) content >> ret (inr tt)
  end.

(** *** Hashing, measuring and moving: the iteratee of [async.mapLimit] *)

Definition count_route (cp : CreatedPath) (size : Z) (m : BuildMetrics)
  : BuildMetrics :=
  if is_staticDir cp then
    {| memoryUsage := memoryUsage m;
       localesToNumMissingTranslations := localesToNumMissingTranslations m;
       numMissingTranslations := numMissingTranslations m;
       numDocumentRoutes := numDocumentRoutes m;
       numStaticRoutes := numStaticRoutes m + 1;
       outputSizeDocuments := outputSizeDocuments m;
       outputSizeStaticFiles := outputSizeStaticFiles m + size |}
  else
    {| memoryUsage := memoryUsage m;
       localesToNumMissingTranslations := localesToNumMissingTranslations m;
       numMissingTranslations := numMissingTranslations m;
       numDocumentRoutes := numDocumentRoutes m + 1;
       numStaticRoutes := numStaticRoutes m;
       outputSizeDocuments := outputSizeDocuments m + size;
       outputSizeStaticFiles := outputSizeStaticFiles m |}.

Inductive MoveState :=
| AwaitHash (cp : CreatedPath)
| AwaitStat (cp : CreatedPath)
| AwaitRename (cp : CreatedPath)
| AwaitFallbackCopy (cp : CreatedPath).

Definition move_start (cp : CreatedPath) : M (MoveState + unit) :=
  ret (inl (AwaitHash cp)).

Definition move_done (showMoveProgressBar : bool) : M (MoveState + unit) :=
  (if showMoveProgressBar then modify moveBar_increment else ret tt) >>
  ret (inr tt).

Definition move_resume (showMoveProgressBar : bool) (s : MoveState)
  : M (MoveState + unit) :=
  match s with
  | AwaitHash cp =>
      let* sha := getFileSha (tempPath cp) in
      modify (push_manifest_file {| path := normalPath cp; sha := sha |}) >>
      ret (inl (AwaitStat cp))
  | AwaitStat cp =>
      let* size := stat_size (tempPath cp) in
      modify (set_buildMetrics (count_route cp size)) >>
      ensureDirectoryExists (realPath cp) >>
      ret (inl (AwaitRename cp))
  | AwaitRename cp =>
      let* fallback :=
        try_catch
          (rename (tempPath cp) (realPath cp) >> ret false)
          (λ err, if bool_decide (code_of err = Some "EXDEV")
                  then ret true else throw err) in
      if fallback : bool then ret (inl (AwaitFallbackCopy cp))
      else move_done showMoveProgressBar
  | AwaitFallbackCopy cp =>
      copyFile_to_disk (tempPath cp) (realPath cp) >>
      move_done showMoveProgressBar
  end.

(** *** [export] *)

(** Lines 298-322: the hook, the previous manifest, the locals, the
    temporary directory and the routes of the pod. *)
Definition export_prelude : M (option BuildManifest * list Route) :=
  trigger "beforeBuild" >>
  let* existingManifest := getExistingManifest in
  modify fresh_locals >>
  mkdtempSync >>
  let* routes := lift (router_routes env) in
  ret (existingManifest, routes).

(** The loop over [pod.cache.locales]. *)
Definition count_missing (m : BuildMetrics) : BuildMetrics :=
  let counted :=
    List.filter
      (λ l, negb (is_defaultLocale l || (recordedStrings_size l =? 0)))
      (cache_locales env) in
  {| memoryUsage := memoryUsage m;
     localesToNumMissingTranslations :=
       (λ l, (locale_id l, recordedStrings_size l)) <$> counted;
     numMissingTranslations :=
       foldl (λ n l, n + recordedStrings_size l) (numMissingTranslations m) counted;
     numDocumentRoutes := numDocumentRoutes m;
     numStaticRoutes := numStaticRoutes m;
     outputSizeDocuments := outputSizeDocuments m;
     outputSizeStaticFiles := outputSizeStaticFiles m |}.

Definition set_memoryUsage (n : Z) (m : BuildMetrics) : BuildMetrics :=
  {| memoryUsage := n;
     localesToNumMissingTranslations := localesToNumMissingTranslations m;
     numMissingTranslations := numMissingTranslations m;
     numDocumentRoutes := numDocumentRoutes m;
     numStaticRoutes := numStaticRoutes m;
     outputSizeDocuments := outputSizeDocuments m;
     outputSizeStaticFiles := outputSizeStaticFiles m |}.

(** Lines 324-483: select the routes, stage them, then hash, measure and
    move every staged file, remove the temporary directory and complete the
    metrics.  The result is the new manifest and the metrics. *)
Definition export_build (options : option ExportOptions) (routes : list Route)
  : M (BuildManifest * BuildMetrics) :=
  let routes := select_routes options routes in
  if bool_decide (List.length routes = 0%nat) then
    throw (NothingToBuild (pod_root env))
  else
    let createdPaths := createdPath_of <$> routes in
    Async.eachLimit stage_start stage_resume NumConcurrentBuilds 2
      createdPaths (build_completion_order env) >>
    let* w := get_world in
    let showMoveProgressBar :=
      bool_decide (ShowMoveProgressBarThreshold ≤ List.length (artifacts w))%nat in
    Async.eachLimit move_start (move_resume showMoveProgressBar)
      NumConcurrentCopies 4 createdPaths (move_completion_order env) >>
    modify (set_buildMetrics (set_memoryUsage (heapUsed env))) >>
    deleteDirectoryRecursive (tempDirRoot env) >>
    modify (set_buildMetrics count_missing) >>
    let* w := get_world in
    ret ({| branch := None; built := built_date env; commit := None;
            files := manifest_files w |},
         buildMetrics w).

(** [Promise.all] over the two writes: both are started, and the first
    rejection is the one reported. *)
Definition write_manifest_and_metrics (buildManifest : BuildManifest)
    (buildMetrics : BuildMetrics) : M unit :=
  let manifestPath := getAbsoluteFilePath env manifestPodPath in
  let metricsPath := getAbsoluteFilePath env metricsPodPath in
  ensureDirectoryExists manifestPath >>
  ensureDirectoryExists metricsPath >>
  λ w,
    match writeFile_to_disk manifestPath (stringify_manifest env buildManifest) w with
    | (r1, w1) =>
        match writeFile_to_disk metricsPath (stringify_metrics env buildMetrics) w1 with
        | (r2, w2) =>
            match r1, r2 with
            | Throw err, _ => (Throw err, w2)
            | Ok _, Throw err => (Throw err, w2)
            | Ok _, Ok _ => (Ok tt, w2)
            end
        end
    end.

(** Lines 497-516: compute the diff, delete stale files, log, and run the
    last hook. *)
Definition export_after_write (options : option ExportOptions)
    (existingManifest : option BuildManifest) (buildManifest : BuildManifest)
    (buildMetrics : BuildMetrics) : M BuildResult :=
  let buildDiff :=
    Diff.cleanOutputUsingManifests existingManifest buildManifest options in
  (if negb (patterns_truthy options)
   then deleteOutputFiles (deletes buildDiff) else ret tt) >>
  let result :=
    {| diff := buildDiff; manifest := buildManifest; metrics := buildMetrics |} in
  modify (console_push (Summary buildDiff buildMetrics)) >>
  trigger "afterBuild" >>
  ret result.

(** Lines 485-516: write the manifest and the metrics, then the rest. *)
Definition export_finish (options : option ExportOptions)
    (existingManifest : option BuildManifest) (buildManifest : BuildManifest)
    (buildMetrics : BuildMetrics) : M BuildResult :=
  write_manifest_and_metrics buildManifest buildMetrics >>
  export_after_write options existingManifest buildManifest buildMetrics.

(** [async export(options?)] *)
Definition export (options : option ExportOptions) : M BuildResult :=
  let* pre := export_prelude in
  let* built := export_build options (snd pre) in
  export_finish options (fst pre) (fst built) (snd built).

End WithEnv.
End Builder.

(* ===================================================================== *)
(** ** A small pod to run the builder on                                  *)
(* ===================================================================== *)

Module Demo.

(** Stand-ins for the collaborators: a [join_paths] that puts one slash between
    components, a pod rooted at [/pod], a digest that tags the content, and
    a [JSON] that prints a manifest as its list of [path=sha] pairs. *)
Definition join_paths (parts : list string) : string :=
  match parts with
  | [] => "."
  | first :: rest =>
      foldl (λ acc part, acc +:+ "/" +:+ Builder.strip_leading_slash part) first rest
  end.

Definition absolute (podPath : string) : string :=
  "/pod/" +:+ Builder.strip_leading_slash podPath.

Fixpoint after_slash (l : list ascii) : list ascii :=
  match l with
  | [] => []
  | c :: rest => if Ascii.eqb c "/" then rest else after_slash rest
  end.

Definition parent (p : string) : string :=
  Str.of_chars (reverse (after_slash (reverse (Str.chars p)))).

Definition print_manifest (m : BuildManifest) : string :=
  String.concat ";" ((λ ps, path ps +:+ "=" +:+ sha ps) <$> files m).

Definition print_metrics (m : BuildMetrics) : string :=
  if (numDocumentRoutes m + numStaticRoutes m =? 0) then "no routes" else "some routes".

(** The manifest of an earlier build: a home page and a page that the pod
    no longer has. *)
Definition old_manifest : BuildManifest :=
  Diff.manifest_of [mkPodPathSha "/index.html" "sha1:hello";
                    mkPodPathSha "/old/index.html" "sha1:old"].

Definition parse_manifest (text : string) : outcome (option BuildManifest) :=
  if bool_decide (text = print_manifest old_manifest)
  then Ok (Some old_manifest)
  else Throw (Raised "SyntaxError").

Definition glob (p pattern : string) : bool :=
  bool_decide (p = pattern) || bool_decide (pattern = "**").

Definition env (routes : list Route) (io_fails : Op → option (Z * string))
    (order : list nat) : Env :=
  {| pod_root := "/pod";
     getAbsoluteFilePath := absolute;
     join := join_paths;
     dirname := parent;
     tempDirRoot := "/tmp/amagaki-build-a1b2c3";
     router_routes := Ok routes;
     minimatch := glob;
     sha1_hex := λ content, "sha1:" +:+ content;
     JSON_parse := parse_manifest;
     stringify_manifest := print_manifest;
     stringify_metrics := print_metrics;
     built_date := "Mon Jan 01 2024";
     heapUsed := 1000;
     cache_locales := [];
     hook_fails := λ _, None;
     io_fails := io_fails;
     build_completion_order := order;
     move_completion_order := order |}.

Definition no_failure : Op → option (Z * string) := λ _, None.

Definition home : Route :=
  {| podPath := Some "/content/index.md"; urlPath := "/";
     provider_type := "collection"; staticFile_podPath := "";
     build := Ok "hello" |}.

Definition about : Route :=
  {| podPath := Some "/content/about.md"; urlPath := "/about";
     provider_type := "collection"; staticFile_podPath := "";
     build := Ok "about us" |}.

Definition stylesheet : Route :=
  {| podPath := Some "/static/app.css"; urlPath := "/static/app.css";
     provider_type := "staticDir"; staticFile_podPath := "/static/app.css";
     build := Throw (Raised "a static route is never built") |}.

Definition broken : Route :=
  {| podPath := Some "/content/broken.md"; urlPath := "/broken";
     provider_type := "collection"; staticFile_podPath := "";
     build := Throw (Raised "template error") |}.

Definition world (files : list (string * string)) : World :=
  {| disk := list_to_map files; staging := ∅; artifacts := []; bar := 0;
     moveBar := 0; manifest_files := []; buildMetrics := buildMetrics0;
     console := []; trace := [] |}.

(** A pod that was never built: only its sources are on disk. *)
Definition fresh_pod : World :=
  world [("/pod/content/index.md", "# hello");
         ("/pod/content/about.md", "# about");
         ("/pod/static/app.css", "body {}")].

(** The same pod after the earlier build recorded in [old_manifest]. *)
Definition built_pod : World :=
  world [("/pod/content/index.md", "# hello");
         ("/pod/static/app.css", "body {}");
         ("/pod/build/index.html", "hello");
         ("/pod/build/old/index.html", "old");
         ("/pod/build/.amagaki/manifest.json", print_manifest old_manifest);
         ("/pod/build/.amagaki/metrics.json", "metrics of the earlier build")].

(** The stale page cannot be removed: its [unlink] fails with [EACCES]. *)
Definition unlink_denied : Op → option (Z * string) :=
  λ op, if bool_decide (op = OpUnlink "/pod/build/old/index.html")
        then Some (-13, "EACCES") else None.

End Demo.

(* ===================================================================== *)
(** ** Vocabulary for the statements                                      *)
(* ===================================================================== *)

Module Props.
Import Builder.

(** The calls each part of [export] issues. *)
Definition is_prelude_op (op : Op) : bool :=
  match op with
  | OpHook _ | OpExists _ | OpRead _ | OpMkdtemp _ => true
  | _ => false
  end.

Definition is_stage_op (op : Op) : bool :=
  match op with
  | OpEnsureDir _ | OpCopy _ _ | OpWrite _ => true
  | _ => false
  end.

Definition is_move_op (op : Op) : bool :=
  match op with
  | OpHash _ | OpStat _ | OpEnsureDir _ | OpRename _ _ | OpCopy _ _ => true
  | _ => false
  end.

Definition is_unlink (op : Op) : bool :=
  match op with OpUnlink _ => true | _ => false end.

Definition is_not_unlink (op : Op) : bool := negb (is_unlink op).

(** From [w] to [w'] only calls that [allowed] accepts were issued. *)
Definition only_ops (allowed : Op → bool) (w w' : World) : Prop :=
  ∃ ops, trace w' = trace w ++ ops ∧ Forall (λ op, allowed op = true) ops.

(** What staging leaves alone: the pod and its output directory, the
    manifest and the metrics under construction, the second progress bar
    and the console. *)
Definition stage_frame (w w' : World) : Prop :=
  disk w' = disk w
  ∧ manifest_files w' = manifest_files w
  ∧ buildMetrics w' = buildMetrics w
  ∧ moveBar w' = moveBar w
  ∧ console w' = console w
  ∧ only_ops is_stage_op w w'.

(** The route of a staging task that has not reached its [finally] block. *)
Definition awaiting_build (s : StageState) : option CreatedPath :=
  match s with AwaitBuild cp => Some cp | _ => None end.

(** The route of a staging task that is past its [finally] block. *)
Definition past_finally (s : StageState) : option CreatedPath :=
  match s with
  | AwaitCopy cp | AwaitWrite cp _ => Some cp
  | AwaitBuild _ => None
  end.

(** What holds between two turns of the staging pass that started in [w0]
    over [createdPaths]: the artifacts appended so far, those of the tasks
    still waiting for [route.build()] and those of the routes not started
    make up the artifacts of all the routes, and the progress bar counts the
    appended ones. *)
Definition stage_inv (createdPaths : list CreatedPath) (w0 : World)
    (pending : list CreatedPath) (running : list StageState) (w : World) : Prop :=
  ∃ l,
    artifacts w = artifacts w0 ++ l
    ∧ l ++ (artifact_of <$> omap awaiting_build running)
        ++ (artifact_of <$> pending)
      ≡ₚ artifact_of <$> createdPaths
    ∧ bar w = (bar w0 + List.length l)%nat
    ∧ stage_frame w0 w
    ∧ (∀ cp, cp ∈ omap past_finally running → artifact_of cp ∈ l).

(** What holds when a staging task has just rejected. *)
Definition stage_rejected (createdPaths : list CreatedPath) (w0 w : World) : Prop :=
  ∃ l,
    artifacts w = artifacts w0 ++ l
    ∧ l ≠ []
    ∧ l ⊆+ artifact_of <$> createdPaths
    ∧ bar w = (bar w0 + List.length l)%nat
    ∧ stage_frame w0 w.

(** The route a staging task works on. *)
Definition stage_cp (s : StageState) : CreatedPath :=
  match s with AwaitCopy cp | AwaitBuild cp | AwaitWrite cp _ => cp end.

(** The action of a route raises: for a static route, creating the
    directory or copying the source fails; for any other route,
    [route.build()] throws, or creating the directory or writing the content
    fails.  [files] is what is on disk during staging. *)
Definition action_fails (env : Env) (files : gmap string string)
    (cp : CreatedPath) : Prop :=
  if is_staticDir cp then
    is_Some (io_fails env (OpEnsureDir (dirname env (tempPath cp))))
    ∨ is_Some (io_fails env
                 (OpCopy (getAbsoluteFilePath env (staticFile_podPath (route cp)))
                         (tempPath cp)))
    ∨ files !! getAbsoluteFilePath env (staticFile_podPath (route cp)) = None
  else
    (∃ err, build (route cp) = Throw err)
    ∨ is_Some (io_fails env (OpEnsureDir (dirname env (tempPath cp))))
    ∨ is_Some (io_fails env (OpWrite (tempPath cp))).

(** What is known of a suspended staging task: the steps it has taken did
    not raise. *)
Definition state_ok (env : Env) (s : StageState) : Prop :=
  match s with
  | AwaitCopy cp =>
      is_staticDir cp = true
      ∧ io_fails env (OpEnsureDir (dirname env (tempPath cp))) = None
  | AwaitBuild cp => is_staticDir cp = false
  | AwaitWrite cp content =>
      is_staticDir cp = false
      ∧ build (route cp) = Ok content
      ∧ io_fails env (OpEnsureDir (dirname env (tempPath cp))) = None
  end.

(** Between two turns of the staging pass: the action of every route that
    is neither pending nor in flight went through without raising. *)
Definition stage_ok_inv (env : Env) (createdPaths : list CreatedPath) (w0 : World)
    (pending : list CreatedPath) (running : list StageState) (w : World) : Prop :=
  disk w = disk w0
  ∧ (∀ s, s ∈ running → state_ok env s)
  ∧ (∀ cp, cp ∈ createdPaths →
       ¬ action_fails env (disk w0) cp
       ∨ cp ∈ pending ∨ cp ∈ stage_cp <$> running).

(** The resumptions a suspended staging task still needs, at most. *)
Definition stage_left (s : StageState) : nat :=
  match s with
  | AwaitBuild _ => 2
  | AwaitCopy _ | AwaitWrite _ _ => 1
  end.

(** The staging pass of [export] over the given items. *)
Definition stage_all (env : Env) (createdPaths : list CreatedPath)
    (order : list nat) : M unit :=
  Async.eachLimit (stage_start env) (stage_resume env) NumConcurrentBuilds 2
    createdPaths order.

(** The hash, stat and move pass of [export] over the given items. *)
Definition move_all (env : Env) (showMoveProgressBar : bool)
    (createdPaths : list CreatedPath) (order : list nat) : M unit :=
  Async.eachLimit (move_start) (move_resume env showMoveProgressBar)
    NumConcurrentCopies 4 createdPaths order.

(** In a list of calls, every move of a staged file ([rename], or the
    [copyFile] it falls back to) comes after the hash of that same file. *)
Definition hashed_before_moved (ops : list Op) : Prop :=
  ∀ j before after,
    (ops !! j = Some (OpRename before after) ∨ ops !! j = Some (OpCopy before after)) →
    ∃ i, (i < j)%nat ∧ ops !! i = Some (OpHash before).





(** The route whose staged file a move task has already hashed. *)
Definition hashed (s : MoveState) : option CreatedPath :=
  match s with
  | AwaitHash _ => None
  | AwaitStat cp | AwaitRename cp | AwaitFallbackCopy cp => Some cp
  end.

(** The route a move task works on. *)
Definition move_cp (s : MoveState) : CreatedPath :=
  match s with
  | AwaitHash cp | AwaitStat cp | AwaitRename cp | AwaitFallbackCopy cp => cp
  end.

(** A call that moves a staged file. *)
Definition is_move (op : Op) : bool :=
  match op with OpRename _ _ | OpCopy _ _ => true | _ => false end.

(** What the hash, stat and move pass over [createdPaths] leaves alone: no
    file of the output directory disappears, files other than the final
    paths of the routes keep their content, the locals of staging and the
    console are not touched, and the manifest gains entries for normalised
    paths of the routes only. *)
Definition move_frame (createdPaths : list CreatedPath) (w w' : World) : Prop :=
  (∀ q, is_Some (disk w !! q) → is_Some (disk w' !! q))
  ∧ (∀ q, q ∉ realPath <$> createdPaths → disk w' !! q = disk w !! q)
  ∧ artifacts w' = artifacts w
  ∧ bar w' = bar w
  ∧ console w' = console w
  ∧ (∀ ps, ps ∈ manifest_files w' →
       ps ∈ manifest_files w ∨ path ps ∈ normalPath <$> createdPaths).

(** What holds between two turns of the pass that started in [w0], and when
    one of its tasks has just rejected ([running] is then empty): the calls
    issued so far are calls of this pass, every move among them follows the
    hash of the same file, and every task past its hash has its hash among
    them. *)
Definition move_inv (createdPaths : list CreatedPath) (w0 : World)
    (pending : list CreatedPath) (running : list MoveState) (w : World) : Prop :=
  (∃ ops,
     trace w = trace w0 ++ ops
     ∧ Forall (λ op, is_move_op op = true) ops
     ∧ hashed_before_moved ops
     ∧ ∀ cp, cp ∈ omap hashed running → OpHash (tempPath cp) ∈ ops)
  ∧ move_frame createdPaths w0 w
  ∧ (∀ cp, cp ∈ pending → cp ∈ createdPaths)
  ∧ (∀ s, s ∈ running → move_cp s ∈ createdPaths).

(** The resumptions a suspended move task still needs, at most. *)
Definition move_left (s : MoveState) : nat :=
  match s with
  | AwaitHash _ => 4
  | AwaitStat _ => 3
  | AwaitRename _ => 2
  | AwaitFallbackCopy _ => 1
  end.

(** The calls of [export_build]: staging, the second pass, and the removal
    of the temporary directory. *)
Definition is_build_op (op : Op) : bool :=
  is_stage_op op || is_move_op op
  || match op with OpRmTree _ => true | _ => false end.

(** What [export_build] over [createdPaths] leaves alone. *)
Definition build_frame (createdPaths : list CreatedPath) (w w' : World) : Prop :=
  (∀ q, is_Some (disk w !! q) → is_Some (disk w' !! q))
  ∧ (∀ q, q ∉ realPath <$> createdPaths → disk w' !! q = disk w !! q)
  ∧ console w' = console w
  ∧ only_ops is_build_op w w'.

(** The calls of [export_finish] in incremental mode. *)
Definition is_finish_op (op : Op) : bool :=
  match op with
  | OpEnsureDir _ | OpWrite _ | OpHook _ => true
  | _ => false
  end.

(** The final paths of the routes an export selects. *)
Definition selected_realPaths (env : Env) (options : option ExportOptions)
    (routes : list Route) : list string :=
  realPath <$> (createdPath_of env <$> select_routes env options routes).

End Props.
(* ===================================================================== *)
(** ** The class [Plugins] ([src/plugins.ts])                             *)
(* ===================================================================== *)

Module Plugins.

Definition HookPostfix : string := "Hook".

(** What calling a hook method does, as far as [Plugins] can tell: the
    call throws, or it returns; what [trigger] gets back is a promise, which
    is later fulfilled or rejected.  [triggerSync] does not look at what
    the call returns.  For [trigger], a call that returns something without
    a [then] leaves the loop just as a call that throws does, with the
    [TypeError] of [triggerPromise.then]: there it is a [Throws]. *)
Inductive Behaviour :=
| Throws (err : Error)
| Fulfils
| Rejects (err : Error).

(** A plugin instance: [plugin.constructor.name], and [plugin[name]] for
    the names under which the instance has something truthy. *)
Record PluginComponent := mkPluginComponent {
  constructor_name : string;
  method : string → option Behaviour
}.

(** What the profiler and the plugins see happen, in order.  The profiler
    is not part of the class: [pod.profiler.timer(key, ...)] is the start
    of the timer [key], [timer.stop()] its stop. *)
Inductive Event {Arg : Type} :=
| TimerStart (key : string)
| TimerStop (key : string)
| Invoked (plugin : string) (methodName : string) (args : Arg).
Arguments Event : clear implicits.

(** [get(name)] *)
Definition get (name : string) (plugins : list PluginComponent)
  : option PluginComponent :=
  List.find (λ plugin, bool_decide (constructor_name plugin = name)) plugins.

(** [register(PluginClass, config)]: [created] is what
    [new PluginClass(this.pod, config)] gives. *)
Definition register (created : outcome PluginComponent)
    (plugins : list PluginComponent) : outcome unit * list PluginComponent :=
  match created with
  | Ok plugin => (Ok tt, plugins ++ [plugin])
  | Throw err => (Throw err, plugins)
  end.

Definition hook_key (hookName : string) : string :=
  "plugins.hook." +:+ hookName.

Definition plugin_key (hookName : string) (plugin : PluginComponent) : string :=
  "plugins.hook." +:+ hookName +:+ "." +:+ constructor_name plugin.

Definition eventMethodName (hookName : string) : string :=
  hookName +:+ HookPostfix.

Section WithArg.

Context {Arg : Type}.

(** The two events at the start of a call: the timer of the plugin, then
    the call itself. *)
Definition calling (hookName : string) (args : Arg) (plugin : PluginComponent)
  : list (Event Arg) :=
  [TimerStart (plugin_key hookName plugin);
   Invoked (constructor_name plugin) (eventMethodName hookName) args].

(** *** [triggerSync] *)

(** The [for] loop of [triggerSync]: the inner [try]/[finally] stops the
    timer of the plugin whether or not the call throws. *)
Fixpoint triggerSync_loop (hookName : string) (args : Arg)
    (plugins : list PluginComponent) (log : list (Event Arg))
  : outcome unit * list (Event Arg) :=
  match plugins with
  | [] => (Ok tt, log)
  | plugin :: rest =>
      match method plugin (eventMethodName hookName) with
      | Some behaviour =>
          let log := log ++ calling hookName args plugin in
          let log := log ++ [TimerStop (plugin_key hookName plugin)] in
          match behaviour with
          | Throws err => (Throw err, log)
          | Fulfils | Rejects _ => triggerSync_loop hookName args rest log
          end
      | None => triggerSync_loop hookName args rest log
      end
  end.

Definition triggerSync (hookName : string) (args : Arg)
    (plugins : list PluginComponent) (log : list (Event Arg))
  : outcome unit * list (Event Arg) :=
  match triggerSync_loop hookName args plugins
          (log ++ [TimerStart (hook_key hookName)]) with
  | (r, log) => (r, log ++ [TimerStop (hook_key hookName)])
  end.

(** *** [trigger] *)

(** A promise a hook has returned, with the timer that its [then]
    callback stops. *)
Record Triggered := mkTriggered {
  triggered_timer : string;
  triggered_result : outcome unit
}.

(** The promise has been, or will be, fulfilled. *)
Definition fulfilled (p : Triggered) : bool :=
  match triggered_result p with Ok _ => true | Throw _ => false end.

(** The [for] loop of [trigger]: every hook is called and its promise kept;
    a call that throws leaves the loop at once, with the promises kept so
    far. *)
Fixpoint trigger_loop (hookName : string) (args : Arg)
    (plugins : list PluginComponent) (triggerPromises : list Triggered)
    (log : list (Event Arg))
  : outcome unit * list Triggered * list (Event Arg) :=
  match plugins with
  | [] => (Ok tt, triggerPromises, log)
  | plugin :: rest =>
      match method plugin (eventMethodName hookName) with
      | Some behaviour =>
          let log := log ++ calling hookName args plugin in
          let timer := plugin_key hookName plugin in
          match behaviour with
          | Throws err => (Throw err, triggerPromises, log)
          | Fulfils =>
              trigger_loop hookName args rest
                (triggerPromises ++ [mkTriggered timer (Ok tt)]) log
          | Rejects err =>
              trigger_loop hookName args rest
                (triggerPromises ++ [mkTriggered timer (Throw err)]) log
          end
      | None => trigger_loop hookName args rest triggerPromises log
      end
  end.

(** [await Promise.all(triggerPromises)] at the moment it settles: the
    outcome, the log, and the promises that have not settled by then, with
    what is left of the order in which they do. *)
Record Awaited := mkAwaited {
  awaited_outcome : outcome unit;
  awaited_log : list (Event Arg);
  still_pending : list Triggered;
  awaited_order : list nat
}.

(** The promises settle one after the other, in the order [order] gives
    (the head picks among those still pending).  A promise that is
    fulfilled runs its [then] callback, which stops the timer; the first
    promise that is rejected rejects the whole.  Each turn settles one
    promise, so [List.length triggerPromises] turns are enough. *)
Fixpoint promise_all (turns : nat) (pending : list Triggered)
    (order : list nat) (log : list (Event Arg)) : Awaited :=
  match pending with
  | [] => mkAwaited (Ok tt) log [] order
  | _ :: _ =>
      match turns with
      | O => mkAwaited (Throw (Raised "the promises never settle")) log
               pending order
      | S turns =>
          let k := Nat.modulo (hd O order) (List.length pending) in
          match pending !! k with
          | Some p =>
              match triggered_result p with
              | Ok _ =>
                  promise_all turns (delete k pending) (tail order)
                    (log ++ [TimerStop (triggered_timer p)])
              | Throw err =>
                  mkAwaited (Throw err) log (delete k pending) (tail order)
              end
          | None =>
              mkAwaited (Throw (Raised "the promises never settle")) log
                pending order
          end
      end
  end.

(** What the promises that are still pending when [trigger] settles do
    later: each settles in its turn, and one that is fulfilled runs its
    [then] callback, which stops the timer; nobody waits for them. *)
Fixpoint afterwards (turns : nat) (pending : list Triggered) (order : list nat)
  : list (Event Arg) :=
  match turns, pending with
  | S turns, _ :: _ =>
      let k := Nat.modulo (hd O order) (List.length pending) in
      match pending !! k with
      | Some p =>
          (if fulfilled p then [TimerStop (triggered_timer p)] else [])
          ++ afterwards turns (delete k pending) (tail order)
      | None => []
      end
  | _, _ => []
  end.

(** A call of [trigger]: how its promise settles, the log at that moment,
    and the events that follow, which the caller does not wait for. *)
Record Triggering := mkTriggering {
  trigger_outcome : outcome unit;
  trigger_log : list (Event Arg);
  trigger_later : list (Event Arg)
}.

(** [async trigger(hookName, ...args)].  The [finally] block stops the
    timer of the hook when [Promise.all] settles, and at once when a call
    throws: no promise collected before the throw has run its [then]
    callback by then. *)
Definition trigger (hookName : string) (args : Arg) (order : list nat)
    (plugins : list PluginComponent) (log : list (Event Arg)) : Triggering :=
  let log := log ++ [TimerStart (hook_key hookName)] in
  match trigger_loop hookName args plugins [] log with
  | (Ok _, triggerPromises, log) =>
      let a := promise_all (List.length triggerPromises) triggerPromises order log in
      mkTriggering (awaited_outcome a)
        (awaited_log a ++ [TimerStop (hook_key hookName)])
        (afterwards (List.length (still_pending a)) (still_pending a)
           (awaited_order a))
  | (Throw err, triggerPromises, log) =>
      mkTriggering (Throw err)
        (log ++ [TimerStop (hook_key hookName)])
        (afterwards (List.length triggerPromises) triggerPromises order)
  end.

(** *** Vocabulary *)

(** The plugins that have the hook. *)
Definition hooked (hookName : string) (plugins : list PluginComponent)
  : list PluginComponent :=
  List.filter
    (λ plugin,
       match method plugin (eventMethodName hookName) with
       | Some _ => true
       | None => false
       end)
    plugins.

Definition throws (hookName : string) (plugin : PluginComponent) : option Error :=
  match method plugin (eventMethodName hookName) with
  | Some (Throws err) => Some err
  | _ => None
  end.

(** The plugins up to and including the first one whose hook throws. *)
Fixpoint through_first_throw (hookName : string)
    (plugins : list PluginComponent) : list PluginComponent :=
  match plugins with
  | [] => []
  | plugin :: rest =>
      match throws hookName plugin with
      | Some _ => [plugin]
      | None => plugin :: through_first_throw hookName rest
      end
  end.

(** What the first hook that throws throws. *)
Fixpoint first_throw (hookName : string) (plugins : list PluginComponent)
  : option Error :=
  match plugins with
  | [] => None
  | plugin :: rest =>
      match throws hookName plugin with
      | Some err => Some err
      | None => first_throw hookName rest
      end
  end.

(** The events of a whole synchronous call. *)
Definition called (hookName : string) (args : Arg) (plugin : PluginComponent)
  : list (Event Arg) :=
  calling hookName args plugin ++ [TimerStop (plugin_key hookName plugin)].

Definition fulfils (hookName : string) (plugin : PluginComponent) : bool :=
  match method plugin (eventMethodName hookName) with
  | Some Fulfils => true
  | _ => false
  end.

(** The promise that [trigger] keeps for a plugin whose hook call
    returns. *)
Definition to_triggered (hookName : string) (plugin : PluginComponent)
  : Triggered :=
  mkTriggered (plugin_key hookName plugin)
    match method plugin (eventMethodName hookName) with
    | Some (Rejects err) => Throw err
    | _ => Ok tt
    end.

(** The call of the hook returns a promise. *)
Definition returns (hookName : string) (plugin : PluginComponent) : bool :=
  match method plugin (eventMethodName hookName) with
  | Some Fulfils | Some (Rejects _) => true
  | _ => false
  end.

Definition is_invoked (e : Event Arg) : bool :=
  match e with Invoked _ _ _ => true | _ => false end.

Definition is_stop (e : Event Arg) : bool :=
  match e with TimerStop _ => true | _ => false end.

End WithArg.

Arguments Awaited : clear implicits.
Arguments Triggering : clear implicits.

End Plugins.

(* ===================================================================== *)
(** ** The file-system helpers of [Builder], on a tree of directories     *)
(* ===================================================================== *)

(** The builder above works on files by their absolute path and leaves
    directories to [ensureDirectoryExists].  Here the helpers that create,
    move and remove directories are read against a file system that has
    them: an entry is a file or a directory, and a path is the list of names
    from the root, so that [fsPath.join(path, name)] is [path ++ [name]] and
    [fsPath.dirname(path)] is the path without its last name.  There are no
    symbolic links and no permissions, and nothing else touches the files
    while a helper runs. *)

Module Fs.

Inductive Entry :=
| File (content : string)
| Directory.

Global Instance Entry_eq_dec : EqDecision Entry.
Proof. solve_decision. Defined.

Notation Files := (gmap (list string) Entry).

Definition FsM (A : Type) : Type := Files → outcome A * Files.

Definition ENOTDIR : Error := SystemError (-20) "ENOTDIR".
Definition EISDIR : Error := SystemError (-21) "EISDIR".
Definition ENOTEMPTY : Error := SystemError (-39) "ENOTEMPTY".
Definition EBUSY : Error := SystemError (-16) "EBUSY".
Definition RangeError : Error := Raised "Maximum call stack size exceeded".

Global Instance fs_ret : MRet FsM := λ A a fs, (Ok a, fs).

Global Instance fs_bind : MBind FsM := λ A B k m fs,
  match m fs with
  | (Ok a, fs') => k a fs'
  | (Throw err, fs') => (Throw err, fs')
  end.

Definition fail {A} (err : Error) : FsM A := λ fs, (Throw err, fs).

(** [promise.catch(handler)] *)
Definition catch {A} (body : FsM A) (handler : Error → FsM A) : FsM A :=
  λ fs, match body fs with
        | (Ok a, fs') => (Ok a, fs')
        | (Throw err, fs') => handler err fs'
        end.

(** [names.forEach(f)] *)
Fixpoint forEach {A} (f : A → FsM unit) (items : list A) : FsM unit :=
  match items with
  | [] => mret tt
  | x :: rest => f x ;; forEach f rest
  end.

Definition dirname (path : list string) : list string := removelast path.

(** *** Node's [fs] *)

(** [fs.existsSync(path)] *)
Definition existsSync (path : list string) : FsM bool :=
  λ fs, (Ok (bool_decide (is_Some (fs !! path))), fs).

(** The name under which [q] is an entry of the directory [dir], if it is
    one. *)
Definition child_name (dir q : list string) : option string :=
  if decide (take (List.length dir) q = dir)
  then match drop (List.length dir) q with
       | [name] => Some name
       | _ => None
       end
  else None.

Definition children (dir : list string) (fs : Files) : list string :=
  omap (λ entry, child_name dir entry.1) (map_to_list fs).

(** [fs.readdirSync(path)] *)
Definition readdirSync (path : list string) : FsM (list string) :=
  λ fs, match fs !! path with
        | Some Directory => (Ok (children path fs), fs)
        | Some (File _) => (Throw ENOTDIR, fs)
        | None => (Throw ENOENT, fs)
        end.

(** [fs.lstatSync(path).isDirectory()] *)
Definition lstatSync_isDirectory (path : list string) : FsM bool :=
  λ fs, match fs !! path with
        | Some Directory => (Ok true, fs)
        | Some (File _) => (Ok false, fs)
        | None => (Throw ENOENT, fs)
        end.

(** [fs.unlinkSync(path)] *)
Definition unlinkSync (path : list string) : FsM unit :=
  λ fs, match fs !! path with
        | Some (File _) => (Ok tt, delete path fs)
        | Some Directory => (Throw EISDIR, fs)
        | None => (Throw ENOENT, fs)
        end.

(** [fs.rmdirSync(path)]: of an empty directory other than the root. *)
Definition rmdirSync (path : list string) : FsM unit :=
  λ fs, match fs !! path with
        | Some Directory =>
            match path, children path fs with
            | [], _ => (Throw EBUSY, fs)
            | _ :: _, [] => (Ok tt, delete path fs)
            | _ :: _, _ :: _ => (Throw ENOTEMPTY, fs)
            end
        | Some (File _) => (Throw ENOTDIR, fs)
        | None => (Throw ENOENT, fs)
        end.

(** [fs.mkdirSync(path, {recursive: true})]: from the root down, every
    directory on the way that is missing is created; a file on the way is an
    error.  [here] is the directory reached, [below] the names still to go. *)
Fixpoint mkdir_from (here below : list string) (fs : Files)
  : outcome unit * Files :=
  match fs !! here with
  | Some (File _) => (Throw ENOTDIR, fs)
  | _ =>
      let fs := <[here := Directory]> fs in
      match below with
      | [] => (Ok tt, fs)
      | name :: below => mkdir_from (here ++ [name]) below fs
      end
  end.

Definition mkdirSync_recursive (path : list string) : FsM unit :=
  mkdir_from [] path.

(** The completion of [fs.promises.writeFile(path, content)] *)
Definition writeFile (path : list string) (content : string) : FsM unit :=
  λ fs, match path with
        | [] => (Throw EISDIR, fs)
        | _ :: _ =>
            match fs !! dirname path with
            | Some Directory =>
                match fs !! path with
                | Some Directory => (Throw EISDIR, fs)
                | _ => (Ok tt, <[path := File content]> fs)
                end
            | Some (File _) => (Throw ENOTDIR, fs)
            | None => (Throw ENOENT, fs)
            end
        end.

(** The completion of [fs.promises.copyFile(src, dest)] *)
Definition copyFile (src dest : list string) : FsM unit :=
  λ fs, match fs !! src with
        | Some (File content) => writeFile dest content fs
        | Some Directory => (Throw EISDIR, fs)
        | None => (Throw ENOENT, fs)
        end.

(** The completion of [fs.promises.rename(before, after)] for a file;
    [crossDevice] says that the two paths are on different devices.  The
    builder renames the files it has staged and nothing else: the rename of
    a directory is not described, and is answered with an error of its
    own. *)
Definition rename (crossDevice : bool) (before after : list string) : FsM unit :=
  λ fs, match fs !! before with
        | Some (File content) =>
            if crossDevice then (Throw EXDEV, fs)
            else
              match after with
              | [] => (Throw EISDIR, fs)
              | _ :: _ =>
                  match fs !! dirname after with
                  | Some Directory =>
                      match fs !! after with
                      | Some Directory => (Throw EISDIR, fs)
                      | _ => (Ok tt, <[after := File content]> (delete before fs))
                      end
                  | Some (File _) => (Throw ENOTDIR, fs)
                  | None => (Throw ENOENT, fs)
                  end
              end
        | Some Directory => (Throw (Raised "the rename of a directory"), fs)
        | None => (Throw ENOENT, fs)
        end.

(** *** The helpers of [Builder] *)

(** [static ensureDirectoryExists(path)] *)
Definition ensureDirectoryExists (path : list string) : FsM unit :=
  let dirPath := dirname path in
  found ← existsSync dirPath;
  if negb found then mkdirSync_recursive dirPath else mret tt.

(** [writeFileAsync(outputPath, content)], once the promise has settled. *)
Definition writeFileAsync (outputPath : list string) (content : string)
  : FsM unit :=
  ensureDirectoryExists outputPath ;;
  writeFile outputPath content.

(** [copyFileAsync(outputPath, podPath)], once the promise has settled;
    [source] is [this.pod.getAbsoluteFilePath(podPath)]. *)
Definition copyFileAsync (outputPath source : list string) : FsM unit :=
  ensureDirectoryExists outputPath ;;
  copyFile source outputPath.

(** [moveFileAsync(beforePath, afterPath)], once the promise has settled. *)
Definition moveFileAsync (crossDevice : bool) (beforePath afterPath : list string)
  : FsM unit :=
  ensureDirectoryExists afterPath ;;
  catch (rename crossDevice beforePath afterPath)
    (λ err, if bool_decide (code_of err = Some "EXDEV")
            then copyFile beforePath afterPath
            else fail err).

(** [deleteDirectoryRecursive(path)].  [depth] is the room left on the call
    stack: a tree deeper than that ends in a [RangeError]. *)
Fixpoint deleteDirectoryRecursive (depth : nat) (path : list string) : FsM unit :=
  match depth with
  | O => fail RangeError
  | S depth =>
      found ← existsSync path;
      if found : bool then
        filePaths ← readdirSync path;
        forEach
          (λ filePath,
             let curPath := path ++ [filePath] in
             isDirectory ← lstatSync_isDirectory curPath;
             if isDirectory : bool
             then deleteDirectoryRecursive depth curPath
             else unlinkSync curPath)
          filePaths ;;
        rmdirSync path
      else mret tt
  end.

(** *** Vocabulary *)

(** Every entry but the root sits in a directory. *)
Definition well_formed (fs : Files) : Prop :=
  ∀ path name, is_Some (fs !! (path ++ [name])) → fs !! path = Some Directory.

(** No entry at or below [path] is [depth] or more names below it. *)
Definition shallower (depth : nat) (path : list string) (fs : Files) : Prop :=
  ∀ q, is_Some (fs !! q) → path `prefix_of` q →
       (List.length q < List.length path + depth)%nat.

(** [fs] without the entries at or below [path]. *)
Definition without (path : list string) (fs fs' : Files) : Prop :=
  ∀ q, fs' !! q = if decide (path `prefix_of` q) then None else fs !! q.

(** The directories from [here] down to [here ++ below]. *)
Fixpoint chain (here below : list string) : list (list string) :=
  here :: match below with
          | [] => []
          | name :: below => chain (here ++ [name]) below
          end.

(** A small tree: [/tmp/build] with a page, a stylesheet in a directory of
    its own, and a file next to the tree. *)
Definition demo : Files :=
  list_to_map
    [([], Directory);
     (["tmp"], Directory);
     (["tmp"; "build"], Directory);
     (["tmp"; "build"; "index.html"], File "hello");
     (["tmp"; "build"; "static"], Directory);
     (["tmp"; "build"; "static"; "app.css"], File "body {}");
     (["tmp"; "notes.txt"], File "keep")].

End Fs.

(* ===================================================================== *)
(** ** Vocabulary for what a build produces                               *)
(* ===================================================================== *)

Module Laws.
Import Builder Props.

(** [absOutputPath] in [deleteOutputFiles]: where an output path of a
    manifest is on disk. *)
Definition absOutputPath (env : Env) (outputPath : string) : string :=
  getAbsoluteFilePath env (join env [outputDirectoryPodPath; outputPath]).

(** The sum of a list of numbers. *)
Definition total (l : list Z) : Z := foldr Z.add 0 l.

(** [route.provider.type === 'staticDir'] *)
Definition is_static (r : Route) : bool :=
  bool_decide (provider_type r = "staticDir").

(** The output path of a route. *)
Definition outputPath_of (r : Route) : string := Path.normalizePath (urlPath r).

(** What the action of a route leaves in its staged file: a copy of the
    source file of a static route, the content that [route.build()]
    resolves with for any other route.  [files] is the disk as the export
    finds it.  [None]: the source is missing, or the build throws. *)
Definition output_of (env : Env) (files : gmap string string)
    (cp : CreatedPath) : option string :=
  if is_staticDir cp
  then files !! getAbsoluteFilePath env (staticFile_podPath (route cp))
  else match build (route cp) with
       | Ok content => Some content
       | Throw _ => None
       end.

Definition content_of (env : Env) (files : gmap string string)
    (cp : CreatedPath) : string :=
  default "" (output_of env files cp).

(** The entry of the manifest for a route: its normalised path and the
    digest of its output. *)
Definition entry_of (env : Env) (files : gmap string string)
    (cp : CreatedPath) : PodPathSha :=
  {| path := normalPath cp; sha := sha1_hex env (content_of env files cp) |}.

(** The size of the output of each of the routes, added up. *)
Definition output_size (env : Env) (files : gmap string string)
    (cps : list CreatedPath) : Z :=
  Z.of_nat (sum_list_with (λ cp, String.length (content_of env files cp)) cps).

Definition static_routes (cps : list CreatedPath) : list CreatedPath :=
  filter (λ cp, is_staticDir cp = true) cps.

Definition document_routes (cps : list CreatedPath) : list CreatedPath :=
  filter (λ cp, is_staticDir cp = false) cps.

(** The staged file of a route holds the output of the route. *)
Definition staged (env : Env) (files : gmap string string) (w : World)
    (cp : CreatedPath) : Prop :=
  is_Some (output_of env files cp)
  ∧ staging w !! tempPath cp = output_of env files cp.

(** Between two turns of a staging pass in which no task has rejected: every
    route that is neither pending nor in flight has its output staged. *)
Definition staged_inv (env : Env) (createdPaths : list CreatedPath) (w0 : World)
    (pending : list CreatedPath) (running : list StageState) (w : World) : Prop :=
  disk w = disk w0
  ∧ (∀ s, s ∈ running → state_ok env s ∧ stage_cp s ∈ createdPaths)
  ∧ (∀ cp, cp ∈ pending → cp ∈ createdPaths)
  ∧ (∀ cp, cp ∈ createdPaths →
       cp ∈ pending ∨ cp ∈ stage_cp <$> running ∨ staged env (disk w0) w cp).

(** The route whose staged file a move task has already measured. *)
Definition measured (s : MoveState) : option CreatedPath :=
  match s with
  | AwaitHash _ | AwaitStat _ => None
  | AwaitRename cp | AwaitFallbackCopy cp => Some cp
  end.

(** Between two turns of the second pass, when no task has rejected, as far
    as numbers go: the routes are the finished ones, the ones in flight and
    the pending ones; the manifest has gained an entry for each route that
    is past its hash; the metrics count each route that is past its [stat];
    the second progress bar, if shown, counts the finished routes. *)
Definition count_inv (showMoveProgressBar : bool)
    (createdPaths : list CreatedPath) (w0 : World)
    (pending : list CreatedPath) (running : list MoveState) (w : World) : Prop :=
  ∃ finished,
    finished ++ (move_cp <$> running) ++ pending ≡ₚ createdPaths
    ∧ (∃ l, manifest_files w = manifest_files w0 ++ l
            ∧ path <$> l ≡ₚ normalPath <$> (finished ++ omap hashed running))
    ∧ numStaticRoutes (buildMetrics w)
      = numStaticRoutes (buildMetrics w0)
        + Z.of_nat (List.length (static_routes (finished ++ omap measured running)))
    ∧ numDocumentRoutes (buildMetrics w)
      = numDocumentRoutes (buildMetrics w0)
        + Z.of_nat (List.length (document_routes (finished ++ omap measured running)))
    ∧ memoryUsage (buildMetrics w) = memoryUsage (buildMetrics w0)
    ∧ numMissingTranslations (buildMetrics w)
      = numMissingTranslations (buildMetrics w0)
    ∧ moveBar w
      = (moveBar w0 + if showMoveProgressBar then List.length finished else 0)%nat
    ∧ artifacts w = artifacts w0 ∧ bar w = bar w0.

(** The same, as far as contents go: the staged file of every route that is
    pending or in flight holds the output of the route; the final path of
    every finished route holds it; the manifest has the digest of the output
    of every route that is past its hash; the metrics have the size of the
    output of every route that is past its [stat]. *)
Definition content_inv (env : Env) (files : gmap string string)
    (createdPaths : list CreatedPath) (w0 : World)
    (pending : list CreatedPath) (running : list MoveState) (w : World) : Prop :=
  ∃ finished,
    finished ++ (move_cp <$> running) ++ pending ≡ₚ createdPaths
    ∧ (∀ cp, cp ∈ (move_cp <$> running) ++ pending → staged env files w cp)
    ∧ (∀ cp, cp ∈ finished →
         is_Some (output_of env files cp)
         ∧ disk w !! realPath cp = output_of env files cp)
    ∧ (∃ l, manifest_files w = manifest_files w0 ++ l
            ∧ l ≡ₚ entry_of env files <$> (finished ++ omap hashed running))
    ∧ outputSizeStaticFiles (buildMetrics w)
      = outputSizeStaticFiles (buildMetrics w0)
        + output_size env files (static_routes (finished ++ omap measured running))
    ∧ outputSizeDocuments (buildMetrics w)
      = outputSizeDocuments (buildMetrics w0)
        + output_size env files (document_routes (finished ++ omap measured running)).

(** The calls of an export other than the plugin hooks. *)
Definition is_not_hook (op : Op) : bool :=
  match op with OpHook _ => false | _ => true end.

(** The calls that remove the temporary directory. *)
Definition is_rmtree (op : Op) : bool :=
  match op with OpRmTree _ => true | _ => false end.

End Laws.


(* ===================================================================== *)
(** ** What a run leaves behind when it rejects                           *)
(* ===================================================================== *)

(** [async.eachLimit] settles with the first rejection: it starts no
    further item and does not look at the tasks in flight any more.  These
    tasks are not cancelled: each goes on as its pending operation
    completes, [finally] blocks included, until it has resolved or
    rejected. *)

Module Settled.
Section Limit.

Context {T S : Type}.

Variable iteratee_start : T → M (S + unit).
Variable iteratee_resume : S → M (S + unit).
Variable limit : nat.

(** A run at the moment it settles: the outcome and the world as
    [Async.run] gives them, the items that were never started, the tasks
    still in flight, and what is left of the completion order. *)
Record Settlement := mkSettlement {
  settled_outcome : outcome unit;
  settled_world : World;
  not_started : list T;
  in_flight : list S;
  order_left : list nat
}.

(** [Async.run], turn for turn, keeping what a rejection leaves behind. *)
Fixpoint run (fuel : nat) (pending : list T) (running : list S)
    (order : list nat) (w : World) : option Settlement :=
  match fuel with
  | O => None
  | Datatypes.S fuel =>
      match (if Nat.ltb (List.length running) limit then pending else []) with
      | t :: _ =>
          match iteratee_start t w with
          | (Ok (inl s), w') => run fuel (tail pending) (running ++ [s]) order w'
          | (Ok (inr _), w') => run fuel (tail pending) running order w'
          | (Throw err, w') =>
              Some (mkSettlement (Throw err) w' (tail pending) running order)
          end
      | [] =>
          match running with
          | [] => match pending with
                  | [] => Some (mkSettlement (Ok tt) w [] [] order)
                  | _ :: _ => None
                  end
          | _ :: _ =>
              let k := Nat.modulo (hd O order) (List.length running) in
              match running !! k with
              | Some s =>
                  match iteratee_resume s w with
                  | (Ok (inl s'), w') =>
                      run fuel pending (<[k := s']> running) (tail order) w'
                  | (Ok (inr _), w') =>
                      run fuel pending (delete k running) (tail order) w'
                  | (Throw err, w') =>
                      Some (mkSettlement (Throw err) w' pending (delete k running)
                              (tail order))
                  end
              | None => None
              end
          end
      end
  end.

(** The tasks in flight after the run has settled: the one picked by the
    head of [order] is resumed; a task that resolves or rejects is done,
    and nobody looks at its outcome.  [None]: some task is still in flight
    after [fuel] turns. *)
Fixpoint drain (fuel : nat) (running : list S) (order : list nat) (w : World)
  : option World :=
  match running with
  | [] => Some w
  | _ :: _ =>
      match fuel with
      | O => None
      | Datatypes.S fuel =>
          let k := Nat.modulo (hd O order) (List.length running) in
          match running !! k with
          | Some s =>
              match iteratee_resume s w with
              | (Ok (inl s'), w') =>
                  drain fuel (<[k := s']> running) (tail order) w'
              | (_, w') => drain fuel (delete k running) (tail order) w'
              end
          | None => None
          end
      end
  end.

End Limit.

Arguments Settlement : clear implicits.
Arguments mkSettlement {T S}.
Arguments settled_outcome {T S}.
Arguments settled_world {T S}.
Arguments not_started {T S}.
Arguments in_flight {T S}.
Arguments order_left {T S}.

End Settled.

(* ===================================================================== *)
(** ** Vocabulary: the steps of [export] that can fail early              *)
(* ===================================================================== *)

Module Steps.
Import Builder Props.

(** The error of a file-system call that the run makes fail. *)
Definition io_error (env : Env) (op : Op) : option Error :=
  match io_fails env op with
  | Some (n, c) => Some (SystemError n c)
  | None => None
  end.


(** What reading the previous manifest raises, if it raises: the file is
    there and cannot be read, or its content does not parse. *)
Definition manifest_error (env : Env) (files : gmap string string)
  : option Error :=
  let p := getAbsoluteFilePath env (manifestPodPath env) in
  match files !! p with
  | Some content =>
      match io_error env (OpRead p) with
      | Some err => Some err
      | None =>
          match JSON_parse env content with
          | Throw err => Some err
          | Ok _ => None
          end
      end
  | None => None
  end.

(** The first of the steps of [export] before it looks at its routes that
    fails, with what it raises: the [beforeBuild] hook, reading the
    previous manifest, [fs.mkdtempSync] and [pod.router.routes()]. *)
Definition prelude_error (env : Env) (files : gmap string string)
  : option Error :=
  match hook_fails env "beforeBuild" with
  | Some what => Some (Raised what)
  | None =>
      match manifest_error env files with
      | Some err => Some err
      | None =>
          match io_error env (OpMkdtemp (tempDirRoot env)) with
          | Some err => Some err
          | None =>
              match router_routes env with
              | Throw err => Some err
              | Ok _ => None
              end
          end
      end
  end.

(** The calls of those steps when none of them fails. *)
Definition prelude_calls (env : Env) (files : gmap string string) : list Op :=
  let p := getAbsoluteFilePath env (manifestPodPath env) in
  [OpHook "beforeBuild"; OpExists p]
  ++ (if bool_decide (is_Some (files !! p)) then [OpRead p] else [])
  ++ [OpMkdtemp (tempDirRoot env)].

(** The staging pass of [export] at the moment it settles. *)
Definition stage_settled (env : Env) (createdPaths : list CreatedPath)
    (order : list nat) (w : World)
  : option (Settled.Settlement CreatedPath StageState) :=
  Settled.run (stage_start env) (stage_resume env) NumConcurrentBuilds
    (Async.turns 2 createdPaths) createdPaths [] order w.

(** The staging tasks still in flight after the pass has settled; none
    needs more than two resumptions. *)
Definition stage_drain (env : Env) (running : list StageState)
    (order : list nat) (w : World) : option World :=
  Settled.drain (stage_resume env) (2 * List.length running) running order w.



End Steps.

(* ===================================================================== *)
(** ** More pods to run the builder on                                    *)
(* ===================================================================== *)

Module Cases.

(** The pod of [Demo.env] with a [beforeBuild] hook that throws. *)
Definition hook_refuses (routes : list Route) : Env :=
  {| pod_root := "/pod";
     getAbsoluteFilePath := Demo.absolute;
     join := Demo.join_paths;
     dirname := Demo.parent;
     tempDirRoot := "/tmp/amagaki-build-a1b2c3";
     router_routes := Ok routes;
     minimatch := Demo.glob;
     sha1_hex := λ content, "sha1:" +:+ content;
     JSON_parse := Demo.parse_manifest;
     stringify_manifest := Demo.print_manifest;
     stringify_metrics := Demo.print_metrics;
     built_date := "Mon Jan 01 2024";
     heapUsed := 1000;
     cache_locales := [];
     hook_fails := λ hookName,
       if bool_decide (hookName = "beforeBuild")
       then Some "the hook refuses" else None;
     io_fails := Demo.no_failure;
     build_completion_order := [];
     move_completion_order := [] |}.

(** A page whose URL is the path of the manifest in the output
    directory. *)
Definition manifest_page : Route :=
  {| podPath := Some "/content/manifest.md";
     urlPath := "/.amagaki/manifest.json";
     provider_type := "collection"; staticFile_podPath := "";
     build := Ok "not a manifest" |}.

(** The staged home page cannot be hashed. *)
Definition hash_fails : Op → option (Z * string) :=
  λ op, if bool_decide (op = OpHash "/tmp/amagaki-build-a1b2c3/build/index.html")
        then Some (-5, "EIO") else None.

End Cases.
(* ===================================================================== *)
(** ** Facts about strings                                                *)
(* ===================================================================== *)

Module StrFacts.
Import Str.

Lemma chars_app (a b : string) : chars (a +:+ b) = chars a ++ chars b.
Proof.
  unfold chars. induction a as [|c a IH]; [reflexivity|].
  change (String c a +:+ b) with (String c (a +:+ b)). cbn. by rewrite IH.
Qed.

Lemma of_chars_chars (s : string) : of_chars (chars s) = s.
Proof. apply string_of_list_ascii_of_string. Qed.

Lemma chars_inj (a b : string) : chars a = chars b → a = b.
Proof.
  intros H. rewrite <- (of_chars_chars a), <- (of_chars_chars b). by rewrite H.
Qed.

Lemma chars_length (s : string) : List.length (chars s) = String.length s.
Proof. unfold chars. induction s as [|c s IH]; cbn; [done| by rewrite IH]. Qed.

Lemma app_assoc (a b c : string) : (a +:+ b) +:+ c = a +:+ (b +:+ c).
Proof. apply chars_inj. rewrite !chars_app. by rewrite <- List.app_assoc. Qed.

Lemma truthy_false (s : string) : truthy s = false ↔ s = "".
Proof. destruct s; cbn; split; congruence. Qed.

Lemma truthy_true (s : string) : truthy s = true ↔ s ≠ "".
Proof. destruct s; cbn; split; congruence. Qed.

(** Reading a window that lies inside the right operand of an append. *)
Lemma substring_app_r (a b : string) (n m : nat) :
  String.substring (String.length a + n) m (a +:+ b) = String.substring n m b.
Proof.
  induction a as [|c a IH]; [reflexivity|].
  change (String c a +:+ b) with (String c (a +:+ b)). cbn. apply IH.
Qed.

(** [endsWith] agrees with its declarative reading. *)
Lemma endsWith_spec (s suffix : string) :
  endsWith s suffix = true ↔ ∃ q, s = q +:+ suffix.
Proof.
  unfold endsWith. rewrite bool_decide_eq_true. split.
  - intros H.
    exists (of_chars (reverse (drop (List.length (chars suffix))
                                    (reverse (chars s))))).
    apply chars_inj. rewrite chars_app.
    unfold of_chars, chars at 2. rewrite list_ascii_of_string_of_list_ascii.
    set (n := List.length (chars suffix)) in *.
    rewrite <- (reverse_involutive (chars s)) at 1.
    rewrite <- (take_drop n (reverse (chars s))) at 1.
    by rewrite reverse_app, H, reverse_involutive.
  - intros [q ->]. rewrite chars_app, reverse_app.
    rewrite <- (length_reverse (chars suffix)).
    by rewrite take_app_length.
Qed.

End StrFacts.

(* ===================================================================== *)
(** ** Properties of [normalizePath]                                      *)
(* ===================================================================== *)

Module PathFacts.
Import Path.

(** *** Running the definitions *)

Example extname_html : extname "/about/team.html" = ".html".
Proof. reflexivity. Qed.
Example extname_none : extname "/about/team" = "".
Proof. reflexivity. Qed.
Example extname_dotfile : extname "/about/.htaccess" = "".
Proof. reflexivity. Qed.
Example extname_dotdot : extname "/about/.." = "".
Proof. reflexivity. Qed.
Example extname_trailing_dot : extname "/about/team." = ".".
Proof. reflexivity. Qed.
Example extname_dir_slash : extname "/v1.2/" = ".2".
Proof. reflexivity. Qed.
Example extname_two_dots : extname "/a/b.tar.gz" = ".gz".
Proof. reflexivity. Qed.

Example normalizePath_dir : normalizePath "/about/" = "/about/index.html".
Proof. reflexivity. Qed.
Example normalizePath_bare : normalizePath "/about" = "/about/index.html".
Proof. reflexivity. Qed.
Example normalizePath_file : normalizePath "/static/app.css" = "/static/app.css".
Proof. reflexivity. Qed.
Example normalizePath_empty : normalizePath "" = "/index.html".
Proof. reflexivity. Qed.

Lemma scan_char_step (code : ascii) (rest : list ascii) (st : ExtScan) :
  Ascii.eqb code CHAR_FORWARD_SLASH = false →
  extname_scan (code :: rest) st
  = extname_scan rest (scan_char code (Z.of_nat (List.length rest)) st).
Proof. intros H. cbn [extname_scan]. by rewrite H. Qed.

Lemma scan_slash_break (rest : list ascii) (st : ExtScan) :
  matchedSlash st = false →
  extname_scan (CHAR_FORWARD_SLASH :: rest) st
  = {| startDot := startDot st;
       startPart := Z.of_nat (List.length rest) + 1;
       end_ := end_ st; matchedSlash := matchedSlash st;
       preDotState := preDotState st |}.
Proof. intros H. cbn [extname_scan]. by rewrite H. Qed.

Ltac ztest :=
  repeat match goal with
  | |- context [?a =? ?b] =>
      first [ rewrite (proj2 (Z.eqb_eq a b)) by lia
            | rewrite (proj2 (Z.eqb_neq a b)) by lia ]
  end.

Ltac scan_step :=
  rewrite scan_char_step by reflexivity;
  unfold scan_char;
  cbn [startDot startPart end_ matchedSlash preDotState];
  ztest;
  repeat match goal with
  | |- context [Ascii.eqb ?c CHAR_DOT] =>
      let b := eval vm_compute in (Ascii.eqb c CHAR_DOT) in
      change (Ascii.eqb c CHAR_DOT) with b
  end;
  cbn [startDot startPart end_ matchedSlash preDotState negb];
  ztest;
  cbn [startDot startPart end_ matchedSlash preDotState negb].

Lemma scan_index_html (r : list ascii) :
  extname_scan (reverse (Str.chars "/index.html") ++ r) extScan0
  = {| startDot := Z.of_nat (List.length r) + 6;
       startPart := Z.of_nat (List.length r) + 1;
       end_ := Z.of_nat (List.length r) + 11;
       matchedSlash := false; preDotState := -1 |}.
Proof.
  change (reverse (Str.chars "/index.html")) with (Str.chars "lmth.xedni/").
  cbn [Str.chars list_ascii_of_string app]. unfold extScan0.
  do 10 scan_step.
  rewrite scan_slash_break by reflexivity.
  cbn [startDot startPart end_ matchedSlash preDotState List.length].
  f_equal; lia.
Qed.

Lemma extname_index_html (s : string) : extname (s +:+ "/index.html") = ".html".
Proof.
  unfold extname. rewrite StrFacts.chars_app, reverse_app, scan_index_html.
  cbn [startDot startPart end_ matchedSlash preDotState].
  ztest. cbn [orb andb]. unfold Str.slice.
  rewrite length_reverse, StrFacts.chars_length.
  replace (Z.to_nat (Z.of_nat (String.length s) + 6))
    with (String.length s + 6)%nat by lia.
  replace (Z.to_nat (Z.of_nat (String.length s) + 11 - (Z.of_nat (String.length s) + 6)))
    with 5%nat by lia.
  by rewrite StrFacts.substring_app_r.
Qed.

Lemma endsWith_slash_index_html (s : string) :
  Str.endsWith (s +:+ "/index.html") "/" = false.
Proof.
  unfold Str.endsWith. apply bool_decide_eq_false.
  rewrite StrFacts.chars_app, reverse_app.
  change (reverse (Str.chars "/index.html")) with (Str.chars "lmth.xedni/").
  cbn. discriminate.
Qed.

(** Every path that ends in [/index.html] is a fixed point. *)
Lemma normalizePath_index_html (s : string) :
  normalizePath (s +:+ "/index.html") = s +:+ "/index.html".
Proof.
  unfold normalizePath.
  by rewrite endsWith_slash_index_html, extname_index_html.
Qed.

(** C7. [normalizePath] appends [index.html] to a path that ends with
    [/]; appends [/index.html] to a path that does not end with [/] and
    has no file extension ([fsPath.extname] returns the empty string);
    and returns every other path unchanged. *)
Theorem normalizePath_cases (path : string) :
  ((∃ q, path = q +:+ "/") → normalizePath path = path +:+ "index.html")
  ∧ ((¬ ∃ q, path = q +:+ "/") → extname path = "" →
     normalizePath path = path +:+ "/index.html")
  ∧ ((¬ ∃ q, path = q +:+ "/") → extname path ≠ "" →
     normalizePath path = path).
Proof.
  unfold normalizePath. repeat split.
  - intros Hq. apply StrFacts.endsWith_spec in Hq. by rewrite Hq.
  - intros Hq He.
    destruct (Str.endsWith path "/") eqn:E.
    + apply StrFacts.endsWith_spec in E. contradiction.
    + by rewrite He.
  - intros Hq He.
    destruct (Str.endsWith path "/") eqn:E.
    + apply StrFacts.endsWith_spec in E. contradiction.
    + apply StrFacts.truthy_true in He. by rewrite He.
Qed.

Lemma normalizePath_cases_witness :
  normalizePath "/about/" = "/about/index.html"
  ∧ normalizePath "/about" = "/about/index.html"
  ∧ normalizePath "/static/app.css" = "/static/app.css".
Proof.
  split; [|split].
  - apply (proj1 (normalizePath_cases "/about/")). by exists "/about".
  - apply (proj1 (proj2 (normalizePath_cases "/about"))).
    + intros Hq. apply StrFacts.endsWith_spec in Hq. discriminate Hq.
    + reflexivity.
  - apply (proj2 (proj2 (normalizePath_cases "/static/app.css"))).
    + intros Hq. apply StrFacts.endsWith_spec in Hq. discriminate Hq.
    + discriminate.
Defined.

(** C8. [normalizePath] is idempotent. *)
Theorem normalizePath_idempotent (p : string) :
  normalizePath (normalizePath p) = normalizePath p.
Proof.
  unfold normalizePath at 2 3.
  destruct (Str.endsWith p "/") eqn:E.
  - apply StrFacts.endsWith_spec in E as [q ->].
    rewrite StrFacts.app_assoc.
    change ("/" +:+ "index.html") with "/index.html".
    apply normalizePath_index_html.
  - destruct (Str.truthy (extname p)) eqn:T.
    + unfold normalizePath. by rewrite E, T.
    + apply normalizePath_index_html.
Qed.

(** *** Normalised paths contain a dot *)

Lemma scan_char_no_dot (code : ascii) (i : Z) (st : ExtScan) :
  Ascii.eqb code CHAR_DOT = false →
  startDot (scan_char code i st) = startDot st.
Proof.
  intros H. unfold scan_char. rewrite H.
  destruct (end_ st =? -1); cbn [startDot];
    destruct (startDot st =? -1); by cbn.
Qed.

Lemma scan_no_dot (l : list ascii) (st : ExtScan) :
  CHAR_DOT ∉ l → startDot (extname_scan l st) = startDot st.
Proof.
  revert st. induction l as [|c l IH]; intros st Hl; [done|].
  apply not_elem_of_cons in Hl as [Hc Hl]. cbn [extname_scan].
  destruct (Ascii.eqb c CHAR_FORWARD_SLASH).
  - destruct (negb (matchedSlash st)); [done|by apply IH].
  - rewrite IH by done. apply scan_char_no_dot.
    apply Ascii.eqb_neq. by intros ->.
Qed.

Lemma extname_has_dot (p : string) : extname p ≠ "" → CHAR_DOT ∈ Str.chars p.
Proof.
  intros He. destruct (decide (CHAR_DOT ∈ Str.chars p)) as [|Hno]; [done|].
  exfalso. apply He. unfold extname.
  rewrite scan_no_dot by (by rewrite elem_of_reverse). reflexivity.
Qed.

Lemma normalizePath_has_dot (p : string) : CHAR_DOT ∈ Str.chars (normalizePath p).
Proof.
  unfold normalizePath. destruct (Str.endsWith p "/").
  - rewrite StrFacts.chars_app. apply elem_of_app. right. cbn.
    do 5 right. left.
  - destruct (Str.truthy (extname p)) eqn:T.
    + apply extname_has_dot. by apply StrFacts.truthy_true.
    + rewrite StrFacts.chars_app. apply elem_of_app. right. cbn.
      do 6 right. left.
Qed.

End PathFacts.

(* ===================================================================== *)
(** ** Properties of the manifest diff                                    *)
(* ===================================================================== *)

Module DiffFacts.
Import Diff.

(** *** Running the diff *)

Example diff_first_build :
  cleanOutputUsingManifests None
    (manifest_of [mkPodPathSha "/index.html" "a1"; mkPodPathSha "/app.css" "b2"])
    None
  = {| adds := ["/index.html"; "/app.css"]; edits := [];
       noChanges := []; deletes := [] |}.
Proof. reflexivity. Qed.

Example diff_rebuild :
  cleanOutputUsingManifests
    (Some (manifest_of [mkPodPathSha "/index.html" "a1";
                        mkPodPathSha "/app.css" "b2";
                        mkPodPathSha "/old/index.html" "c3"]))
    (manifest_of [mkPodPathSha "/index.html" "a9";
                  mkPodPathSha "/app.css" "b2";
                  mkPodPathSha "/new/index.html" "d4"])
    None
  = {| adds := ["/new/index.html"]; edits := ["/index.html"];
       noChanges := ["/app.css"]; deletes := ["/old/index.html"] |}.
Proof. vm_compute. reflexivity. Qed.

(** *** The lookup objects *)

Lemma elem_of_files (fs : list PodPathSha) (k h : string) :
  mkPodPathSha k h ∈ fs ↔ ∃ ps, ps ∈ fs ∧ path ps = k ∧ sha ps = h.
Proof.
  split.
  - intros H. by exists (mkPodPathSha k h).
  - intros ([k' h'] & H & <- & <-). exact H.
Qed.

(** Own properties after the [forEach]: the ones there before, and every
    listed path but [__proto__]. *)
Lemma assign_all_is_Some (fs : list PodPathSha) (obj : gmap string string) (k : string) :
  is_Some (assign_all obj fs !! k)
  ↔ is_Some (obj !! k) ∨ (k ∈ path <$> fs ∧ k ≠ "__proto__").
Proof.
  unfold assign_all. revert obj. induction fs as [|[p s] fs IH]; intros obj; cbn.
  - split; [by left|]. intros [H|[H _]]; [done|]. by apply elem_of_nil in H.
  - rewrite IH. unfold Js.set. cbn. case_bool_decide as Hp.
    + subst p. rewrite elem_of_cons. naive_solver.
    + rewrite elem_of_cons. destruct (decide (k = p)) as [->|Hk].
      * rewrite lookup_insert_eq. naive_solver.
      * rewrite lookup_insert_ne by done. naive_solver.
Qed.

Lemma assign_all_lookup (fs : list PodPathSha) (obj : gmap string string) (k h : string) :
  NoDup (path <$> fs) →
  (∀ p, p ∈ path <$> fs → obj !! p = None) →
  assign_all obj fs !! k = Some h
  ↔ obj !! k = Some h ∨ (mkPodPathSha k h ∈ fs ∧ k ≠ "__proto__").
Proof.
  unfold assign_all. revert obj.
  induction fs as [|[p s] fs IH]; intros obj Hnd Hfresh; cbn.
  - split; [by left|]. intros [H|[H _]]; [done|]. by apply elem_of_nil in H.
  - cbn in Hnd. apply NoDup_cons in Hnd as [Hp Hnd].
    assert (Hobj : obj !! p = None) by (apply Hfresh; cbn; left).
    rewrite IH; [|done|].
    + unfold Js.set. cbn. rewrite elem_of_cons. case_bool_decide as Hproto.
      * subst p. split; [|naive_solver].
        intros [H|[H Hk]]; [by left|]. right. split; [by right|done].
      * destruct (decide (k = p)) as [->|Hk].
        -- rewrite lookup_insert_eq. rewrite Hobj. split.
           ++ intros [[= ->]|[H _]]; [right; split; [by left|done]|].
              exfalso. apply Hp. apply list_elem_of_fmap.
              by exists (mkPodPathSha p h).
           ++ intros [H|[[[= ->]|H] _]]; [done|by left|].
              exfalso. apply Hp. apply list_elem_of_fmap.
              by exists (mkPodPathSha p h).
        -- rewrite lookup_insert_ne by done. split.
           ++ intros [H|[H Hk']]; [by left|]. right. split; [by right|done].
           ++ intros [H|[[[= -> ->]|H] Hk']]; [by left|done|]. right. done.
    + intros q Hq. unfold Js.set. cbn. case_bool_decide.
      * apply Hfresh. cbn. by right.
      * rewrite lookup_insert_ne; [apply Hfresh; cbn; by right|].
        intros ->. done.
Qed.

(** Own properties of a lookup object built from scratch. *)
Lemma pathShas_is_Some (fs : list PodPathSha) (k : string) :
  is_Some (pathShas fs !! k) ↔ k ∈ path <$> fs ∧ k ≠ "__proto__".
Proof.
  unfold pathShas. rewrite assign_all_is_Some. unfold Js.empty.
  rewrite lookup_empty. split; [|by right].
  intros [H|H]; [by destruct H|done].
Qed.

Lemma pathShas_lookup (fs : list PodPathSha) (k h : string) :
  NoDup (path <$> fs) →
  pathShas fs !! k = Some h ↔ mkPodPathSha k h ∈ fs ∧ k ≠ "__proto__".
Proof.
  intros Hnd. unfold pathShas. rewrite assign_all_lookup; [|done|].
  - unfold Js.empty. rewrite lookup_empty. naive_solver.
  - intros p _. apply lookup_empty.
Qed.

Lemma inherited_proto : Js.inherited "__proto__" = true.
Proof. reflexivity. Qed.

Lemma not_inherited_not_proto (k : string) :
  Js.inherited k = false → k ≠ "__proto__".
Proof. intros H ->. by rewrite inherited_proto in H. Qed.

(** For a name that is not on the prototype, [in] on a lookup object is
    membership in the list it was built from. *)
Lemma has_pathShas (fs : list PodPathSha) (k : string) :
  Js.inherited k = false →
  Js.has k (pathShas fs) = true ↔ k ∈ path <$> fs.
Proof.
  intros Hk. unfold Js.has. rewrite Hk, orb_false_r, bool_decide_eq_true.
  rewrite pathShas_is_Some. pose proof (not_inherited_not_proto k Hk). tauto.
Qed.

(** Whatever the name, [in] answering no means the name is not listed. *)
Lemma has_pathShas_false (fs : list PodPathSha) (k : string) :
  Js.has k (pathShas fs) = false → k ∉ path <$> fs.
Proof.
  unfold Js.has. intros H. apply orb_false_iff in H as [H1 H2].
  apply bool_decide_eq_false in H1. rewrite pathShas_is_Some in H1.
  pose proof (not_inherited_not_proto k H2). tauto.
Qed.

(** [sha === obj[path]] holds exactly for a listed pair. *)
Lemma strict_eq_pathShas (fs : list PodPathSha) (k h : string) :
  NoDup (path <$> fs) → Js.inherited k = false →
  Js.strict_eq h (Js.get (pathShas fs) k) = true ↔ mkPodPathSha k h ∈ fs.
Proof.
  intros Hnd Hk. unfold Js.get, Js.strict_eq.
  pose proof (not_inherited_not_proto k Hk) as Hp.
  destruct (pathShas fs !! k) as [t|] eqn:E.
  - apply pathShas_lookup in E as [E _]; [|done].
    rewrite bool_decide_eq_true. split; [by intros ->|].
    intros Hh. 
    assert (pathShas fs !! k = Some h) as E1 by (apply pathShas_lookup; done).
    assert (pathShas fs !! k = Some t) as E2 by (apply pathShas_lookup; done).
    congruence.
  - rewrite Hk. split; [done|]. intros Hh.
    assert (pathShas fs !! k = Some h) as E1 by (apply pathShas_lookup; done).
    congruence.
Qed.

(** No name on the prototype has a dot in it, and every normalised path
    has one: the builder never meets an inherited name as an output path. *)
Lemma inherited_no_dot (k : string) :
  Js.inherited k = true → Path.CHAR_DOT ∉ Str.chars k.
Proof.
  unfold Js.inherited. rewrite bool_decide_eq_true. unfold Js.ObjectPrototype.
  intros H.
  repeat (apply elem_of_cons in H as [->|H];
          [apply (bool_decide_unpack _); vm_compute; exact I|]).
  by apply elem_of_nil in H.
Qed.

Lemma normalizePath_not_inherited (p : string) :
  Js.inherited (Path.normalizePath p) = false.
Proof.
  destruct (Js.inherited (Path.normalizePath p)) eqn:E; [|done].
  exfalso. apply inherited_no_dot in E. apply E.
  apply PathFacts.normalizePath_has_dot.
Qed.

(** *** The two loops as filters *)

Lemma classify_foldl (E : gmap string string) (l : list PodPathSha)
    (d : BuildDiffPaths) :
  foldl (classify E) d l
  = {| adds := adds d ++ (path <$> filter (λ ps, is_add E ps) l);
       edits := edits d ++ (path <$> filter (λ ps, is_edit E ps) l);
       noChanges := noChanges d ++ (path <$> filter (λ ps, is_noChange E ps) l);
       deletes := deletes d |}.
Proof.
  revert d. induction l as [|ps l IH]; intros d.
  - cbn. rewrite !app_nil_r. by destruct d.
  - cbn [foldl]. rewrite IH. unfold classify, is_add, is_edit, is_noChange.
    rewrite !filter_cons.
    destruct (Js.has (path ps) E); cbn [negb andb];
      [destruct (Js.strict_eq (sha ps) (Js.get E (path ps))); cbn [negb]|];
      repeat case_decide; try done; cbn;
      by rewrite <- ?app_assoc.
Qed.

Lemma collect_delete_foldl (Nw : gmap string string) (l : list PodPathSha)
    (d : BuildDiffPaths) :
  foldl (collect_delete Nw) d l
  = {| adds := adds d; edits := edits d; noChanges := noChanges d;
       deletes := deletes d ++ (path <$> filter (λ ps, is_delete Nw ps) l) |}.
Proof.
  revert d. induction l as [|ps l IH]; intros d.
  - cbn. rewrite app_nil_r. by destruct d.
  - cbn [foldl]. rewrite IH. unfold collect_delete, is_delete.
    rewrite filter_cons.
    destruct (Js.has (path ps) Nw); cbn [negb];
      repeat case_decide; try done; cbn;
      by rewrite <- ?app_assoc.
Qed.

(** The diff against a previous manifest, in closed form. *)
Lemma cleanOutputUsingManifests_Some (Pm N : BuildManifest)
    (options : option ExportOptions) :
  cleanOutputUsingManifests (Some Pm) N options
  = {| adds := path <$> filter (λ ps, is_add (pathShas (files Pm)) ps) (files N);
       edits := path <$> filter (λ ps, is_edit (pathShas (files Pm)) ps) (files N);
       noChanges :=
         path <$> filter (λ ps, is_noChange (pathShas (files Pm)) ps) (files N);
       deletes :=
         if patterns_truthy options then []
         else path <$> filter (λ ps, is_delete (pathShas (files N)) ps) (files Pm) |}.
Proof.
  unfold cleanOutputUsingManifests. cbv zeta.
  rewrite classify_foldl. cbn [adds edits noChanges deletes app].
  destruct (patterns_truthy options); cbn [negb]; [done|].
  by rewrite collect_delete_foldl.
Qed.

(** *** Counting *)

Lemma count_not_elem (p : string) (l : list string) :
  p ∉ l → List.length (filter (λ q, q = p) l) = 0%nat.
Proof.
  intros H. destruct (filter (λ q, q = p) l) as [|q l'] eqn:E; [done|].
  assert (q ∈ filter (λ q, q = p) l) as Hq by (rewrite E; left).
  apply list_elem_of_filter in Hq as [-> Hq]. done.
Qed.

Lemma count_NoDup (p : string) (l : list string) :
  NoDup l → p ∈ l → List.length (filter (λ q, q = p) l) = 1%nat.
Proof.
  induction l as [|x l IH]; intros Hnd Hin.
  - by apply elem_of_nil in Hin.
  - apply NoDup_cons in Hnd as [Hx Hnd]. rewrite filter_cons.
    apply elem_of_cons in Hin as [->|Hin].
    + rewrite decide_True by done. cbn. by rewrite count_not_elem.
    + rewrite decide_False by (by intros ->). by apply IH.
Qed.

Lemma count_fmap_filter (Q : PodPathSha → bool) (l : list PodPathSha)
    (ps : PodPathSha) :
  NoDup (path <$> l) → ps ∈ l →
  List.length (filter (λ q, q = path ps) (path <$> filter (λ x, Q x) l))
  = if Q ps then 1%nat else 0%nat.
Proof.
  induction l as [|x l IH]; intros Hnd Hin.
  - by apply elem_of_nil in Hin.
  - cbn in Hnd. apply NoDup_cons in Hnd as [Hx Hnd].
    apply elem_of_cons in Hin as [->|Hin].
    + assert (List.length (filter (λ q, q = path x)
                (path <$> filter (λ x0, Q x0) l)) = 0%nat) as H0.
      { apply count_not_elem. intros H. apply Hx.
        apply list_elem_of_fmap in H as (y & Hy & Hyl).
        apply list_elem_of_filter in Hyl as [_ Hyl].
        apply list_elem_of_fmap. by exists y. }
      rewrite filter_cons. destruct (Q x) eqn:E.
      * rewrite decide_True by done. cbn [fmap list_fmap].
        rewrite filter_cons, decide_True by done. cbn. by rewrite H0.
      * rewrite decide_False by (by intros []). exact H0.
    + assert (path x ≠ path ps) as Hne.
      { intros Heq. apply Hx. rewrite Heq. by apply list_elem_of_fmap_2. }
      rewrite filter_cons. case_decide.
      * cbn [fmap list_fmap]. rewrite filter_cons, decide_False by done.
        by apply IH.
      * by apply IH.
Qed.

Lemma classify_exclusive (E : gmap string string) (ps : PodPathSha) :
  ((if is_add E ps then 1 else 0) + (if is_edit E ps then 1 else 0)
   + (if is_noChange E ps then 1 else 0) = 1)%nat.
Proof.
  unfold is_add, is_edit, is_noChange.
  destruct (Js.has (path ps) E); cbn; [|done].
  by destruct (Js.strict_eq (sha ps) (Js.get E (path ps))).
Qed.

Lemma occurrences_sum (p : string) (d : BuildDiffPaths) :
  occurrences p d
  = (List.length (filter (λ q, q = p) (adds d))
     + List.length (filter (λ q, q = p) (edits d))
     + List.length (filter (λ q, q = p) (noChanges d))
     + List.length (filter (λ q, q = p) (deletes d)))%nat.
Proof. unfold occurrences. rewrite !filter_app, !length_app. lia. Qed.

Lemma occurrences_pos (p : string) (d : BuildDiffPaths) :
  (0 < occurrences p d)%nat
  ↔ p ∈ adds d ∨ p ∈ edits d ∨ p ∈ noChanges d ∨ p ∈ deletes d.
Proof.
  unfold occurrences. rewrite <- !elem_of_app. split.
  - intros H.
    destruct (filter (λ q, q = p) (adds d ++ edits d ++ noChanges d ++ deletes d))
      as [|q l'] eqn:E; [cbn in H; lia|].
    assert (q ∈ filter (λ q, q = p) (adds d ++ edits d ++ noChanges d ++ deletes d))
      as Hq by (rewrite E; left).
    by apply list_elem_of_filter in Hq as [-> Hq].
  - intros H.
    assert (p ∈ filter (λ q, q = p) (adds d ++ edits d ++ noChanges d ++ deletes d))
      as Hq by (by apply list_elem_of_filter).
    destruct (filter (λ q, q = p) (adds d ++ edits d ++ noChanges d ++ deletes d));
      [by apply elem_of_nil in Hq|cbn; lia].
Qed.

(** *** The branches, read against the previous file list *)

Lemma is_add_iff (fs : list PodPathSha) (ps : PodPathSha) :
  Js.inherited (path ps) = false →
  is_add (pathShas fs) ps ↔ path ps ∉ path <$> fs.
Proof.
  intros Hs. unfold is_add. rewrite negb_True, Is_true_true.
  by rewrite has_pathShas.
Qed.

Lemma is_noChange_iff (fs : list PodPathSha) (ps : PodPathSha) :
  NoDup (path <$> fs) → Js.inherited (path ps) = false →
  is_noChange (pathShas fs) ps ↔ mkPodPathSha (path ps) (sha ps) ∈ fs.
Proof.
  intros Hnd Hs. unfold is_noChange. rewrite andb_True, !Is_true_true.
  rewrite has_pathShas, strict_eq_pathShas by done.
  split; [by intros [_ H]|]. intros H. split; [|done].
  apply list_elem_of_fmap. by exists (mkPodPathSha (path ps) (sha ps)).
Qed.

Lemma is_edit_iff (fs : list PodPathSha) (ps : PodPathSha) :
  NoDup (path <$> fs) → Js.inherited (path ps) = false →
  is_edit (pathShas fs) ps
  ↔ ∃ h', mkPodPathSha (path ps) h' ∈ fs ∧ sha ps ≠ h'.
Proof.
  intros Hnd Hs. unfold is_edit. rewrite andb_True, negb_True, !Is_true_true.
  rewrite has_pathShas, strict_eq_pathShas by done. split.
  - intros [Hin Hne]. apply list_elem_of_fmap in Hin as ([k h'] & Hk & Hin).
    cbn in Hk. subst k. exists h'. split; [done|]. by intros <-.
  - intros (h' & Hin & Hne). split.
    + apply list_elem_of_fmap. by exists (mkPodPathSha (path ps) h').
    + intros Hin'. apply Hne.
      assert (pathShas fs !! path ps = Some (sha ps)) as E1.
      { apply pathShas_lookup; [done|].
        split; [done|]. by apply not_inherited_not_proto. }
      assert (pathShas fs !! path ps = Some h') as E2.
      { apply pathShas_lookup; [done|].
        split; [done|]. by apply not_inherited_not_proto. }
      congruence.
Qed.

Lemma is_delete_iff (fs : list PodPathSha) (ps : PodPathSha) :
  Js.inherited (path ps) = false →
  is_delete (pathShas fs) ps ↔ path ps ∉ path <$> fs.
Proof.
  intros Hs. unfold is_delete. rewrite negb_True, Is_true_true.
  by rewrite has_pathShas.
Qed.

Lemma elem_of_fmap_filter (Q : PodPathSha → bool) (l : list PodPathSha) (p : string) :
  p ∈ path <$> filter (λ ps, Q ps) l ↔ ∃ ps, ps ∈ l ∧ path ps = p ∧ Q ps.
Proof.
  rewrite list_elem_of_fmap. split.
  - intros (ps & -> & H). apply list_elem_of_filter in H as [HQ H]. by exists ps.
  - intros (ps & H & <- & HQ). exists ps. split; [done|].
    by apply list_elem_of_filter.
Qed.

(** *** The classification *)

(** C1 (amended). For a previous manifest [P] (possibly absent) and a new
    manifest [N] whose file lists have pairwise-distinct paths, none of them
    a property name inherited from [Object.prototype] when [P] is present:
    if [P] is absent every path of [N] is an add; otherwise a path of [N]
    absent from [P] is an add, present with an equal hash a noChange,
    present with a different hash an edit, and the deletes are the paths of
    [P] absent from [N] when [options.patterns] is not set, and none when it
    is.  Every path of [N] occurs exactly once over the four lists; a path
    of [P] absent from [N] occurs exactly once (in deletes) in
    non-incremental mode and in no list in incremental mode. *)
Theorem cleanOutputUsingManifests_classifies
    (P : option BuildManifest) (N : BuildManifest)
    (options : option ExportOptions) :
  NoDup (paths N) →
  NoDup (previous_paths P) →
  (P ≠ None → ∀ p, p ∈ paths N ++ previous_paths P → Js.inherited p = false) →
  let d := cleanOutputUsingManifests P N options in
  (P = None →
     adds d = paths N ∧ edits d = [] ∧ noChanges d = [] ∧ deletes d = [])
  ∧ (∀ Pm, P = Some Pm → ∀ p,
       (p ∈ adds d ↔ p ∈ paths N ∧ p ∉ paths Pm)
       ∧ (p ∈ noChanges d
          ↔ ∃ h, mkPodPathSha p h ∈ files N ∧ mkPodPathSha p h ∈ files Pm)
       ∧ (p ∈ edits d
          ↔ ∃ h h', mkPodPathSha p h ∈ files N
                    ∧ mkPodPathSha p h' ∈ files Pm ∧ h ≠ h')
       ∧ (p ∈ deletes d
          ↔ patterns_truthy options = false ∧ p ∈ paths Pm ∧ p ∉ paths N))
  ∧ (∀ p, p ∈ paths N → occurrences p d = 1%nat)
  ∧ (∀ p, p ∈ previous_paths P → p ∉ paths N →
       occurrences p d = if patterns_truthy options then 0%nat else 1%nat).
Proof.
  intros HN HP Hsafe d. destruct P as [Pm|].
  - (* a previous manifest *)
    assert (HsN : ∀ ps, ps ∈ files N → Js.inherited (path ps) = false).
    { intros ps Hps. apply Hsafe; [done|]. apply elem_of_app. left.
      by apply list_elem_of_fmap_2. }
    assert (HsP : ∀ ps, ps ∈ files Pm → Js.inherited (path ps) = false).
    { intros ps Hps. apply Hsafe; [done|]. apply elem_of_app. right.
      by apply list_elem_of_fmap_2. }
    cbn [previous_paths] in HP. unfold paths in *.
    subst d. rewrite cleanOutputUsingManifests_Some.
    split; [done|]. split; [|split].
    + intros ? [= <-] p. cbn [adds edits noChanges deletes].
      rewrite !elem_of_fmap_filter. split; [|split; [|split]].
      * split.
        -- intros (ps & Hin & <- & Hq). apply is_add_iff in Hq; [|by apply HsN].
           split; [by apply list_elem_of_fmap_2|done].
        -- intros [Hin Hnot]. apply list_elem_of_fmap in Hin as (ps & -> & Hin).
           exists ps. split; [done|]. split; [done|].
           apply is_add_iff; [by apply HsN|done].
      * split.
        -- intros (ps & Hin & <- & Hq).
           apply is_noChange_iff in Hq; [|done|by apply HsN].
           exists (sha ps). split; [by destruct ps|done].
        -- intros (h & Hin & HinP). exists (mkPodPathSha p h).
           split; [done|]. split; [done|].
           apply is_noChange_iff; [done|by apply (HsN _ Hin)|done].
      * split.
        -- intros (ps & Hin & <- & Hq).
           apply is_edit_iff in Hq as (h' & HinP & Hne); [|done|by apply HsN].
           exists (sha ps), h'. split; [by destruct ps|done].
        -- intros (h & h' & Hin & HinP & Hne). exists (mkPodPathSha p h).
           split; [done|]. split; [done|].
           apply is_edit_iff; [done|by apply (HsN _ Hin)|]. by exists h'.
      * destruct (patterns_truthy options).
        -- rewrite elem_of_nil. naive_solver.
        -- rewrite elem_of_fmap_filter. split.
           ++ intros (ps & Hin & <- & Hq).
              apply is_delete_iff in Hq; [|by apply HsP].
              split; [done|]. split; [by apply list_elem_of_fmap_2|done].
           ++ intros (_ & Hin & Hnot).
              apply list_elem_of_fmap in Hin as (ps & -> & Hin).
              exists ps. split; [done|]. split; [done|].
              apply is_delete_iff; [by apply HsP|done].
    + (* a path of the new manifest *)
      intros p Hp. apply list_elem_of_fmap in Hp as (ps & -> & Hin).
      rewrite occurrences_sum. cbn [adds edits noChanges deletes].
      rewrite !count_fmap_filter by done.
      assert (List.length (filter (λ q, q = path ps)
                (if patterns_truthy options then []
                 else path <$> filter (λ ps0, is_delete (pathShas (files N)) ps0)
                                      (files Pm))) = 0%nat) as ->.
      { apply count_not_elem. destruct (patterns_truthy options).
        - apply not_elem_of_nil.
        - intros H. apply elem_of_fmap_filter in H as (qs & HqP & Heq & Hq).
          apply is_delete_iff in Hq; [|by apply HsP]. apply Hq.
          rewrite Heq. by apply list_elem_of_fmap_2. }
      pose proof (classify_exclusive (pathShas (files Pm)) ps). lia.
    + (* a path only the previous manifest has *)
      intros p Hp Hnot. cbn [previous_paths] in Hp.
      apply list_elem_of_fmap in Hp as (ps & -> & Hin).
      rewrite occurrences_sum. cbn [adds edits noChanges deletes].
      assert (∀ Q : PodPathSha → bool,
                path ps ∉ path <$> filter (λ x, Q x) (files N)) as Hno.
      { intros Q H. apply elem_of_fmap_filter in H as (qs & Hq & Heq & _).
        apply Hnot. rewrite <- Heq. by apply list_elem_of_fmap_2. }
      rewrite (count_not_elem _ _ (Hno (is_add (pathShas (files Pm))))).
      rewrite (count_not_elem _ _ (Hno (is_edit (pathShas (files Pm))))).
      rewrite (count_not_elem _ _ (Hno (is_noChange (pathShas (files Pm))))).
      destruct (patterns_truthy options); [done|].
      rewrite count_fmap_filter by done.
      assert (is_delete (pathShas (files N)) ps) as Hd.
      { apply is_delete_iff; [by apply HsP|done]. }
      apply Is_true_true in Hd. by rewrite Hd.
  - (* no previous manifest *)
    subst d. unfold cleanOutputUsingManifests. cbn [adds edits noChanges deletes].
    split; [done|]. split; [done|]. split.
    + intros p Hp. rewrite occurrences_sum. cbn [adds edits noChanges deletes].
      rewrite filter_nil. cbn [List.length].
      fold (paths N). rewrite (count_NoDup p (paths N)) by done. lia.
    + intros p Hp. by apply elem_of_nil in Hp.
Qed.

Lemma cleanOutputUsingManifests_classifies_witness :
  let P := manifest_of [mkPodPathSha "/index.html" "a1";
                        mkPodPathSha "/app.css" "b2";
                        mkPodPathSha "/old/index.html" "c3"] in
  let N := manifest_of [mkPodPathSha "/index.html" "a9";
                        mkPodPathSha "/app.css" "b2";
                        mkPodPathSha "/new/index.html" "d4"] in
  occurrences "/index.html" (cleanOutputUsingManifests (Some P) N None) = 1%nat
  ∧ occurrences "/old/index.html" (cleanOutputUsingManifests (Some P) N None) = 1%nat.
Proof.
  intros P N.
  assert (HN : NoDup (paths N)).
  { apply (bool_decide_unpack _). vm_compute. exact I. }
  assert (HP : NoDup (previous_paths (Some P))).
  { apply (bool_decide_unpack _). vm_compute. exact I. }
  assert (Hsafe : Some P ≠ None →
            ∀ p, p ∈ paths N ++ previous_paths (Some P) → Js.inherited p = false).
  { intros _ p Hp. cbn in Hp.
    repeat (apply elem_of_cons in Hp as [->|Hp]; [reflexivity|]).
    by apply elem_of_nil in Hp. }
  destruct (cleanOutputUsingManifests_classifies (Some P) N None HN HP Hsafe)
    as (_ & _ & Hnew & Hold).
  split.
  - apply Hnew. cbn. left.
  - apply (Hold "/old/index.html").
    + cbn. right. right. left.
    + cbn. intros Hp.
      repeat (apply elem_of_cons in Hp as [Hp|Hp]; [discriminate Hp|]).
      by apply elem_of_nil in Hp.
Defined.

(** C1 as stated fails on two inputs.  In incremental mode a path that only
    the previous manifest lists lands in none of the four lists; and a path
    named like a property of [Object.prototype], absent from the previous
    manifest, is reported as an edit instead of an add. *)
Lemma cleanOutputUsingManifests_not_a_partition :
  (let P := manifest_of [mkPodPathSha "/old/index.html" "c3"] in
   let N := manifest_of [mkPodPathSha "/blog/index.html" "d4"] in
   let d := cleanOutputUsingManifests (Some P) N
              (Some {| patterns := Some ["/content/blog/**"] |}) in
   "/old/index.html" ∈ paths P ∧ occurrences "/old/index.html" d = 0%nat)
  ∧ (let P := manifest_of [] in
     let N := manifest_of [mkPodPathSha "toString" "d4"] in
     let d := cleanOutputUsingManifests (Some P) N None in
     "toString" ∈ paths N ∧ "toString" ∉ paths P
     ∧ adds d = [] ∧ edits d = ["toString"]).
Proof.
  split.
  - cbv zeta. split; [cbn; left|reflexivity].
  - cbv zeta. split; [cbn; left|]. split; [cbn; apply not_elem_of_nil|].
    split; reflexivity.
Qed.

(** With [options.patterns] set the diff reports no delete, whatever the
    two manifests are. *)
Lemma cleanOutputUsingManifests_incremental_no_deletes
    (P : option BuildManifest) (N : BuildManifest)
    (options : option ExportOptions) :
  patterns_truthy options = true →
  deletes (cleanOutputUsingManifests P N options) = [].
Proof.
  intros Hp. destruct P as [Pm|]; [|reflexivity].
  rewrite cleanOutputUsingManifests_Some. cbn. by rewrite Hp.
Qed.

End DiffFacts.

(* ===================================================================== *)
(** ** Sequencing                                                         *)
(* ===================================================================== *)

Module MFacts.

Lemma bind_Ok {A B} (m : M A) (k : A → M B) (w w1 : World) (a : A) :
  m w = (Ok a, w1) → bind m k w = k a w1.
Proof. intros H. unfold bind. by rewrite H. Qed.

Lemma bind_Throw {A B} (m : M A) (k : A → M B) (w w1 : World) (err : Error) :
  m w = (Throw err, w1) → bind m k w = (Throw err, w1).
Proof. intros H. unfold bind. by rewrite H. Qed.

Lemma bind_Ok_inv {A B} (m : M A) (k : A → M B) (w w' : World) (b : B) :
  bind m k w = (Ok b, w') → ∃ a w1, m w = (Ok a, w1) ∧ k a w1 = (Ok b, w').
Proof.
  unfold bind. destruct (m w) as [[a|err] w1]; [eauto|discriminate].
Qed.

(** Unfold the plumbing, then split on every test a computation makes. *)
Ltac unfold_m :=
  unfold try_finally, try_catch, bind, ret, throw, modify, get_world,
    Builder.lift, Builder.issue in *.

Ltac split_matches :=
  repeat match goal with
  | H : context [match ?x with _ => _ end] |- _ =>
      let E := fresh "E" in destruct x eqn:E
  end.

End MFacts.

(* ===================================================================== *)
(** ** Stale-output cleanup: [deleteOutputFiles]                          *)
(* ===================================================================== *)

Module CleanupFacts.
Import Builder MFacts.

(** *** Running the cleanup *)

Example delete_existing_file :
  let r := deleteOutputFiles (Demo.env [] Demo.no_failure [])
             ["/old/index.html"] Demo.built_pod in
  fst r = Ok tt
  ∧ disk (snd r) !! "/pod/build/old/index.html" = None
  ∧ console (snd r) = [].
Proof. vm_compute. repeat split. Qed.

Section WithEnv.

Variable env : Env.

(** The file is gone ([errno] is [-2]): a warning, then the directory. *)
Lemma deleteOutputFile_absent (outputPath : string) (w w1 : World) (err : Error) :
  let absOutputPath :=
    getAbsoluteFilePath env (join env [outputDirectoryPodPath; outputPath]) in
  unlinkSync env absOutputPath w = (Throw err, w1) →
  errno_of err = Some (-2) →
  deleteOutputFile env outputPath w
  = pruneDirectory env (dirname env absOutputPath)
      (console_push (Warning absOutputPath) w1).
Proof.
  intros abs Hu He. unfold deleteOutputFile. fold abs.
  unfold bind at 1, try_catch. rewrite Hu.
  rewrite bool_decide_eq_true_2 by done. reflexivity.
Qed.

(** Any other failure is thrown again. *)
Lemma deleteOutputFile_rethrows (outputPath : string) (w w1 : World) (err : Error) :
  let absOutputPath :=
    getAbsoluteFilePath env (join env [outputDirectoryPodPath; outputPath]) in
  unlinkSync env absOutputPath w = (Throw err, w1) →
  errno_of err ≠ Some (-2) →
  deleteOutputFile env outputPath w = (Throw err, w1).
Proof.
  intros abs Hu He. unfold deleteOutputFile. fold abs.
  unfold bind at 1, try_catch. rewrite Hu.
  rewrite bool_decide_eq_false_2 by done. reflexivity.
Qed.

(** The paths are dealt with one after the other. *)
Lemma deleteOutputFiles_app (visited rest : list string) (w : World) :
  deleteOutputFiles env (visited ++ rest) w
  = (deleteOutputFiles env visited >> deleteOutputFiles env rest) w.
Proof.
  unfold deleteOutputFiles. revert w.
  induction visited as [|p visited IH]; intros w; cbn [app forEach].
  - reflexivity.
  - unfold bind in *.
    destruct (deleteOutputFile env p w) as [[[]|e] w1]; [|reflexivity].
    apply IH.
Qed.

(** C3 (amended). For any path of the deletes list whose [unlinkSync]
    fails, the paths before it having been dealt with: when the failure is
    "no such file" ([errno] [-2]) a warning naming the file is logged and
    the cleanup goes on with the parent directory and then the remaining
    paths; any other failure is thrown again, no warning is logged, the
    failed [unlinkSync] is the last call issued, so that the remaining
    paths are not visited, and an [export] that has come this far fails
    with that error. *)
Theorem deleteOutputFiles_on_failure
    (visited : list string) (outputPath : string) (rest : list string)
    (w0 w w1 : World) (err : Error) :
  let absOutputPath :=
    getAbsoluteFilePath env (join env [outputDirectoryPodPath; outputPath]) in
  deleteOutputFiles env visited w0 = (Ok tt, w) →
  unlinkSync env absOutputPath w = (Throw err, w1) →
  (errno_of err = Some (-2) →
     deleteOutputFiles env (visited ++ outputPath :: rest) w0
     = (pruneDirectory env (dirname env absOutputPath) >>
        deleteOutputFiles env rest) (console_push (Warning absOutputPath) w1))
  ∧ (errno_of err ≠ Some (-2) →
       deleteOutputFiles env (visited ++ outputPath :: rest) w0 = (Throw err, w1)
       ∧ console w1 = console w
       ∧ trace w1 = trace w ++ [OpUnlink absOutputPath]
       ∧ disk w1 = disk w
       ∧ ∀ options existingManifest buildManifest buildMetrics w00,
           patterns_truthy options = false →
           write_manifest_and_metrics env buildManifest buildMetrics w00
           = (Ok tt, w0) →
           deletes (Diff.cleanOutputUsingManifests existingManifest buildManifest
                      options)
           = visited ++ outputPath :: rest →
           export_finish env options existingManifest buildManifest buildMetrics w00
           = (Throw err, w1)).
Proof.
  intros abs Hv Hu. split.
  - intros He. rewrite deleteOutputFiles_app, (bind_Ok _ _ _ _ _ Hv).
    unfold deleteOutputFiles. cbn [forEach].
    unfold bind at 1. fold abs.
    rewrite (deleteOutputFile_absent outputPath w w1 err Hu He). fold abs.
    unfold bind.
    by destruct (pruneDirectory env (dirname env abs)
                   (console_push (Warning abs) w1)) as [[[]|e] w2].
  - intros He.
    assert (Hd : deleteOutputFiles env (visited ++ outputPath :: rest) w0
                 = (Throw err, w1)).
    { rewrite deleteOutputFiles_app, (bind_Ok _ _ _ _ _ Hv).
      unfold deleteOutputFiles. cbn [forEach].
      apply bind_Throw. by apply deleteOutputFile_rethrows. }
    split; [done|].
    assert (Hw1 : console w1 = console w
                  ∧ trace w1 = trace w ++ [OpUnlink abs] ∧ disk w1 = disk w).
    { unfold unlinkSync, bind, issue, get_world, modify, throw in Hu.
      destruct (io_fails env (OpUnlink abs)) as [[n c]|].
      - by simplify_eq.
      - destruct (disk (record_op (OpUnlink abs) w) !! abs);
          by simplify_eq. }
    destruct Hw1 as (Hc & Ht & Hdisk). split_and!; [done..|].
    intros options P N mt w00 Hp Hw Hdel. unfold export_finish.
    rewrite (bind_Ok _ _ _ _ _ Hw). unfold export_after_write.
    rewrite Hp. cbn [negb]. rewrite Hdel. by apply bind_Throw.
Qed.

End WithEnv.

Lemma deleteOutputFiles_on_failure_witness :
  let env := Demo.env [] Demo.unlink_denied [] in
  fst (deleteOutputFiles env ["/index.html"; "/gone.html"] Demo.built_pod) = Ok tt
  ∧ fst (deleteOutputFiles env ["/index.html"; "/old/index.html"; "/gone.html"]
           Demo.built_pod)
    = Throw EACCES.
Proof.
  intros env.
  set (w := snd (deleteOutputFiles env ["/index.html"] Demo.built_pod)).
  split.
  - pose proof (deleteOutputFiles_on_failure env ["/index.html"] "/gone.html" []
                  Demo.built_pod w
                  (snd (unlinkSync env "/pod/build/gone.html" w)) ENOENT) as H.
    cbv zeta in H. destruct H as [H _]; [reflexivity|reflexivity|].
    cbn [app] in H. rewrite H; reflexivity.
  - pose proof (deleteOutputFiles_on_failure env ["/index.html"] "/old/index.html"
                  ["/gone.html"] Demo.built_pod w
                  (snd (unlinkSync env "/pod/build/old/index.html" w)) EACCES) as H.
    cbv zeta in H. destruct H as [_ H]; [reflexivity|reflexivity|].
    destruct H as [H _]; [discriminate|].
    cbn [app] in H. rewrite H. reflexivity.
Defined.

(** C3 as stated fails both ways.  A file that is already absent is not
    passed over in silence: a warning is logged.  A deletion that fails for
    another reason ([EACCES] here) is not logged and does not let the build
    continue: the error is thrown, and the next stale file stays on disk. *)
Lemma deleteOutputFiles_warns_on_absent_and_aborts_otherwise :
  (let r := deleteOutputFiles (Demo.env [] Demo.no_failure [])
              ["/gone.html"] Demo.built_pod in
   fst r = Ok tt ∧ console (snd r) = [Warning "/pod/build/gone.html"])
  ∧ (let r := deleteOutputFiles (Demo.env [] Demo.unlink_denied [])
                ["/old/index.html"; "/index.html"] Demo.built_pod in
     fst r = Throw EACCES
     ∧ console (snd r) = []
     ∧ disk (snd r) !! "/pod/build/index.html" = Some "hello").
Proof. vm_compute. repeat split. Qed.

End CleanupFacts.

(* ===================================================================== *)
(** ** Reasoning about a bounded-concurrency run                          *)
(* ===================================================================== *)

Module AsyncFacts.
Import Async.

Lemma insert_Permutation_delete {A} (l : list A) (k : nat) (x y : A) :
  l !! k = Some x → <[k := y]> l ≡ₚ y :: delete k l.
Proof.
  revert k. induction l as [|a l IH]; intros [|k] H; try done.
  - cbn in H. cbn. rewrite (IH k H). apply perm_swap.
Qed.

Section Invariant.

Context {T S : Type}.
Variable iteratee_start : T → M (S + unit).
Variable iteratee_resume : S → M (S + unit).
Variable limit : nat.

(** [Inv pending running w] is to hold between any two turns, whatever the
    order of the tasks in flight; [Rejected w] is what is known when a task
    has just rejected. *)
Variable Inv : list T → list S → World → Prop.
Variable Rejected : World → Prop.

Hypothesis Inv_perm : ∀ p r r' w, r ≡ₚ r' → Inv p r w → Inv p r' w.

Hypothesis start_suspends : ∀ t p r w s w',
  Inv (t :: p) r w → iteratee_start t w = (Ok (inl s), w') → Inv p (s :: r) w'.
Hypothesis start_resolves : ∀ t p r w u w',
  Inv (t :: p) r w → iteratee_start t w = (Ok (inr u), w') → Inv p r w'.
Hypothesis start_rejects : ∀ t p r w err w',
  Inv (t :: p) r w → iteratee_start t w = (Throw err, w') → Rejected w'.

Hypothesis resume_suspends : ∀ p s r w s' w',
  Inv p (s :: r) w → iteratee_resume s w = (Ok (inl s'), w') → Inv p (s' :: r) w'.
Hypothesis resume_resolves : ∀ p s r w u w',
  Inv p (s :: r) w → iteratee_resume s w = (Ok (inr u), w') → Inv p r w'.
Hypothesis resume_rejects : ∀ p s r w err w',
  Inv p (s :: r) w → iteratee_resume s w = (Throw err, w') → Rejected w'.

(** A run that settles resolves with nothing pending or in flight and the
    invariant intact, or rejects in a world where [Rejected] holds. *)
Lemma run_invariant (fuel : nat) :
  ∀ (pending : list T) (running : list S) (order : list nat) (w : World)
    (res : outcome unit) (w' : World),
    Inv pending running w →
    run iteratee_start iteratee_resume limit fuel pending running order w
      = Some (res, w') →
    match res with
    | Ok _ => Inv [] [] w'
    | Throw _ => Rejected w'
    end.
Proof.
  induction fuel as [|fuel IH]; intros pending running order w res w' HI Hrun;
    [done|].
  cbn [run] in Hrun.
  destruct (if Nat.ltb (List.length running) limit then pending else [])
    as [|t ts] eqn:Hsel.
  - destruct running as [|s0 running0] eqn:Hr.
    + destruct pending; [|done]. by injection Hrun as <- <-.
    + rewrite <- Hr in *.
      set (k := Nat.modulo (hd O order) (List.length running)) in *.
      destruct (running !! k) as [s|] eqn:Hk; [|done].
      assert (Hperm : running ≡ₚ s :: delete k running)
        by (by apply delete_Permutation).
      apply (Inv_perm _ _ _ _ Hperm) in HI.
      destruct (iteratee_resume s w) as [[[s'|u]|err] w1] eqn:Hres.
      * apply (IH _ _ _ _ _ _) in Hrun; [done|].
        eapply Inv_perm; [symmetry; by eapply insert_Permutation_delete|].
        by eapply resume_suspends.
      * apply (IH _ _ _ _ _ _) in Hrun; [done|]. by eapply resume_resolves.
      * injection Hrun as <- <-. by eapply resume_rejects.
  - assert (pending = t :: ts) as ->.
    { destruct (Nat.ltb (List.length running) limit); [done|discriminate]. }
    cbn [tail] in Hrun.
    destruct (iteratee_start t w) as [[[s|u]|err] w1] eqn:Hst.
    + apply (IH _ _ _ _ _ _) in Hrun; [done|].
      eapply Inv_perm; [|by eapply start_suspends].
      by rewrite Permutation_cons_append.
    + apply (IH _ _ _ _ _ _) in Hrun; [done|]. by eapply start_resolves.
    + injection Hrun as <- <-. by eapply start_rejects.
Qed.

End Invariant.

Section Settles.

Context {T S : Type}.
Variable iteratee_start : T → M (S + unit).
Variable iteratee_resume : S → M (S + unit).
Variable limit : nat.
Variable max_resumes : nat.

(** [left s] bounds the resumptions a suspended task still needs. *)
Variable left : S → nat.

Hypothesis limit_pos : (0 < limit)%nat.
Hypothesis left_pos : ∀ s, (0 < left s)%nat.
Hypothesis start_bound : ∀ t w s w',
  iteratee_start t w = (Ok (inl s), w') → (left s ≤ max_resumes)%nat.
Hypothesis resume_decreases : ∀ s w s' w',
  iteratee_resume s w = (Ok (inl s'), w') → (left s' < left s)%nat.

Definition weight (running : list S) : nat := sum_list_with left running.

Lemma weight_app (r1 r2 : list S) : weight (r1 ++ r2) = (weight r1 + weight r2)%nat.
Proof. unfold weight. by rewrite sum_list_with_app. Qed.

Lemma weight_delete (r : list S) (k : nat) (s : S) :
  r !! k = Some s → (weight (delete k r) + left s = weight r)%nat.
Proof.
  revert k. induction r as [|a r IH]; intros [|k] H; try done.
  - cbn in H. injection H as ->. unfold weight. simpl. lia.
  - cbn in H. specialize (IH k H). unfold weight in *. simpl. lia.
Qed.

Lemma weight_insert (r : list S) (k : nat) (s s' : S) :
  r !! k = Some s → (weight (<[k := s']> r) + left s = weight r + left s')%nat.
Proof.
  revert k. induction r as [|a r IH]; intros [|k] H; try done.
  - cbn in H. injection H as ->. unfold weight. simpl. lia.
  - cbn in H. specialize (IH k H). unfold weight in *. simpl. lia.
Qed.

(** With a positive limit the run settles within the turns it is given. *)
Lemma run_settles (fuel : nat) :
  ∀ (pending : list T) (running : list S) (order : list nat) (w : World),
    (List.length pending * Datatypes.S max_resumes + weight running < fuel)%nat →
    is_Some (run iteratee_start iteratee_resume limit fuel pending running order w).
Proof.
  induction fuel as [|fuel IH]; intros pending running order w Hfuel; [lia|].
  cbn [run].
  destruct (if Nat.ltb (List.length running) limit then pending else [])
    as [|t ts] eqn:Hsel.
  - destruct running as [|s0 running0] eqn:Hr.
    + destruct pending as [|t ts]; [done|].
      cbn in Hsel. destruct limit; [lia|done].
    + rewrite <- Hr in *.
      set (k := Nat.modulo (hd O order) (List.length running)) in *.
      assert (Hlt : (k < List.length running)%nat).
      { apply Nat.mod_upper_bound. subst running. cbn. lia. }
      destruct (lookup_lt_is_Some_2 running k Hlt) as [s Hk]. rewrite Hk.
      destruct (iteratee_resume s w) as [[[s'|u]|err] w1] eqn:Hres; [| |done].
      * apply IH. pose proof (weight_insert running k s s' Hk).
        pose proof (resume_decreases _ _ _ _ Hres). lia.
      * apply IH. pose proof (weight_delete running k s Hk).
        pose proof (left_pos s). lia.
  - assert (pending = t :: ts) as ->.
    { destruct (Nat.ltb (List.length running) limit); [done|discriminate]. }
    cbn [tail].
    destruct (iteratee_start t w) as [[[s|u]|err] w1] eqn:Hst; [| |done].
    + apply IH. rewrite weight_app. unfold weight at 2. cbn.
      pose proof (start_bound _ _ _ _ Hst). cbn in Hfuel. lia.
    + apply IH. cbn in Hfuel. lia.
Qed.

(** So [eachLimit] never reports a run that does not settle. *)
Lemma eachLimit_run (items : list T) (order : list nat) (w : World) :
  run iteratee_start iteratee_resume limit (turns max_resumes items) items []
      order w
  = Some (eachLimit iteratee_start iteratee_resume limit max_resumes items order w).
Proof.
  unfold eachLimit.
  destruct (run_settles (turns max_resumes items) items [] order w) as [r Hr].
  - unfold turns, weight. cbn. lia.
  - by rewrite Hr.
Qed.

End Settles.

End AsyncFacts.

(* ===================================================================== *)
(** ** The staging pass                                                   *)
(* ===================================================================== *)

Module StagingFacts.
Import Builder Props MFacts.

Lemma only_ops_refl (allowed : Op → bool) (w : World) : only_ops allowed w w.
Proof. exists []. by rewrite app_nil_r. Qed.

Lemma only_ops_trans (allowed : Op → bool) (w1 w2 w3 : World) :
  only_ops allowed w1 w2 → only_ops allowed w2 w3 → only_ops allowed w1 w3.
Proof.
  intros (o1 & H1 & F1) (o2 & H2 & F2). exists (o1 ++ o2). split.
  - by rewrite H2, H1, app_assoc.
  - by apply Forall_app.
Qed.

Lemma only_ops_one (allowed : Op → bool) (op : Op) (w w' : World) :
  allowed op = true → trace w' = trace w ++ [op] → only_ops allowed w w'.
Proof. intros Ha Ht. exists [op]. split; [done|]. by constructor. Qed.

Lemma only_ops_same (allowed : Op → bool) (w w' : World) :
  trace w' = trace w → only_ops allowed w w'.
Proof. intros Ht. exists []. by rewrite app_nil_r. Qed.

Lemma stage_frame_refl (w : World) : stage_frame w w.
Proof. repeat split. apply only_ops_refl. Qed.

Lemma stage_frame_trans (w1 w2 w3 : World) :
  stage_frame w1 w2 → stage_frame w2 w3 → stage_frame w1 w3.
Proof.
  intros (A1 & A2 & A3 & A4 & A5 & A6) (B1 & B2 & B3 & B4 & B5 & B6).
  repeat split; try congruence. by eapply only_ops_trans.
Qed.

Section WithEnv.

Variable env : Env.

(** *** One step of a staging task *)

Ltac stage_frame_step :=
  unfold stage_frame; cbn; repeat split;
  first [ by apply only_ops_same
        | eapply only_ops_one; [|reflexivity]; reflexivity ].

Lemma stage_start_spec (cp : CreatedPath) (w w' : World)
    (res : outcome (StageState + unit)) :
  stage_start env cp w = (res, w') →
  stage_frame w w'
  ∧ ((res = Ok (inl (AwaitBuild cp))
      ∧ is_staticDir cp = false
      ∧ artifacts w' = artifacts w ∧ bar w' = bar w)
     ∨ ((res = Ok (inl (AwaitCopy cp)) ∨ ∃ err, res = Throw err)
        ∧ is_staticDir cp = true
        ∧ artifacts w' = artifacts w ++ [artifact_of cp]
        ∧ bar w' = S (bar w))).
Proof.
  unfold stage_start, ensureDirectoryExists, bookkeeping. intros H.
  destruct (is_staticDir cp) eqn:Hs.
  - unfold_m. split_matches; simplify_eq;
      (split; [stage_frame_step|right; repeat split; eauto]).
  - unfold_m. simplify_eq. split; [apply stage_frame_refl|]. left. done.
Qed.

Lemma stage_resume_spec (s : StageState) (w w' : World)
    (res : outcome (StageState + unit)) :
  stage_resume env s w = (res, w') →
  stage_frame w w'
  ∧ match s with
    | AwaitBuild cp =>
        artifacts w' = artifacts w ++ [artifact_of cp]
        ∧ bar w' = S (bar w)
        ∧ ((∃ content, build (route cp) = Ok content
                       ∧ res = Ok (inl (AwaitWrite cp content)))
           ∨ ∃ err, res = Throw err)
    | AwaitCopy _ | AwaitWrite _ _ =>
        artifacts w' = artifacts w ∧ bar w' = bar w
        ∧ (res = Ok (inr tt) ∨ ∃ err, res = Throw err)
    end.
Proof.
  unfold stage_resume, ensureDirectoryExists, bookkeeping,
    copyFile_to_staging, writeFile_to_staging.
  intros H. destruct s as [cp|cp|cp content];
    unfold_m; split_matches; simplify_eq;
    (split; [stage_frame_step|]); cbn; repeat split; eauto.
Qed.

(** *** The invariant of the pass *)

Section Pass.

Variable createdPaths : list CreatedPath.
Variable w0 : World.

Lemma stage_inv_perm (p : list CreatedPath) (r r' : list StageState) (w : World) :
  r ≡ₚ r' → stage_inv createdPaths w0 p r w → stage_inv createdPaths w0 p r' w.
Proof.
  intros Hr (l & Ha & Hp & Hb & Hf & Hpast).
  exists l. split_and!; try done.
  - by rewrite <- Hr.
  - intros cp Hcp. apply Hpast. by rewrite Hr.
Qed.

Lemma stage_start_suspends (t : CreatedPath) (p : list CreatedPath)
    (r : list StageState) (w : World) (s : StageState) (w' : World) :
  stage_inv createdPaths w0 (t :: p) r w →
  stage_start env t w = (Ok (inl s), w') →
  stage_inv createdPaths w0 p (s :: r) w'.
Proof.
  intros (l & Ha & Hp & Hb & Hf & Hpast) Hst.
  apply stage_start_spec in Hst as (Hfr & [(Hres & Hs & Hart & Hbar)
                                          |([Hres|[err Hres]] & Hs & Hart & Hbar)]);
    simplify_eq.
  - (* a rendered route: waiting for its build *)
    exists l. cbn [omap list_omap awaiting_build past_finally].
    split_and!.
    + congruence.
    + rewrite <- Hp. cbn [fmap list_fmap].
      apply Permutation_app_head. apply Permutation_middle.
    + congruence.
    + by eapply stage_frame_trans.
    + done.
  - (* a static route: the copy is in flight, the artifact recorded *)
    exists (l ++ [artifact_of t]). cbn [omap list_omap awaiting_build past_finally].
    split_and!.
    + rewrite Hart, Ha. by rewrite app_assoc.
    + rewrite <- Hp. cbn [fmap list_fmap]. rewrite <- app_assoc.
      apply Permutation_app_head. cbn [app]. apply Permutation_middle.
    + rewrite length_app. cbn. lia.
    + by eapply stage_frame_trans.
    + intros cp Hcp. apply elem_of_app.
      apply elem_of_cons in Hcp as [->|Hcp]; [right; left|left; auto].
Qed.

Lemma submseteq_singleton_middle {A} (x : A) (k1 k2 : list A) :
  [x] ⊆+ k1 ++ x :: k2.
Proof.
  apply submseteq_inserts_l. apply submseteq_skip. apply submseteq_nil_l.
Qed.

Lemma stage_start_rejects (t : CreatedPath) (p : list CreatedPath)
    (r : list StageState) (w : World) (err : Error) (w' : World) :
  stage_inv createdPaths w0 (t :: p) r w →
  stage_start env t w = (Throw err, w') →
  stage_rejected createdPaths w0 w'.
Proof.
  intros (l & Ha & Hp & Hb & Hf & Hpast) Hst.
  apply stage_start_spec in Hst as (Hfr & [(Hres & _)
                                          |([Hres|[err' Hres]] & Hs & Hart & Hbar)]);
    simplify_eq.
  exists (l ++ [artifact_of t]). split_and!.
  - rewrite Hart, Ha. by rewrite app_assoc.
  - by destruct l.
  - rewrite <- Hp. apply submseteq_app; [done|].
    cbn [fmap list_fmap]. apply submseteq_singleton_middle.
  - rewrite length_app. cbn. lia.
  - by eapply stage_frame_trans.
Qed.

Lemma stage_resume_suspends (p : list CreatedPath) (s : StageState)
    (r : list StageState) (w : World) (s' : StageState) (w' : World) :
  stage_inv createdPaths w0 p (s :: r) w →
  stage_resume env s w = (Ok (inl s'), w') →
  stage_inv createdPaths w0 p (s' :: r) w'.
Proof.
  intros (l & Ha & Hp & Hb & Hf & Hpast) Hst.
  apply stage_resume_spec in Hst as (Hfr & Hs).
  destruct s as [cp|cp|cp content].
  - destruct Hs as (_ & _ & [H|[e H]]); discriminate.
  - destruct Hs as (Hart & Hbar & [(content & Hbuild & Hres)|[e H]]);
      [|discriminate].
    simplify_eq. exists (l ++ [artifact_of cp]).
    cbn [omap list_omap awaiting_build past_finally] in *.
    split_and!.
    + rewrite Hart, Ha. by rewrite app_assoc.
    + rewrite <- Hp. cbn [fmap list_fmap]. by rewrite <- app_assoc.
    + rewrite length_app. cbn. lia.
    + by eapply stage_frame_trans.
    + intros cp' Hcp. apply elem_of_app.
      apply elem_of_cons in Hcp as [->|Hcp]; [right; left|left; auto].
  - destruct Hs as (_ & _ & [H|[e H]]); discriminate.
Qed.

Lemma stage_resume_resolves (p : list CreatedPath) (s : StageState)
    (r : list StageState) (w : World) (u : unit) (w' : World) :
  stage_inv createdPaths w0 p (s :: r) w →
  stage_resume env s w = (Ok (inr u), w') →
  stage_inv createdPaths w0 p r w'.
Proof.
  intros (l & Ha & Hp & Hb & Hf & Hpast) Hst.
  apply stage_resume_spec in Hst as (Hfr & Hs).
  destruct s as [cp|cp|cp content].
  - destruct Hs as (Hart & Hbar & _). exists l.
    cbn [omap list_omap awaiting_build past_finally] in *.
    split_and!; try congruence; try done.
    + by eapply stage_frame_trans.
    + intros cp' Hcp. apply Hpast. by right.
  - destruct Hs as (_ & _ & [(c & _ & H)|[e H]]); discriminate.
  - destruct Hs as (Hart & Hbar & _). exists l.
    cbn [omap list_omap awaiting_build past_finally] in *.
    split_and!; try congruence; try done.
    + by eapply stage_frame_trans.
    + intros cp' Hcp. apply Hpast. by right.
Qed.

Lemma stage_resume_rejects (p : list CreatedPath) (s : StageState)
    (r : list StageState) (w : World) (err : Error) (w' : World) :
  stage_inv createdPaths w0 p (s :: r) w →
  stage_resume env s w = (Throw err, w') →
  stage_rejected createdPaths w0 w'.
Proof.
  intros (l & Ha & Hp & Hb & Hf & Hpast) Hst.
  apply stage_resume_spec in Hst as (Hfr & Hs).
  assert (Hsub : l ⊆+ artifact_of <$> createdPaths).
  { rewrite <- Hp. by apply submseteq_inserts_r. }
  assert (Hdone : ∀ cp, past_finally s = Some cp →
            artifacts w' = artifacts w → bar w' = bar w →
            stage_rejected createdPaths w0 w').
  { intros cp Hcp Hart Hbar. exists l. split_and!.
    - congruence.
    - assert (artifact_of cp ∈ l) as Hin.
      { apply Hpast. cbn [omap list_omap]. rewrite Hcp. left. }
      intros ->. by apply elem_of_nil in Hin.
    - done.
    - congruence.
    - by eapply stage_frame_trans. }
  destruct s as [cp|cp|cp content].
  - destruct Hs as (Hart & Hbar & _). by eapply Hdone.
  - destruct Hs as (Hart & Hbar & _).
    exists (l ++ [artifact_of cp]). split_and!.
    + rewrite Hart, Ha. by rewrite app_assoc.
    + by destruct l.
    + rewrite <- Hp. apply submseteq_app; [done|].
      cbn [omap list_omap awaiting_build fmap list_fmap].
      apply (submseteq_singleton_middle _ []).
    + rewrite length_app. cbn. lia.
    + by eapply stage_frame_trans.
  - destruct Hs as (Hart & Hbar & _). by eapply Hdone.
Qed.

End Pass.

(** *** The pass as a whole *)

Lemma stage_left_pos (s : StageState) : (0 < stage_left s)%nat.
Proof. destruct s; cbn; lia. Qed.

Lemma stage_start_bound (t : CreatedPath) (w : World) (s : StageState) (w' : World) :
  stage_start env t w = (Ok (inl s), w') → (stage_left s ≤ 2)%nat.
Proof. intros _. destruct s; cbn; lia. Qed.

Lemma stage_resume_decreases (s : StageState) (w : World) (s' : StageState)
    (w' : World) :
  stage_resume env s w = (Ok (inl s'), w') → (stage_left s' < stage_left s)%nat.
Proof.
  intros H. apply stage_resume_spec in H as (_ & Hs).
  destruct s as [cp|cp|cp content].
  - destruct Hs as (_ & _ & [H|[e H]]); discriminate.
  - destruct Hs as (_ & _ & [(content & _ & H)|[e H]]); [|discriminate].
    injection H as ->. cbn. lia.
  - destruct Hs as (_ & _ & [H|[e H]]); discriminate.
Qed.

(** The staging pass settles, for every completion order. *)
Lemma stage_all_run (createdPaths : list CreatedPath) (order : list nat) (w : World) :
  Async.run (stage_start env) (stage_resume env) NumConcurrentBuilds
    (Async.turns 2 createdPaths) createdPaths [] order w
  = Some (stage_all env createdPaths order w).
Proof.
  unfold stage_all.
  apply (AsyncFacts.eachLimit_run (stage_start env) (stage_resume env)
           NumConcurrentBuilds 2 stage_left).
  - unfold NumConcurrentBuilds. lia.
  - apply stage_left_pos.
  - apply stage_start_bound.
  - apply stage_resume_decreases.
Qed.

(** *** Steps that do not raise *)

Lemma stage_start_ok (cp : CreatedPath) (w w' : World) (s : StageState) :
  stage_start env cp w = (Ok (inl s), w') →
  stage_cp s = cp ∧ state_ok env s.
Proof.
  unfold stage_start, ensureDirectoryExists, bookkeeping. intros H.
  destruct (is_staticDir cp) eqn:Hs; unfold_m; split_matches; simplify_eq;
    cbn; done.
Qed.

Lemma stage_resume_ok (s : StageState) (w w' : World) (r : StageState + unit) :
  stage_resume env s w = (Ok r, w') →
  state_ok env s →
  match r with
  | inl s' => stage_cp s' = stage_cp s ∧ state_ok env s'
  | inr _ => ¬ action_fails env (disk w) (stage_cp s)
  end.
Proof.
  unfold stage_resume, ensureDirectoryExists, bookkeeping,
    copyFile_to_staging, writeFile_to_staging.
  intros H Hok. destruct s as [cp|cp|cp content]; cbn [state_ok stage_cp] in *.
  - destruct Hok as [Hs He]. unfold_m. split_matches; simplify_eq.
    unfold action_fails. rewrite Hs. cbn in *.
    intros [[x Hx]|[[x Hx]|Hx]]; congruence.
  - unfold_m. split_matches; simplify_eq. cbn. done.
  - destruct Hok as (Hs & Hb & He). unfold_m. split_matches; simplify_eq.
    unfold action_fails. rewrite Hs.
    intros [[x Hx]|[[x Hx]|[x Hx]]]; congruence.
Qed.

Section Ok.

Variable createdPaths : list CreatedPath.
Variable w0 : World.

Lemma stage_ok_inv_perm (p : list CreatedPath) (r r' : list StageState) (w : World) :
  r ≡ₚ r' →
  stage_ok_inv env createdPaths w0 p r w → stage_ok_inv env createdPaths w0 p r' w.
Proof.
  intros Hr (Hd & Hs & Hc). split_and!; [done| |].
  - intros s Hin. apply Hs. by rewrite Hr.
  - intros cp Hcp. destruct (Hc cp Hcp) as [H|[H|H]]; auto.
    right. right. by rewrite <- Hr.
Qed.

Lemma stage_ok_start (t : CreatedPath) (p : list CreatedPath)
    (r : list StageState) (w : World) (s : StageState) (w' : World) :
  stage_ok_inv env createdPaths w0 (t :: p) r w →
  stage_start env t w = (Ok (inl s), w') →
  stage_ok_inv env createdPaths w0 p (s :: r) w'.
Proof.
  intros (Hd & Hs & Hc) Hst.
  destruct (stage_start_ok _ _ _ _ Hst) as [Hcp Hok].
  apply stage_start_spec in Hst as ((Hdisk & _) & _).
  split_and!; [congruence| |].
  - intros s1 Hin. apply elem_of_cons in Hin as [->|Hin]; [done|by apply Hs].
  - intros cp Hin. destruct (Hc cp Hin) as [H|[H|H]].
    + by left.
    + apply elem_of_cons in H as [->|H].
      * right. right. rewrite fmap_cons, Hcp. left.
      * right. by left.
    + right. right. rewrite fmap_cons. by right.
Qed.

Lemma stage_ok_resume_suspends (p : list CreatedPath) (s : StageState)
    (r : list StageState) (w : World) (s' : StageState) (w' : World) :
  stage_ok_inv env createdPaths w0 p (s :: r) w →
  stage_resume env s w = (Ok (inl s'), w') →
  stage_ok_inv env createdPaths w0 p (s' :: r) w'.
Proof.
  intros (Hd & Hs & Hc) Hst.
  destruct (stage_resume_ok _ _ _ _ Hst) as [Hcp Hok]; [apply Hs; left|].
  apply stage_resume_spec in Hst as ((Hdisk & _) & _).
  split_and!; [congruence| |].
  - intros s1 Hin. apply elem_of_cons in Hin as [->|Hin]; [done|].
    apply Hs. by right.
  - intros cp Hin. rewrite fmap_cons, Hcp. by apply Hc.
Qed.

Lemma stage_ok_resume_resolves (p : list CreatedPath) (s : StageState)
    (r : list StageState) (w : World) (u : unit) (w' : World) :
  stage_ok_inv env createdPaths w0 p (s :: r) w →
  stage_resume env s w = (Ok (inr u), w') →
  stage_ok_inv env createdPaths w0 p r w'.
Proof.
  intros (Hd & Hs & Hc) Hst.
  pose proof (stage_resume_ok _ _ _ _ Hst) as Hok. cbn in Hok.
  rewrite Hd in Hok. specialize (Hok (Hs s (list_elem_of_here _ _))).
  apply stage_resume_spec in Hst as ((Hdisk & _) & _).
  split_and!; [congruence| |].
  - intros s1 Hin. apply Hs. by right.
  - intros cp Hin. destruct (Hc cp Hin) as [H|[H|H]].
    + by left.
    + right. by left.
    + rewrite fmap_cons in H. apply elem_of_cons in H as [->|H]; [by left|].
      right. by right.
Qed.

Lemma stage_all_ok (order : list nat) (w' : World) (u : unit) :
  stage_all env createdPaths order w0 = (Ok u, w') →
  ∀ cp, cp ∈ createdPaths → ¬ action_fails env (disk w0) cp.
Proof.
  intros H. pose proof (stage_all_run createdPaths order w0) as Hrun.
  rewrite H in Hrun.
  assert (Hnever : ∀ t p r w u1 w1,
            stage_ok_inv env createdPaths w0 (t :: p) r w →
            stage_start env t w = (Ok (inr u1), w1) →
            stage_ok_inv env createdPaths w0 p r w1).
  { intros t p r w1 u1 w2 _ Hst.
    apply stage_start_spec in Hst as (_ & [(Hres & _)|([Hres|[e Hres]] & _)]);
      discriminate. }
  assert (Hinit : stage_ok_inv env createdPaths w0 createdPaths [] w0).
  { split_and!; [done| |].
    - intros s Hin. by apply elem_of_nil in Hin.
    - intros cp Hin. right. by left. }
  pose proof (AsyncFacts.run_invariant (stage_start env) (stage_resume env)
                NumConcurrentBuilds (stage_ok_inv env createdPaths w0)
                (λ _, True) stage_ok_inv_perm stage_ok_start Hnever
                (λ _ _ _ _ _ _ _ _, I)
                stage_ok_resume_suspends stage_ok_resume_resolves
                (λ _ _ _ _ _ _ _ _, I)
                _ _ _ _ _ (Ok u) w' Hinit Hrun) as (_ & _ & Hc).
  intros cp Hin. destruct (Hc cp Hin) as [Hc1|[Hc1|Hc1]]; [done|..];
    by apply elem_of_nil in Hc1.
Qed.

End Ok.

Lemma stage_all_spec (createdPaths : list CreatedPath) (order : list nat)
    (w : World) (res : outcome unit) (w' : World) :
  stage_all env createdPaths order w = (res, w') →
  match res with
  | Ok _ => stage_inv createdPaths w [] [] w'
  | Throw _ => stage_rejected createdPaths w w'
  end.
Proof.
  intros H. pose proof (stage_all_run createdPaths order w) as Hrun.
  rewrite H in Hrun.
  eapply (AsyncFacts.run_invariant (stage_start env) (stage_resume env)
            NumConcurrentBuilds (stage_inv createdPaths w)
            (stage_rejected createdPaths w)); [..|exact Hrun].
  - apply stage_inv_perm.
  - apply stage_start_suspends.
  - intros t p r w1 u w2 _ Hst.
    apply stage_start_spec in Hst as (_ & [(Hres & _)|([Hres|[e Hres]] & _)]);
      discriminate.
  - apply stage_start_rejects.
  - apply stage_resume_suspends.
  - apply stage_resume_resolves.
  - apply stage_resume_rejects.
  - exists []. cbn. rewrite !app_nil_r. split_and!.
    + done.
    + done.
    + lia.
    + apply stage_frame_refl.
    + intros cp Hcp. by apply elem_of_nil in Hcp.
Qed.

Lemma submseteq_singleton_nonempty {A} (l : list A) (x : A) :
  l ⊆+ [x] → l ≠ [] → l = [x].
Proof.
  intros Hsub Hne. pose proof (submseteq_length _ _ Hsub) as Hlen.
  destruct l as [|y [|z l]]; [done| |cbn in Hlen; lia].
  assert (y ∈ [x]) as Hy.
  { eapply elem_of_submseteq; [|exact Hsub]. left. }
  apply list_elem_of_singleton in Hy. by subst.
Qed.

End WithEnv.

(** The prelude of [export] changes no file. *)
Lemma export_prelude_disk (env : Env) (w w1 : World)
    (res : outcome (option BuildManifest * list Route)) :
  export_prelude env w = (res, w1) → disk w1 = disk w.
Proof.
  unfold export_prelude, trigger, getExistingManifest, fileExists, readFile,
    mkdtempSync.
  intros H. unfold_m. split_matches; simplify_eq; cbn; done.
Qed.

(** *** Running the pass *)

Example stage_three_routes :
  let env := Demo.env [] Demo.no_failure [] in
  let cps := createdPath_of env <$> [Demo.home; Demo.about; Demo.stylesheet] in
  let r := stage_all env cps [] Demo.fresh_pod in
  fst r = Ok tt
  ∧ artifact_realPath <$> artifacts (snd r)
    = ["/pod/build/static/app.css"; "/pod/build/index.html";
       "/pod/build/about/index.html"]
  ∧ bar (snd r) = 3%nat
  ∧ staging (snd r) !! "/tmp/amagaki-build-a1b2c3/build/about/index.html"
    = Some "about us".
Proof. vm_compute. repeat split. Qed.

Example stage_broken_route :
  let env := Demo.env [] Demo.no_failure [] in
  let cps := createdPath_of env <$> [Demo.home; Demo.broken] in
  let r := stage_all env cps [] Demo.fresh_pod in
  fst r = Throw (Raised "template error")
  ∧ List.length (artifacts (snd r)) = 2%nat
  ∧ bar (snd r) = 2%nat.
Proof. vm_compute. repeat split. Qed.

End StagingFacts.

(* ===================================================================== *)
(** ** The hash, stat and move pass                                       *)
(* ===================================================================== *)

Module MoveFacts.
Import Builder Props MFacts.
Import StagingFacts.

(** *** Lists of calls *)

Lemma hashed_before_moved_nil : hashed_before_moved [].
Proof. intros j b a [H|H]; by rewrite lookup_nil in H. Qed.

Lemma hashed_before_moved_app_other (ops new : list Op) :
  hashed_before_moved ops →
  Forall (λ op, is_move op = false) new →
  hashed_before_moved (ops ++ new).
Proof.
  intros Hops Hnew j b a Hj.
  destruct (decide (j < List.length ops)%nat) as [Hlt|Hge].
  - rewrite !lookup_app_l in Hj by done.
    destruct (Hops j b a Hj) as (i & Hi & Hhash).
    exists i. split; [done|]. rewrite lookup_app_l by lia. done.
  - exfalso. rewrite !lookup_app_r in Hj by lia.
    rewrite Forall_lookup in Hnew.
    destruct Hj as [Hj|Hj]; by specialize (Hnew _ _ Hj).
Qed.

Lemma hashed_before_moved_snoc (ops : list Op) (before after : string) (op : Op) :
  hashed_before_moved ops →
  OpHash before ∈ ops →
  op = OpRename before after ∨ op = OpCopy before after →
  hashed_before_moved (ops ++ [op]).
Proof.
  intros Hops Hin Hop j b a Hj.
  destruct (decide (j < List.length ops)%nat) as [Hlt|Hge].
  - rewrite !lookup_app_l in Hj by done.
    destruct (Hops j b a Hj) as (i & Hi & Hhash).
    exists i. split; [done|]. rewrite lookup_app_l by lia. done.
  - rewrite !lookup_app_r in Hj by lia.
    destruct (j - List.length ops)%nat as [|n] eqn:Hn; [|by destruct Hj].
    cbn in Hj.
    assert (b = before) as ->.
    { destruct Hop as [->| ->], Hj as [Hj|Hj]; congruence. }
    apply list_elem_of_lookup in Hin as [i Hi].
    exists i. split.
    + apply lookup_lt_Some in Hi. lia.
    + by rewrite lookup_app_l by (by eapply lookup_lt_Some).
Qed.

Lemma move_frame_refl (cps : list CreatedPath) (w : World) : move_frame cps w w.
Proof. split_and!; try done. intros ps Hps. by left. Qed.

Lemma move_frame_trans (cps : list CreatedPath) (w1 w2 w3 : World) :
  move_frame cps w1 w2 → move_frame cps w2 w3 → move_frame cps w1 w3.
Proof.
  intros (A1 & A2 & A3 & A4 & A5 & A6) (B1 & B2 & B3 & B4 & B5 & B6).
  split_and!; try congruence.
  - intros q Hq. apply B1, A1, Hq.
  - intros q Hq. rewrite B2, A2; done.
  - intros ps Hps. destruct (B6 ps Hps) as [H|H]; [by apply A6|by right].
Qed.

Section WithEnv.

Variable env : Env.
Variable showMoveProgressBar : bool.

(** *** One step of a move task *)

Lemma move_resume_spec (s : MoveState) (w w' : World)
    (res : outcome (MoveState + unit)) :
  move_resume env showMoveProgressBar s w = (res, w') →
  artifacts w' = artifacts w ∧ bar w' = bar w ∧ console w' = console w
  ∧ (manifest_files w' = manifest_files w
     ∨ ∃ sha, manifest_files w'
              = manifest_files w ++ [{| path := normalPath (move_cp s); sha := sha |}])
  ∧ ∃ new, trace w' = trace w ++ new
    ∧ match s with
      | AwaitHash cp =>
          new = [OpHash (tempPath cp)] ∧ disk w' = disk w
          ∧ (res = Ok (inl (AwaitStat cp)) ∨ ∃ err, res = Throw err)
      | AwaitStat cp =>
          (new = [OpStat (tempPath cp)]
           ∨ new = [OpStat (tempPath cp); OpEnsureDir (dirname env (realPath cp))])
          ∧ disk w' = disk w
          ∧ (res = Ok (inl (AwaitRename cp)) ∨ ∃ err, res = Throw err)
      | AwaitRename cp =>
          new = [OpRename (tempPath cp) (realPath cp)]
          ∧ (disk w' = disk w
             ∨ ∃ content, disk w' = <[realPath cp := content]> (disk w))
          ∧ (res = Ok (inr tt) ∨ res = Ok (inl (AwaitFallbackCopy cp))
             ∨ ∃ err, res = Throw err)
      | AwaitFallbackCopy cp =>
          new = [OpCopy (tempPath cp) (realPath cp)]
          ∧ (disk w' = disk w
             ∨ ∃ content, disk w' = <[realPath cp := content]> (disk w))
          ∧ (res = Ok (inr tt) ∨ ∃ err, res = Throw err)
      end.
Proof.
  unfold move_resume, move_done, getFileSha, stat_size, ensureDirectoryExists,
    rename, copyFile_to_disk.
  intros H. destruct s as [cp|cp|cp|cp]; destruct showMoveProgressBar;
    unfold_m; split_matches; simplify_eq; cbn;
    (split_and!; [done|done|done|eauto|]);
    rewrite <- ?app_assoc; cbn [app];
    eexists; (split; [reflexivity|]); split_and!; eauto.
Qed.

Lemma move_start_spec (cp : CreatedPath) (w w' : World)
    (res : outcome (MoveState + unit)) :
  move_start cp w = (res, w') → res = Ok (inl (AwaitHash cp)) ∧ w' = w.
Proof. unfold move_start, ret. by intros [= <- <-]. Qed.

(** *** The invariant of the pass *)

Section Pass.

Variable createdPaths : list CreatedPath.
Variable w0 : World.

Lemma move_inv_perm (p : list CreatedPath) (r r' : list MoveState) (w : World) :
  r ≡ₚ r' → move_inv createdPaths w0 p r w → move_inv createdPaths w0 p r' w.
Proof.
  intros Hr ((ops & Ht & Hk & Hh & Hd) & Hf & Hp & Hrun).
  split_and!; try done.
  - exists ops. split_and!; try done. intros cp Hcp. apply Hd. by rewrite Hr.
  - intros s Hs. apply Hrun. by rewrite Hr.
Qed.

(** What one resumption keeps, whatever its result. *)
Lemma move_resume_keeps (p : list CreatedPath) (s : MoveState)
    (r : list MoveState) (w w' : World) (res : outcome (MoveState + unit)) :
  move_inv createdPaths w0 p (s :: r) w →
  move_resume env showMoveProgressBar s w = (res, w') →
  (∃ ops, trace w' = trace w0 ++ ops
          ∧ Forall (λ op, is_move_op op = true) ops
          ∧ hashed_before_moved ops
          ∧ OpHash (tempPath (move_cp s)) ∈ ops
          ∧ ∀ cp, cp ∈ omap hashed r → OpHash (tempPath cp) ∈ ops)
  ∧ move_frame createdPaths w0 w'
  ∧ match res with
    | Ok (inl s') => move_cp s' = move_cp s ∧ s' ≠ AwaitHash (move_cp s)
    | _ => True
    end.
Proof.
  intros ((ops & Ht & Hk & Hh & Hd) & Hf & Hp & Hrun) Hres.
  assert (Hcp : move_cp s ∈ createdPaths) by (apply Hrun; left).
  assert (Hrest : ∀ cp, cp ∈ omap hashed r → OpHash (tempPath cp) ∈ ops).
  { intros cp Hin. apply Hd. cbn [omap list_omap].
    destruct (hashed s); [by right|done]. }
  apply move_resume_spec in Hres as (Ha & Hb & Hc & Hman & new & Hnew & Hs).
  assert (Hfiles : ∀ ps, ps ∈ manifest_files w' →
            ps ∈ manifest_files w0 ∨ path ps ∈ normalPath <$> createdPaths).
  { destruct Hf as (_ & _ & _ & _ & _ & F6). intros ps Hps.
    destruct Hman as [Hman|[sha Hman]]; rewrite Hman in Hps; [by apply F6|].
    apply elem_of_app in Hps as [Hps|Hps]; [by apply F6|].
    apply list_elem_of_singleton in Hps as ->. right. cbn.
    by apply list_elem_of_fmap_2. }
  assert (Hins : ∀ content,
            disk w' = <[realPath (move_cp s) := content]> (disk w) →
            move_frame createdPaths w0 w').
  { intros content Hdisk. destruct Hf as (F1 & F2 & F3 & F4 & F5 & F6).
    split_and!; try congruence; try done.
    - intros q Hq. rewrite Hdisk.
      destruct (decide (realPath (move_cp s) = q)) as [->|Hne].
      + rewrite lookup_insert_eq. eauto.
      + rewrite lookup_insert_ne by done. by apply F1.
    - intros q Hq. rewrite Hdisk, lookup_insert_ne; [by apply F2|].
      intros <-. apply Hq. by apply list_elem_of_fmap_2. }
  assert (Hsame : disk w' = disk w → move_frame createdPaths w0 w').
  { intros Hdisk. destruct Hf as (F1 & F2 & F3 & F4 & F5 & F6).
    split_and!; try congruence; try done.
    - intros q Hq. rewrite Hdisk. by apply F1.
    - intros q Hq. rewrite Hdisk. by apply F2. }
  destruct s as [cp|cp|cp|cp]; cbn [move_cp hashed] in *.
  - (* the hash *)
    destruct Hs as (-> & Hdisk & Hr). split_and!.
    + exists (ops ++ [OpHash (tempPath cp)]). split_and!.
      * by rewrite Hnew, Ht, app_assoc.
      * apply Forall_app. split; [done|]. by repeat constructor.
      * apply hashed_before_moved_app_other; [done|]. by repeat constructor.
      * apply elem_of_app. right. left.
      * intros cp' Hin. apply elem_of_app. left. by apply Hrest.
    + by apply Hsame.
    + destruct Hr as [->|[e ->]]; [|done]. done.
  - (* the size *)
    assert (Hhashed : OpHash (tempPath cp) ∈ ops) by (apply Hd; left).
    destruct Hs as (Hn & Hdisk & Hr). split_and!.
    + exists (ops ++ new). split_and!.
      * by rewrite Hnew, Ht, app_assoc.
      * apply Forall_app. split; [done|].
        destruct Hn as [->| ->]; by repeat constructor.
      * apply hashed_before_moved_app_other; [done|].
        destruct Hn as [->| ->]; by repeat constructor.
      * apply elem_of_app. by left.
      * intros cp' Hin. apply elem_of_app. left. by apply Hrest.
    + by apply Hsame.
    + destruct Hr as [->|[e ->]]; [|done]. done.
  - (* the rename *)
    assert (Hhashed : OpHash (tempPath cp) ∈ ops) by (apply Hd; left).
    destruct Hs as (-> & Hdisk & Hr). split_and!.
    + exists (ops ++ [OpRename (tempPath cp) (realPath cp)]). split_and!.
      * by rewrite Hnew, Ht, app_assoc.
      * apply Forall_app. split; [done|]. by repeat constructor.
      * eapply hashed_before_moved_snoc; [done|exact Hhashed|by left].
      * apply elem_of_app. by left.
      * intros cp' Hin. apply elem_of_app. left. by apply Hrest.
    + destruct Hdisk as [Hdisk|[content Hdisk]]; [by apply Hsame|by eapply Hins].
    + destruct Hr as [->|[->|[e ->]]]; done.
  - (* the copy that replaces a rename across devices *)
    assert (Hhashed : OpHash (tempPath cp) ∈ ops) by (apply Hd; left).
    destruct Hs as (-> & Hdisk & Hr). split_and!.
    + exists (ops ++ [OpCopy (tempPath cp) (realPath cp)]). split_and!.
      * by rewrite Hnew, Ht, app_assoc.
      * apply Forall_app. split; [done|]. by repeat constructor.
      * eapply hashed_before_moved_snoc; [done|exact Hhashed|by right].
      * apply elem_of_app. by left.
      * intros cp' Hin. apply elem_of_app. left. by apply Hrest.
    + destruct Hdisk as [Hdisk|[content Hdisk]]; [by apply Hsame|by eapply Hins].
    + destruct Hr as [->|[e ->]]; done.
Qed.

Lemma move_start_suspends (t : CreatedPath) (p : list CreatedPath)
    (r : list MoveState) (w : World) (s : MoveState) (w' : World) :
  move_inv createdPaths w0 (t :: p) r w →
  move_start t w = (Ok (inl s), w') →
  move_inv createdPaths w0 p (s :: r) w'.
Proof.
  intros ((ops & Ht & Hk & Hh & Hd) & Hf & Hp & Hrun) Hst.
  apply move_start_spec in Hst as [[= ->] ->]. split_and!; try done.
  - by exists ops.
  - intros cp Hcp. apply Hp. by right.
  - intros s Hs. apply elem_of_cons in Hs as [->|Hs]; [|by apply Hrun].
    cbn. apply Hp. left.
Qed.

Lemma move_resume_suspends (p : list CreatedPath) (s : MoveState)
    (r : list MoveState) (w : World) (s' : MoveState) (w' : World) :
  move_inv createdPaths w0 p (s :: r) w →
  move_resume env showMoveProgressBar s w = (Ok (inl s'), w') →
  move_inv createdPaths w0 p (s' :: r) w'.
Proof.
  intros HI Hres. pose proof HI as (_ & _ & Hp & Hrun).
  destruct (move_resume_keeps _ _ _ _ _ _ HI Hres)
    as ((ops & Ht & Hk & Hh & Hs & Hd) & Hf & Hcp & Hne).
  split_and!; try done.
  - exists ops. split_and!; try done. intros cp Hin.
    cbn [omap list_omap] in Hin. destruct (hashed s') as [cp'|] eqn:E.
    + assert (cp' = move_cp s) as ->.
      { rewrite <- Hcp. destruct s'; cbn in E; cbn; congruence. }
      apply elem_of_cons in Hin as [->|Hin]; [done|by apply Hd].
    + by apply Hd.
  - intros s1 Hs1. apply elem_of_cons in Hs1 as [->|Hs1].
    + rewrite Hcp. apply Hrun. left.
    + apply Hrun. by right.
Qed.

Lemma move_resume_resolves (p : list CreatedPath) (s : MoveState)
    (r : list MoveState) (w : World) (u : unit) (w' : World) :
  move_inv createdPaths w0 p (s :: r) w →
  move_resume env showMoveProgressBar s w = (Ok (inr u), w') →
  move_inv createdPaths w0 p r w'.
Proof.
  intros HI Hres. pose proof HI as (_ & _ & Hp & Hrun).
  destruct (move_resume_keeps _ _ _ _ _ _ HI Hres)
    as ((ops & Ht & Hk & Hh & Hs & Hd) & Hf & _).
  split_and!; try done.
  - by exists ops.
  - intros s1 Hs1. apply Hrun. by right.
Qed.

Lemma move_resume_rejects (p : list CreatedPath) (s : MoveState)
    (r : list MoveState) (w : World) (err : Error) (w' : World) :
  move_inv createdPaths w0 p (s :: r) w →
  move_resume env showMoveProgressBar s w = (Throw err, w') →
  move_inv createdPaths w0 [] [] w'.
Proof.
  intros HI Hres.
  destruct (move_resume_keeps _ _ _ _ _ _ HI Hres)
    as ((ops & Ht & Hk & Hh & Hs & Hd) & Hf & _).
  split_and!; try done.
  - exists ops. split_and!; try done. intros cp Hin. by apply elem_of_nil in Hin.
  - intros cp Hin. by apply elem_of_nil in Hin.
  - intros s1 Hin. by apply elem_of_nil in Hin.
Qed.

End Pass.

(** *** The pass as a whole *)

Lemma move_left_pos (s : MoveState) : (0 < move_left s)%nat.
Proof. destruct s; cbn; lia. Qed.

Lemma move_start_bound (t : CreatedPath) (w : World) (s : MoveState) (w' : World) :
  move_start t w = (Ok (inl s), w') → (move_left s ≤ 4)%nat.
Proof. intros _. destruct s; cbn; lia. Qed.

Lemma move_resume_decreases (s : MoveState) (w : World) (s' : MoveState)
    (w' : World) :
  move_resume env showMoveProgressBar s w = (Ok (inl s'), w') →
  (move_left s' < move_left s)%nat.
Proof.
  intros H. apply move_resume_spec in H as (_ & _ & _ & _ & new & _ & Hs).
  destruct s as [cp|cp|cp|cp].
  - destruct Hs as (_ & _ & [[= ->]|[e [=]]]). cbn. lia.
  - destruct Hs as (_ & _ & [[= ->]|[e [=]]]). cbn. lia.
  - destruct Hs as (_ & _ & [[=]|[[= ->]|[e [=]]]]). cbn. lia.
  - destruct Hs as (_ & _ & [[=]|[e [=]]]).
Qed.

(** The pass settles, for every completion order. *)
Lemma move_all_run (createdPaths : list CreatedPath) (order : list nat) (w : World) :
  Async.run move_start (move_resume env showMoveProgressBar) NumConcurrentCopies
    (Async.turns 4 createdPaths) createdPaths [] order w
  = Some (move_all env showMoveProgressBar createdPaths order w).
Proof.
  unfold move_all.
  apply (AsyncFacts.eachLimit_run move_start (move_resume env showMoveProgressBar)
           NumConcurrentCopies 4 move_left).
  - unfold NumConcurrentCopies. lia.
  - apply move_left_pos.
  - apply move_start_bound.
  - apply move_resume_decreases.
Qed.

Lemma move_all_spec (createdPaths : list CreatedPath) (order : list nat)
    (w : World) (res : outcome unit) (w' : World) :
  move_all env showMoveProgressBar createdPaths order w = (res, w') →
  move_inv createdPaths w [] [] w'.
Proof.
  intros H. pose proof (move_all_run createdPaths order w) as Hrun.
  rewrite H in Hrun.
  pose proof (AsyncFacts.run_invariant move_start
                (move_resume env showMoveProgressBar)
                NumConcurrentCopies (move_inv createdPaths w)
                (move_inv createdPaths w [] [])) as Hinv.
  specialize (Hinv (move_inv_perm createdPaths w)
                   (move_start_suspends createdPaths w)).
  assert (match res with
          | Ok _ => move_inv createdPaths w [] [] w'
          | Throw _ => move_inv createdPaths w [] [] w'
          end) as Hm; [|by destruct res].
  eapply Hinv; [..|exact Hrun].
  - intros t p r w1 u w2 _ Hst. by apply move_start_spec in Hst as [[=] _].
  - intros t p r w1 e w2 _ Hst. by apply move_start_spec in Hst as [[=] _].
  - apply move_resume_suspends.
  - apply move_resume_resolves.
  - apply move_resume_rejects.
  - split_and!.
    + exists []. rewrite app_nil_r. split_and!; try done.
      * apply hashed_before_moved_nil.
      * intros cp Hin. by apply elem_of_nil in Hin.
    + apply move_frame_refl.
    + done.
    + intros s Hin. by apply elem_of_nil in Hin.
Qed.

End WithEnv.


End MoveFacts.

(* ===================================================================== *)
(** ** [export] as a whole                                                *)
(* ===================================================================== *)

Module ExportFacts.
Import Builder Props Steps MFacts.
Import StagingFacts MoveFacts.

Lemma only_ops_mono (a b : Op → bool) (w w' : World) :
  (∀ op, a op = true → b op = true) → only_ops a w w' → only_ops b w w'.
Proof.
  intros Hab (ops & Ht & Hf). exists ops. split; [done|].
  eapply Forall_impl; [exact Hf|]. intros op. apply Hab.
Qed.

Ltac trace_goal :=
  unfold only_ops; cbn; rewrite <- ?app_assoc; cbn [app];
  eexists; (split; [reflexivity|]); by repeat constructor.

Section WithEnv.

Variable env : Env.

(** *** The prelude *)

Lemma export_prelude_spec (w w1 : World)
    (res : outcome (option BuildManifest * list Route)) :
  export_prelude env w = (res, w1) →
  disk w1 = disk w ∧ staging w1 = staging w ∧ console w1 = console w
  ∧ only_ops is_prelude_op w w1
  ∧ ∀ pre, res = Ok pre →
      router_routes env = Ok (snd pre)
      ∧ artifacts w1 = [] ∧ bar w1 = 0%nat ∧ manifest_files w1 = [].
Proof.
  unfold export_prelude, trigger, getExistingManifest, fileExists, readFile,
    mkdtempSync.
  intros H. unfold_m. split_matches; simplify_eq; cbn;
    (split_and!; [done|done|done|trace_goal|]);
    intros pre Hpre; simplify_eq; cbn; done.
Qed.

(** The steps before the routes, one by one: which of them fails, and the
    calls issued when none does. *)
Lemma export_prelude_outcome (w w1 : World)
    (res : outcome (option BuildManifest * list Route)) :
  export_prelude env w = (res, w1) →
  (∃ ops, trace w1 = trace w ++ OpHook "beforeBuild" :: ops)
  ∧ match prelude_error env (disk w) with
    | Some err => res = Throw err
    | None =>
        (∃ pre, res = Ok pre ∧ router_routes env = Ok (snd pre))
        ∧ trace w1 = trace w ++ prelude_calls env (disk w)
    end.
Proof.
  unfold export_prelude, trigger, getExistingManifest, fileExists, readFile,
    mkdtempSync, prelude_error, manifest_error, prelude_calls, io_error.
  set (p := getAbsoluteFilePath env (manifestPodPath env)).
  intros H. unfold_m. cbn in H.
  destruct (hook_fails env "beforeBuild") as [what|].
  { simplify_eq. cbn. split; [by exists []|done]. }
  destruct (disk w !! p) as [content|] eqn:Hd; cbn in H.
  - rewrite bool_decide_eq_true_2 in H by eauto.
    rewrite bool_decide_eq_true_2 by eauto. cbn in H.
    destruct (io_fails env (OpRead p)) as [[n c]|]; cbn in H.
    { simplify_eq. cbn. rewrite <- ?app_assoc. by split; [eexists|]. }
    rewrite Hd in H.
    destruct (JSON_parse env content) as [m|err]; cbn in H.
    2:{ simplify_eq. cbn. rewrite <- ?app_assoc. by split; [eexists|]. }
    destruct (io_fails env (OpMkdtemp (tempDirRoot env))) as [[n c]|]; cbn in H.
    { simplify_eq. cbn. rewrite <- ?app_assoc. by split; [eexists|]. }
    destruct (router_routes env) as [routes|err]; cbn in H; simplify_eq; cbn;
      rewrite <- ?app_assoc; (split; [by eexists|]); [|done].
    split; [by eexists|done].
  - rewrite bool_decide_eq_false_2 in H by (rewrite Hd; by intros [? ?]).
    rewrite bool_decide_eq_false_2 by (by intros [? ?]). cbn in H.
    destruct (io_fails env (OpMkdtemp (tempDirRoot env))) as [[n c]|]; cbn in H.
    { simplify_eq. cbn. rewrite <- ?app_assoc. by split; [eexists|]. }
    destruct (router_routes env) as [routes|err]; cbn in H; simplify_eq; cbn;
      rewrite <- ?app_assoc; (split; [by eexists|]); [|done].
    split; [by eexists|done].
Qed.

(** *** Building *)

Lemma export_build_unfold (options : option ExportOptions) (routes : list Route) :
  export_build env options routes
  = let sel := select_routes env options routes in
    if bool_decide (List.length sel = 0%nat) then
      throw (NothingToBuild (pod_root env))
    else
      let createdPaths := createdPath_of env <$> sel in
      stage_all env createdPaths (build_completion_order env) >>
      let* w := get_world in
      let showMoveProgressBar :=
        bool_decide (ShowMoveProgressBarThreshold ≤ List.length (artifacts w))%nat in
      move_all env showMoveProgressBar createdPaths (move_completion_order env) >>
      modify (set_buildMetrics (set_memoryUsage (heapUsed env))) >>
      deleteDirectoryRecursive env (tempDirRoot env) >>
      modify (set_buildMetrics (count_missing env)) >>
      let* w := get_world in
      ret ({| branch := None; built := built_date env; commit := None;
              files := manifest_files w |},
           buildMetrics w).
Proof. reflexivity. Qed.

Lemma build_frame_of_stage (cps : list CreatedPath) (w w' : World) :
  stage_frame w w' → build_frame cps w w'.
Proof.
  intros (Hd & _ & _ & _ & Hc & Ho). split_and!.
  - intros q. by rewrite Hd.
  - intros q _. by rewrite Hd.
  - done.
  - eapply only_ops_mono; [|exact Ho]. intros op Hop.
    unfold is_build_op. by rewrite Hop.
Qed.

Lemma build_frame_of_move (cps : list CreatedPath) (w w' : World) :
  move_inv cps w [] [] w' → build_frame cps w w'.
Proof.
  intros ((ops & Ht & Hk & _) & (F1 & F2 & _ & _ & F5 & _) & _). split_and!; try done.
  exists ops. split; [done|]. eapply Forall_impl; [exact Hk|].
  intros op Hop. unfold is_build_op. cbn in Hop. rewrite Hop.
  by rewrite orb_true_r.
Qed.

Lemma build_frame_trans (cps : list CreatedPath) (w1 w2 w3 : World) :
  build_frame cps w1 w2 → build_frame cps w2 w3 → build_frame cps w1 w3.
Proof.
  intros (A1 & A2 & A3 & A4) (B1 & B2 & B3 & B4). split_and!.
  - intros q Hq. by apply B1, A1.
  - intros q Hq. rewrite B2, A2; done.
  - congruence.
  - by eapply only_ops_trans.
Qed.

(** The tail of [export_build], after the second pass. *)
Lemma export_build_tail_spec (cps : list CreatedPath) (w w' : World)
    (res : outcome (BuildManifest * BuildMetrics)) :
  (modify (set_buildMetrics (set_memoryUsage (heapUsed env))) >>
   deleteDirectoryRecursive env (tempDirRoot env) >>
   modify (set_buildMetrics (count_missing env)) >>
   let* w := get_world in
   ret ({| branch := None; built := built_date env; commit := None;
           files := manifest_files w |},
        buildMetrics w)) w = (res, w') →
  build_frame cps w w'.
Proof.
  unfold deleteDirectoryRecursive. intros H. unfold_m.
  split_matches; simplify_eq; unfold build_frame; cbn;
    (split_and!; [done|done|done|trace_goal]).
Qed.

Lemma export_build_spec (options : option ExportOptions) (routes : list Route)
    (w w' : World) (res : outcome (BuildManifest * BuildMetrics)) :
  export_build env options routes w = (res, w') →
  build_frame (createdPath_of env <$> select_routes env options routes) w w'
  ∧ (select_routes env options routes = [] →
       res = Throw (NothingToBuild (pod_root env)) ∧ w' = w).
Proof.
  rewrite export_build_unfold. cbv zeta.
  set (sel := select_routes env options routes).
  set (cps := createdPath_of env <$> sel).
  intros H. case_bool_decide as Hlen.
  - unfold throw in H. injection H as <- <-. split; [|done].
    apply build_frame_of_stage, stage_frame_refl.
  - split; [|intros Hsel; by rewrite Hsel in Hlen].
    unfold bind at 1 in H.
    destruct (stage_all env cps (build_completion_order env) w)
      as [r1 w1] eqn:Hs.
    pose proof (stage_all_spec env _ _ _ _ _ Hs) as Hspec.
    assert (Hf1 : build_frame cps w w1).
    { apply build_frame_of_stage. destruct r1.
      - by destruct Hspec as (l & _ & _ & _ & Hfr & _).
      - by destruct Hspec as (l & _ & _ & _ & _ & Hfr). }
    destruct r1 as [[]|err]; [|by injection H as <- <-].
    unfold bind at 1, get_world in H. unfold bind at 1 in H.
    set (show := bool_decide
                   (ShowMoveProgressBarThreshold ≤ List.length (artifacts w1))%nat)
      in H.
    destruct (move_all env show cps (move_completion_order env) w1)
      as [r2 w2] eqn:Hm.
    pose proof (move_all_spec env _ _ _ _ _ _ Hm) as Hspec2.
    assert (Hf2 : build_frame cps w1 w2) by (by apply build_frame_of_move).
    destruct r2 as [[]|err].
    + apply export_build_tail_spec with (cps := cps) in H.
      eapply build_frame_trans; [|exact H].
      by eapply build_frame_trans.
    + injection H as <- <-. by eapply build_frame_trans.
Qed.

(** *** The paths of the new manifest *)

Lemma export_build_files (options : option ExportOptions) (routes : list Route)
    (w w' : World) (bm : BuildManifest) (mt : BuildMetrics) :
  export_build env options routes w = (Ok (bm, mt), w') →
  ∀ ps, ps ∈ files bm →
    ps ∈ manifest_files w
    ∨ path ps ∈ normalPath <$> (createdPath_of env <$> select_routes env options routes).
Proof.
  rewrite export_build_unfold. cbv zeta.
  set (cps := createdPath_of env <$> select_routes env options routes).
  case_bool_decide as Hlen; [discriminate|]. intros H.
  apply bind_Ok_inv in H as ([] & w1 & Hs & H1).
  apply stage_all_spec in Hs as (l & _ & _ & _ & (_ & Hm1 & _) & _).
  apply bind_Ok_inv in H1 as (w1' & w1'' & Hg & H2).
  unfold get_world in Hg. injection Hg as <- <-.
  apply bind_Ok_inv in H2 as ([] & w2 & Hm & H3).
  apply move_all_spec in Hm as (_ & (_ & _ & _ & _ & _ & Hm2) & _).
  assert (files bm = manifest_files w2) as ->.
  { unfold deleteDirectoryRecursive in H3. unfold_m.
    split_matches; by simplify_eq. }
  intros ps Hps. destruct (Hm2 ps Hps) as [Hin|Hin]; [left; congruence|by right].
Qed.

Lemma export_finish_manifest (options : option ExportOptions)
    (P : option BuildManifest) (bm : BuildManifest) (mt : BuildMetrics)
    (w w' : World) (result : BuildResult) :
  export_finish env options P bm mt w = (Ok result, w') →
  manifest result = bm
  ∧ diff result = Diff.cleanOutputUsingManifests P bm options.
Proof.
  unfold export_finish, export_after_write. intros H.
  apply bind_Ok_inv in H as ([] & w1 & _ & H1).
  apply bind_Ok_inv in H1 as ([] & w2 & _ & H2).
  apply bind_Ok_inv in H2 as ([] & w3 & _ & H3).
  apply bind_Ok_inv in H3 as ([] & w4 & _ & H4).
  unfold ret in H4. by injection H4 as <- <-.
Qed.

(** Every path of the manifest that [export] returns is the normalised URL
    path of a selected route, so none is a name that objects inherit. *)
Lemma export_manifest_paths (options : option ExportOptions) (w w' : World)
    (result : BuildResult) :
  export env options w = (Ok result, w') →
  ∀ ps, ps ∈ files (manifest result) →
    (∃ url, path ps = Path.normalizePath url) ∧ Js.inherited (path ps) = false.
Proof.
  unfold export. intros H.
  apply bind_Ok_inv in H as ([P routes] & w1 & Hpre & H1).
  apply bind_Ok_inv in H1 as ([bm mt] & w2 & Hbuild & H2). cbn [fst snd] in *.
  apply export_finish_manifest in H2 as [-> _].
  apply export_prelude_spec in Hpre as (_ & _ & _ & _ & Hpre).
  destruct (Hpre _ eq_refl) as (_ & _ & _ & Hfiles).
  intros ps Hps.
  destruct (export_build_files _ _ _ _ _ _ Hbuild ps Hps) as [Hin|Hin].
  - rewrite Hfiles in Hin. by apply elem_of_nil in Hin.
  - apply list_elem_of_fmap in Hin as (cp & -> & Hcp).
    apply list_elem_of_fmap in Hcp as (r & -> & _). cbn. split.
    + by exists (urlPath r).
    + apply DiffFacts.normalizePath_not_inherited.
Qed.

(** *** Writing the manifest and finishing *)

Lemma write_manifest_and_metrics_spec (bm : BuildManifest) (mt : BuildMetrics)
    (w w' : World) (res : outcome unit) :
  write_manifest_and_metrics env bm mt w = (res, w') →
  (∀ q, is_Some (disk w !! q) → is_Some (disk w' !! q))
  ∧ console w' = console w
  ∧ only_ops is_finish_op w w'
  ∧ (res = Ok tt →
       disk w' !! getAbsoluteFilePath env (metricsPodPath env)
       = Some (stringify_metrics env mt)
       ∧ (getAbsoluteFilePath env (manifestPodPath env)
          ≠ getAbsoluteFilePath env (metricsPodPath env) →
          disk w' !! getAbsoluteFilePath env (manifestPodPath env)
          = Some (stringify_manifest env bm))).
Proof.
  unfold write_manifest_and_metrics, writeFile_to_disk, ensureDirectoryExists.
  intros H. unfold_m. split_matches; simplify_eq; cbn;
    (split_and!; [|done|trace_goal|]);
    try (intros q Hq; rewrite ?lookup_insert; repeat case_decide; eauto);
    try (intros [=]).
  split.
  - by rewrite lookup_insert_eq.
  - intros Hne. rewrite lookup_insert_ne by done. by rewrite lookup_insert_eq.
Qed.

Lemma export_after_write_incremental_spec (options : option ExportOptions)
    (P : option BuildManifest) (bm : BuildManifest) (mt : BuildMetrics)
    (w w' : World) (res : outcome BuildResult) :
  patterns_truthy options = true →
  export_after_write env options P bm mt w = (res, w') →
  disk w' = disk w
  ∧ only_ops is_finish_op w w'
  ∧ ∀ result, res = Ok result →
      diff result = Diff.cleanOutputUsingManifests P bm options.
Proof.
  intros Hp. unfold export_after_write, trigger. rewrite Hp. cbn [negb].
  intros H. unfold_m. split_matches; simplify_eq; cbn;
    (split_and!; [done|trace_goal|]);
    intros result Hr; by simplify_eq.
Qed.

Lemma export_finish_incremental_spec (options : option ExportOptions)
    (P : option BuildManifest) (bm : BuildManifest) (mt : BuildMetrics)
    (w w' : World) (res : outcome BuildResult) :
  patterns_truthy options = true →
  export_finish env options P bm mt w = (res, w') →
  (∀ q, is_Some (disk w !! q) → is_Some (disk w' !! q))
  ∧ only_ops is_finish_op w w'
  ∧ ∀ result, res = Ok result →
      diff result = Diff.cleanOutputUsingManifests P bm options.
Proof.
  intros Hp H. unfold export_finish, bind in H.
  destruct (write_manifest_and_metrics env bm mt w) as [r1 w1] eqn:Hw.
  apply write_manifest_and_metrics_spec in Hw as (W1 & W2 & W3 & _).
  destruct r1 as [[]|err].
  - apply export_after_write_incremental_spec in H as (A1 & A2 & A3); [|done].
    split_and!.
    + intros q Hq. rewrite A1. by apply W1.
    + by eapply only_ops_trans.
    + done.
  - injection H as <- <-. split_and!; try done.
Qed.

(** *** The artifacts and the first progress bar after staging *)

Lemma deleteOutputFiles_artifacts (paths : list string) (w w' : World)
    (res : outcome unit) :
  deleteOutputFiles env paths w = (res, w') →
  artifacts w' = artifacts w ∧ bar w' = bar w.
Proof.
  unfold deleteOutputFiles. revert w.
  induction paths as [|p paths IH]; intros w H.
  - cbn in H. unfold ret in H. by injection H as <- <-.
  - cbn [forEach] in H. unfold bind at 1 in H.
    destruct (deleteOutputFile env p w) as [r1 w1] eqn:H1.
    assert (Hstep : artifacts w1 = artifacts w ∧ bar w1 = bar w).
    { unfold deleteOutputFile, unlinkSync, pruneDirectory in H1. unfold_m.
      split_matches; simplify_eq; cbn; done. }
    destruct r1 as [[]|err].
    + apply IH in H as [-> ->]. done.
    + by injection H as <- <-.
Qed.

Lemma export_finish_artifacts (options : option ExportOptions)
    (P : option BuildManifest) (bm : BuildManifest) (mt : BuildMetrics)
    (w w' : World) (res : outcome BuildResult) :
  export_finish env options P bm mt w = (res, w') →
  artifacts w' = artifacts w ∧ bar w' = bar w.
Proof.
  unfold export_finish, export_after_write. intros H. unfold bind at 1 in H.
  destruct (write_manifest_and_metrics env bm mt w) as [r1 w1] eqn:H1.
  assert (Hw : artifacts w1 = artifacts w ∧ bar w1 = bar w).
  { unfold write_manifest_and_metrics, writeFile_to_disk, ensureDirectoryExists
      in H1.
    unfold_m. split_matches; simplify_eq; cbn; done. }
  destruct Hw as [Hw1 Hw2].
  destruct r1 as [[]|err]; [|by injection H as <- <-].
  unfold bind at 1 in H.
  destruct ((if negb (patterns_truthy options)
             then deleteOutputFiles env
                    (deletes (Diff.cleanOutputUsingManifests P bm options))
             else ret tt) w1) as [r2 w2] eqn:H2.
  assert (Hd : artifacts w2 = artifacts w1 ∧ bar w2 = bar w1).
  { destruct (negb (patterns_truthy options)).
    - by eapply deleteOutputFiles_artifacts.
    - unfold ret in H2. by injection H2 as <- <-. }
  destruct Hd as [Hd1 Hd2].
  destruct r2 as [[]|err]; [|injection H as <- <-; split; congruence].
  unfold trigger in H. unfold_m. split_matches; simplify_eq; cbn;
    split; congruence.
Qed.

(** [export_build] and its staging pass: a pass that rejects is where
    [export_build] ends; after a pass that resolves the artifacts and the
    first bar stay as they are. *)
Lemma export_build_staging (options : option ExportOptions) (routes : list Route)
    (w w' : World) (res : outcome (BuildManifest * BuildMetrics)) :
  let cps := createdPath_of env <$> select_routes env options routes in
  cps ≠ [] →
  export_build env options routes w = (res, w') →
  match stage_all env cps (build_completion_order env) w with
  | (Ok _, w1) => artifacts w' = artifacts w1 ∧ bar w' = bar w1
  | (Throw err, w1) => res = Throw err ∧ w' = w1
  end.
Proof.
  intros cps Hne. rewrite export_build_unfold. cbv zeta. fold cps.
  rewrite bool_decide_eq_false_2.
  2:{ intros Hlen. apply length_zero_iff_nil in Hlen. apply Hne. subst cps.
      by rewrite Hlen. }
  intros H. unfold bind at 1 in H.
  destruct (stage_all env cps (build_completion_order env) w) as [r1 w1].
  destruct r1 as [[]|err]; [|by injection H as <- <-].
  unfold bind at 1, get_world in H. unfold bind at 1 in H.
  set (show := bool_decide
                 (ShowMoveProgressBarThreshold ≤ List.length (artifacts w1))%nat)
    in H.
  destruct (move_all env show cps (move_completion_order env) w1)
    as [r2 w2] eqn:Hm.
  apply move_all_spec in Hm as (_ & (_ & _ & Ha & Hb & _) & _).
  destruct r2 as [[]|err]; [|injection H as <- <-; done].
  unfold deleteDirectoryRecursive in H. unfold_m.
  split_matches; simplify_eq; cbn; done.
Qed.

(** Once the first selected route has been started, the artifacts are no
    longer empty. *)
Lemma export_build_leaves_artifacts (options : option ExportOptions)
    (routes : list Route) (w w' : World)
    (res : outcome (BuildManifest * BuildMetrics)) :
  select_routes env options routes ≠ [] →
  export_build env options routes w = (res, w') →
  ∃ l, artifacts w' = artifacts w ++ l ∧ l ≠ [].
Proof.
  intros Hsel H.
  set (cps := createdPath_of env <$> select_routes env options routes).
  assert (Hne : cps ≠ []).
  { subst cps. by destruct (select_routes env options routes). }
  pose proof (export_build_staging options routes w w' res Hne H) as Hst.
  fold cps in Hst.
  destruct (stage_all env cps (build_completion_order env) w) as [r1 w1] eqn:Hs.
  apply stage_all_spec in Hs. destruct r1 as [[]|err].
  - destruct Hst as [Ha _]. destruct Hs as (l & Hl & Hp & _).
    exists l. split; [congruence|]. cbn in Hp. rewrite app_nil_r in Hp.
    intros ->. apply Permutation_nil_l in Hp. by destruct cps.
  - destruct Hst as [_ ->]. destruct Hs as (l & Hl & Hn & _). by exists l.
Qed.

(** *** Incremental mode *)

(** C2. In an export with [options.patterns] set, whatever its outcome: no
    file that was on disk before is missing afterwards, no [unlink] is
    issued, and the diff of a result that is returned has no delete. *)
Theorem incremental_export_deletes_nothing
    (options : option ExportOptions) (w : World) :
  patterns_truthy options = true →
  let r := export env options w in
  (∀ result, fst r = Ok result → deletes (diff result) = [])
  ∧ (∀ q, is_Some (disk w !! q) → is_Some (disk (snd r) !! q))
  ∧ only_ops is_not_unlink w (snd r).
Proof.
  intros Hp r. subst r. unfold export, bind.
  destruct (export_prelude env w) as [r0 w0] eqn:H0.
  apply export_prelude_spec in H0 as (P1 & _ & _ & P4 & _).
  assert (Q4 : only_ops is_not_unlink w w0).
  { eapply only_ops_mono; [|exact P4]. by intros []. }
  destruct r0 as [[P routes]|err]; cbn [fst snd].
  2:{ split_and!; [done| |done]. intros q. by rewrite P1. }
  destruct (export_build env options routes w0) as [r1 w1] eqn:H1.
  apply export_build_spec in H1 as ((B1 & _ & _ & B4) & _).
  assert (R4 : only_ops is_not_unlink w w1).
  { eapply only_ops_trans; [exact Q4|].
    eapply only_ops_mono; [|exact B4]. by intros []. }
  assert (R1 : ∀ q, is_Some (disk w !! q) → is_Some (disk w1 !! q)).
  { intros q Hq. apply B1. by rewrite P1. }
  destruct r1 as [[bm mt]|err]; cbn [fst snd].
  2:{ split_and!; done. }
  destruct (export_finish env options P bm mt w1) as [r2 w2] eqn:H2.
  apply export_finish_incremental_spec in H2 as (F1 & F2 & F3); [|done].
  cbn [fst snd]. split_and!.
  - intros result ->. rewrite (F3 result eq_refl).
    by apply DiffFacts.cleanOutputUsingManifests_incremental_no_deletes.
  - intros q Hq. by apply F1, R1.
  - eapply only_ops_trans; [exact R4|].
    eapply only_ops_mono; [|exact F2]. by intros [].
Qed.

(** *** No route to build *)

(** C6 (amended). When the pod has no route, or none passes the filter,
    [export] fails rather than returning, and no file of the pod, of the
    output directory or of staging has changed.  The [beforeBuild] hook has
    been called in every case.  When one of the steps before the routes
    fails (the hook, reading the previous manifest, creating the temporary
    directory), [export] fails with the error of that step; otherwise it
    fails with the "nothing to build" error, and by then it has issued
    exactly these calls: the hook, the look for the previous manifest, its
    reading if there is one, and the creation of the temporary
    directory. *)
Theorem export_of_no_route_fails_after_the_prelude
    (options : option ExportOptions) (w : World) (routes : list Route) :
  router_routes env = Ok routes →
  select_routes env options routes = [] →
  let manifestPath := getAbsoluteFilePath env (manifestPodPath env) in
  ∃ err w',
    export env options w = (Throw err, w')
    ∧ disk w' = disk w ∧ staging w' = staging w ∧ console w' = console w
    ∧ only_ops is_prelude_op w w'
    ∧ (∃ ops, trace w' = trace w ++ OpHook "beforeBuild" :: ops)
    ∧ match prelude_error env (disk w) with
      | Some early => err = early
      | None =>
          err = NothingToBuild (pod_root env)
          ∧ trace w'
            = trace w
              ++ [OpHook "beforeBuild"; OpExists manifestPath]
              ++ (if bool_decide (is_Some (disk w !! manifestPath))
                  then [OpRead manifestPath] else [])
              ++ [OpMkdtemp (tempDirRoot env)]
      end.
Proof.
  intros Hroutes Hsel manifestPath. unfold export, bind.
  destruct (export_prelude env w) as [r0 w0] eqn:H0.
  pose proof (export_prelude_outcome _ _ _ H0) as (Q1 & Q2).
  apply export_prelude_spec in H0 as (P1 & P2 & P3 & P4 & P5).
  destruct r0 as [[P routes']|err]; cbn [fst snd].
  - destruct (P5 _ eq_refl) as (Hr & _). cbn [snd] in Hr.
    assert (routes' = routes) as -> by congruence.
    destruct (export_build env options routes w0) as [r1 w1] eqn:H1.
    apply export_build_spec in H1 as (_ & H1).
    destruct (H1 Hsel) as [-> ->].
    exists (NothingToBuild (pod_root env)), w0. split_and!; try done.
    destruct (prelude_error env (disk w)) as [early|]; [done|].
    by destruct Q2 as [_ Q2].
  - exists err, w0. split_and!; try done.
    destruct (prelude_error env (disk w)) as [early|].
    + by injection Q2.
    + by destruct Q2 as [(pre & ? & _) _].
Qed.

(** *** An empty list of patterns *)

Lemma filter_none {A} (l : list A) : List.filter (λ _, false) l = [].
Proof. by induction l. Qed.

(** C10 (amended). With [options.patterns] present and empty the filter
    keeps no route, whatever the pod has, and the export fails without
    having changed a file: with the error of the step that fails before the
    routes are looked at, if one does, and with the "nothing to build" error
    otherwise.  The diff reports no delete, as for any pattern list.  The
    export is the same as one without patterns exactly when a step before
    the routes fails or the pod has no route at all. *)
Theorem export_with_empty_patterns :
  let options := Some {| patterns := Some [] |} in
  (∀ routes, select_routes env options routes = [])
  ∧ (∀ w, ∃ w',
       export env options w
       = (Throw match prelude_error env (disk w) with
                | Some early => early
                | None => NothingToBuild (pod_root env)
                end, w')
       ∧ disk w' = disk w ∧ staging w' = staging w)
  ∧ patterns_truthy options = true
  ∧ (∀ P N, deletes (Diff.cleanOutputUsingManifests P N options) = [])
  ∧ (∀ w, export env options w = export env None w
          ↔ prelude_error env (disk w) ≠ None ∨ router_routes env = Ok []).
Proof.
  intros options.
  assert (Hsel : ∀ routes, select_routes env options routes = []).
  { intros routes. cbn. apply filter_none. }
  assert (Hbuild : ∀ options' routes w,
            select_routes env options' routes = [] →
            export_build env options' routes w
            = (Throw (NothingToBuild (pod_root env)), w)).
  { intros options' routes w Hs. rewrite export_build_unfold. cbv zeta.
    by rewrite Hs. }
  split_and!; try done.
  - intros w. unfold export, bind.
    destruct (export_prelude env w) as [r0 w0] eqn:H0.
    pose proof (export_prelude_outcome _ _ _ H0) as (_ & Q2).
    apply export_prelude_spec in H0 as (P1 & P2 & _).
    destruct r0 as [pre|err].
    + rewrite Hbuild by apply Hsel. exists w0. split_and!; [|done..].
      destruct (prelude_error env (disk w)) as [early|]; [done|done].
    + exists w0. split_and!; [|done..].
      destruct (prelude_error env (disk w)) as [early|].
      * by injection Q2 as ->.
      * by destruct Q2 as [(pre & ? & _) _].
  - intros P N.
    by apply DiffFacts.cleanOutputUsingManifests_incremental_no_deletes.
  - intros w. unfold export, bind.
    destruct (export_prelude env w) as [r0 w0] eqn:H0.
    pose proof (export_prelude_outcome _ _ _ H0) as (_ & Q2).
    apply export_prelude_spec in H0 as (_ & _ & _ & _ & P5).
    destruct r0 as [[P routes]|err]; cbn [fst snd].
    2:{ split; [intros _|done]. left.
        destruct (prelude_error env (disk w)) as [early|]; [done|].
        by destruct Q2 as [(pre & ? & _) _]. }
    destruct (P5 _ eq_refl) as (Hr & Ha & _). cbn [snd] in Hr.
    rewrite (Hbuild options routes w0) by apply Hsel.
    destruct routes as [|r routes].
    { split; [by right|intros _]. by rewrite (Hbuild None [] w0). }
    split.
    + intros Heq. exfalso.
      destruct (export_build env None (r :: routes) w0) as [r1 w1] eqn:H1.
      apply export_build_leaves_artifacts in H1 as (l & Hl & Hne); [|done].
      destruct r1 as [[bm mt]|err]; cbn [fst snd] in Heq.
      * destruct (export_finish env None P bm mt w1) as [r2 w2] eqn:H2.
        apply export_finish_artifacts in H2 as [H2 _].
        injection Heq as _ ->. rewrite Hl, Ha in H2. by destruct l.
      * injection Heq as _ ->. rewrite Ha in Hl. by destruct l.
    + intros [Hpe|Hrr]; [|congruence].
      destruct (prelude_error env (disk w)) as [early|]; [|done].
      discriminate Q2.
Qed.

(** *** A failed export and the persisted manifest *)

(** C4 (amended). An export that fails in the steps before the routes,
    on an empty route set or while staging has changed no file of the pod
    or of the output directory.  One that fails while it builds, the pass
    that hashes and moves included, leaves every file alone that is not the
    final path of a selected route: the persisted manifest and metrics stay
    as they are unless a selected route is built to that very path.  The
    new manifest and metrics are written as soon as everything is built,
    before the diff is computed: what follows the two writes is the diff,
    the deletion of stale files, the summary and the last hook. *)
Theorem failed_export_and_the_persisted_manifest
    (options : option ExportOptions) (w : World) :
  let manifestPath := getAbsoluteFilePath env (manifestPodPath env) in
  let metricsPath := getAbsoluteFilePath env (metricsPodPath env) in
  (∀ err w1,
     export_prelude env w = (Throw err, w1) →
     export env options w = (Throw err, w1) ∧ disk w1 = disk w)
  ∧ (∀ pre w1,
       export_prelude env w = (Ok pre, w1) →
       select_routes env options (snd pre) = [] →
       export env options w = (Throw (NothingToBuild (pod_root env)), w1)
       ∧ disk w1 = disk w)
  ∧ (∀ pre w1 err w2,
       export_prelude env w = (Ok pre, w1) →
       select_routes env options (snd pre) ≠ [] →
       stage_all env (createdPath_of env <$> select_routes env options (snd pre))
         (build_completion_order env) w1 = (Throw err, w2) →
       export env options w = (Throw err, w2) ∧ disk w2 = disk w)
  ∧ (∀ pre w1 err w2,
       export_prelude env w = (Ok pre, w1) →
       export_build env options (snd pre) w1 = (Throw err, w2) →
       export env options w = (Throw err, w2)
       ∧ (∀ q, q ∉ selected_realPaths env options (snd pre) →
               disk w2 !! q = disk w !! q)
       ∧ (manifestPath ∉ selected_realPaths env options (snd pre) →
          disk w2 !! manifestPath = disk w !! manifestPath)
       ∧ (metricsPath ∉ selected_realPaths env options (snd pre) →
          disk w2 !! metricsPath = disk w !! metricsPath))
  ∧ (∀ pre w1 bm mt w2 w3,
       export_prelude env w = (Ok pre, w1) →
       export_build env options (snd pre) w1 = (Ok (bm, mt), w2) →
       write_manifest_and_metrics env bm mt w2 = (Ok tt, w3) →
       disk w3 !! metricsPath = Some (stringify_metrics env mt)
       ∧ (manifestPath ≠ metricsPath →
          disk w3 !! manifestPath = Some (stringify_manifest env bm))
       ∧ export env options w
         = export_after_write env options (fst pre) bm mt w3).
Proof.
  intros manifestPath metricsPath.
  assert (Hbuild : ∀ pre w1 err w2,
            export_prelude env w = (Ok pre, w1) →
            export_build env options (snd pre) w1 = (Throw err, w2) →
            export env options w = (Throw err, w2)).
  { intros pre w1 err w2 Hpre Hb. unfold export.
    rewrite (bind_Ok _ _ _ _ _ Hpre). by apply bind_Throw. }
  split_and!.
  - intros err w1 Hpre. split.
    + unfold export. by apply bind_Throw.
    + by apply export_prelude_spec in Hpre as (-> & _).
  - intros pre w1 Hpre Hsel.
    destruct (export_build env options (snd pre) w1) as [r1 w2] eqn:Hb.
    pose proof (export_build_spec _ _ _ _ _ Hb) as (_ & H1).
    destruct (H1 Hsel) as [-> ->]. split; [by eapply Hbuild|].
    by apply export_prelude_spec in Hpre as (-> & _).
  - intros pre w1 err w2 Hpre Hsel Hs.
    destruct (export_build env options (snd pre) w1) as [r1 w3] eqn:Hb.
    pose proof (export_build_staging options (snd pre) w1 w3 r1) as Hst.
    cbv zeta in Hst. rewrite Hs in Hst.
    destruct Hst as [-> ->]; [|done|].
    { by destruct (select_routes env options (snd pre)). }
    split; [by eapply Hbuild|].
    apply stage_all_spec in Hs as (l & _ & _ & _ & _ & (Hd & _)).
    apply export_prelude_spec in Hpre as (<- & _). done.
  - intros pre w1 err w2 Hpre Hb.
    assert (Hq : ∀ q, q ∉ selected_realPaths env options (snd pre) →
              disk w2 !! q = disk w !! q).
    { intros q Hq. apply export_prelude_spec in Hpre as (<- & _).
      apply export_build_spec in Hb as ((_ & B2 & _) & _). by apply B2. }
    split_and!; [by eapply Hbuild|done|apply Hq|apply Hq].
  - intros pre w1 bm mt w2 w3 Hpre Hb Hwrite.
    pose proof (write_manifest_and_metrics_spec _ _ _ _ _ Hwrite)
      as (_ & _ & _ & Hw).
    destruct (Hw eq_refl) as [Hm1 Hm2]. split_and!; try done.
    unfold export. rewrite (bind_Ok _ _ _ _ _ Hpre).
    rewrite (bind_Ok _ _ _ _ _ Hb). cbn [fst snd].
    unfold export_finish. by rewrite (bind_Ok _ _ _ _ _ Hwrite).
Qed.

(** *** Hashing before moving *)










End WithEnv.

(** *** Running [export] *)

Example first_export :
  let r := export (Demo.env [Demo.home; Demo.about; Demo.stylesheet]
                     Demo.no_failure []) None Demo.fresh_pod in
  (diff <$> match fst r with Ok result => Some result | Throw _ => None end)
  = Some {| adds := ["/index.html"; "/about/index.html"; "/static/app.css"];
            edits := []; noChanges := []; deletes := [] |}
  ∧ disk (snd r) !! "/pod/build/about/index.html" = Some "about us"
  ∧ staging (snd r) = ∅.
Proof. vm_compute. repeat split. Qed.

Example full_rebuild_deletes_the_stale_page :
  let r := export (Demo.env [Demo.home] Demo.no_failure []) None Demo.built_pod in
  (diff <$> match fst r with Ok result => Some result | Throw _ => None end)
  = Some {| adds := []; edits := []; noChanges := ["/index.html"];
            deletes := ["/old/index.html"] |}
  ∧ disk (snd r) !! "/pod/build/old/index.html" = None.
Proof. vm_compute. repeat split. Qed.

Lemma incremental_export_deletes_nothing_witness :
  let env := Demo.env [Demo.home; Demo.about] Demo.no_failure [] in
  let options := Some {| patterns := Some ["/content/index.md"] |} in
  let r := export env options Demo.built_pod in
  is_Some (disk (snd r) !! "/pod/build/old/index.html")
  ∧ (∃ result, fst r = Ok result ∧ deletes (diff result) = []).
Proof.
  intros env options r.
  pose proof (incremental_export_deletes_nothing env options Demo.built_pod
                eq_refl) as H.
  cbv zeta in H. fold r in H. destruct H as (Hdel & Hdisk & _). split.
  - apply Hdisk. vm_compute. eauto.
  - destruct (fst r) as [result|err] eqn:E.
    + exists result. split; [done|]. by apply Hdel.
    + exfalso. vm_compute in E. discriminate E.
Defined.

(** C6 as stated fails: an export of a pod without routes has, by the time
    it fails, checked for and read the previous manifest and created the
    temporary directory. *)
Lemma export_of_no_route_has_touched_the_file_system :
  let r := export (Demo.env [] Demo.no_failure []) None Demo.built_pod in
  fst r = Throw (NothingToBuild "/pod")
  ∧ trace Demo.built_pod = []
  ∧ trace (snd r)
    = [OpHook "beforeBuild";
       OpExists "/pod/build/.amagaki/manifest.json";
       OpRead "/pod/build/.amagaki/manifest.json";
       OpMkdtemp "/tmp/amagaki-build-a1b2c3"].
Proof. vm_compute. repeat split. Qed.

Lemma export_of_no_route_fails_after_the_prelude_witness :
  ∃ w',
    export (Demo.env [] Demo.no_failure []) None Demo.built_pod
    = (Throw (NothingToBuild "/pod"), w')
    ∧ disk w' = disk Demo.built_pod
    ∧ trace w'
      = [OpHook "beforeBuild";
         OpExists "/pod/build/.amagaki/manifest.json";
         OpRead "/pod/build/.amagaki/manifest.json";
         OpMkdtemp "/tmp/amagaki-build-a1b2c3"].
Proof.
  destruct (export_of_no_route_fails_after_the_prelude
              (Demo.env [] Demo.no_failure []) None Demo.built_pod []
              eq_refl eq_refl) as (err & w' & H & Hd & _ & _ & _ & _ & He).
  destruct He as [-> Ht]. by exists w'.
Defined.

(** C10 as stated fails twice.  The error of an export with an empty
    list of patterns is not always the "nothing to build" error: here the
    [beforeBuild] hook throws first, on a pod that has a route.  And the
    empty list can be equivalent to no patterns: on a pod without routes
    the two exports fail alike. *)
Lemma empty_patterns_and_no_patterns_can_fail_alike :
  fst (export (Cases.hook_refuses [Demo.home])
         (Some {| patterns := Some [] |}) Demo.fresh_pod)
  = Throw (Raised "the hook refuses")
  ∧ export (Demo.env [] Demo.no_failure [])
      (Some {| patterns := Some [] |}) Demo.fresh_pod
    = export (Demo.env [] Demo.no_failure []) None Demo.fresh_pod.
Proof. split; reflexivity. Qed.

(** C4 as stated fails: this export ends in a fatal error (the stale page
    cannot be removed) after the manifest and the metrics of the previous
    build have been overwritten. *)
Lemma failed_export_has_rewritten_the_manifest :
  let r := export (Demo.env [Demo.home] Demo.unlink_denied []) None Demo.built_pod in
  fst r = Throw EACCES
  ∧ disk Demo.built_pod !! "/pod/build/.amagaki/manifest.json"
    = Some "/index.html=sha1:hello;/old/index.html=sha1:old"
  ∧ disk (snd r) !! "/pod/build/.amagaki/manifest.json"
    = Some "/index.html=sha1:hello"
  ∧ disk Demo.built_pod !! "/pod/build/.amagaki/metrics.json"
    = Some "metrics of the earlier build"
  ∧ disk (snd r) !! "/pod/build/.amagaki/metrics.json" = Some "some routes".
Proof. vm_compute. repeat split. Qed.

(** Why the amended C4 needs its proviso: a page whose URL is the path of
    the manifest is moved onto the persisted manifest before the hash of
    the next file fails. *)
Example a_page_at_the_manifest_path_replaces_the_manifest :
  let env := Demo.env [Cases.manifest_page; Demo.home] Cases.hash_fails [] in
  let r := export env None Demo.built_pod in
  fst r = Throw (SystemError (-5) "EIO")
  ∧ disk (snd r) !! "/pod/build/.amagaki/manifest.json" = Some "not a manifest".
Proof. vm_compute. repeat split. Qed.

Lemma failed_export_and_the_persisted_manifest_witness :
  let env := Demo.env [Demo.home; Demo.broken] Demo.no_failure [] in
  let r := export env None Demo.built_pod in
  fst r = Throw (Raised "template error")
  ∧ disk (snd r) = disk Demo.built_pod
  ∧ disk (snd r) !! "/pod/build/.amagaki/manifest.json"
    = disk Demo.built_pod !! "/pod/build/.amagaki/manifest.json".
Proof.
  intros env r.
  pose proof (failed_export_and_the_persisted_manifest env None Demo.built_pod) as H.
  cbv zeta in H. destruct H as (_ & _ & Hs & Hb & _).
  set (p := export_prelude env Demo.built_pod).
  set (b := export_build env None [Demo.home; Demo.broken] (snd p)).
  destruct (Hs (Some Demo.old_manifest, [Demo.home; Demo.broken]) (snd p)
              (Raised "template error") (snd b)) as [He Hd];
    [reflexivity|discriminate|reflexivity|].
  destruct (Hb (Some Demo.old_manifest, [Demo.home; Demo.broken]) (snd p)
              (Raised "template error") (snd b)) as (_ & _ & Hm & _);
    [reflexivity|reflexivity|].
  subst r. rewrite He. split_and!; [done|done|]. cbn [snd]. apply Hm.
  vm_compute. intros Hin.
  repeat (apply elem_of_cons in Hin as [Hin|Hin]; [discriminate Hin|]).
  by apply elem_of_nil in Hin.
Defined.

End ExportFacts.

(* ===================================================================== *)
(** ** The staging pass, the tasks in flight included                     *)
(* ===================================================================== *)

Module SettledFacts.
Import Builder Props Steps MFacts.
Import StagingFacts.

(** *** A run and what it leaves behind *)

Section Run.

Context {T S : Type}.
Variable iteratee_start : T → M (S + unit).
Variable iteratee_resume : S → M (S + unit).
Variable limit : nat.


Variable Inv : list T → list S → World → Prop.
Variable Rejected : Error → list T → list S → World → Prop.

Hypothesis Inv_perm : ∀ p r r' w, r ≡ₚ r' → Inv p r w → Inv p r' w.

Hypothesis start_suspends : ∀ t p r w s w',
  Inv (t :: p) r w → iteratee_start t w = (Ok (inl s), w') → Inv p (s :: r) w'.
Hypothesis start_resolves : ∀ t p r w u w',
  Inv (t :: p) r w → iteratee_start t w = (Ok (inr u), w') → Inv p r w'.
Hypothesis start_rejects : ∀ t p r w err w',
  Inv (t :: p) r w → iteratee_start t w = (Throw err, w') → Rejected err p r w'.

Hypothesis resume_suspends : ∀ p s r w s' w',
  Inv p (s :: r) w → iteratee_resume s w = (Ok (inl s'), w') → Inv p (s' :: r) w'.
Hypothesis resume_resolves : ∀ p s r w u w',
  Inv p (s :: r) w → iteratee_resume s w = (Ok (inr u), w') → Inv p r w'.
Hypothesis resume_rejects : ∀ p s r w err w',
  Inv p (s :: r) w → iteratee_resume s w = (Throw err, w') → Rejected err p r w'.


End Run.

(** *** The tasks in flight after the run has settled *)

Section Drain.

Context {S : Type}.
Variable iteratee_resume : S → M (S + unit).

Variable Inv : list S → World → Prop.

Hypothesis Inv_perm : ∀ r r' w, r ≡ₚ r' → Inv r w → Inv r' w.
Hypothesis resume_suspends : ∀ s r w s' w',
  Inv (s :: r) w → iteratee_resume s w = (Ok (inl s'), w') → Inv (s' :: r) w'.
Hypothesis resume_resolves : ∀ s r w u w',
  Inv (s :: r) w → iteratee_resume s w = (Ok (inr u), w') → Inv r w'.
Hypothesis resume_rejects : ∀ s r w err w',
  Inv (s :: r) w → iteratee_resume s w = (Throw err, w') → Inv r w'.


(** [left s] bounds the resumptions a task in flight still needs. *)
Variable left : S → nat.

Hypothesis left_pos : ∀ s, (0 < left s)%nat.
Hypothesis resume_decreases : ∀ s w s' w',
  iteratee_resume s w = (Ok (inl s'), w') → (left s' < left s)%nat.


End Drain.

(** *** What the action of a route raises *)

Section WithEnv.

Variable env : Env.





(** *** The account of the artifacts when a task rejects *)

Section Pass.

Variable createdPaths : list CreatedPath.
Variable w0 : World.



(** *** The invariant of the pass, with the routes started so far *)








End Pass.


(** *** The pass of [export] *)



End WithEnv.

(** *** Running the pass to the end *)

(** The page that fails is resumed first: the pass rejects with one
    artifact recorded, while the home page is still being built.  Its task
    goes on, and records the second artifact and the second tick. *)
Example a_task_in_flight_still_records_its_route :
  let env := Demo.env [] Demo.no_failure [] in
  let cps := createdPath_of env <$> [Demo.home; Demo.broken] in
  (λ st,
     (Settled.settled_outcome st,
      artifact_realPath <$> artifacts (Settled.settled_world st),
      bar (Settled.settled_world st),
      List.length (Settled.in_flight st),
      (λ w, (artifact_realPath <$> artifacts w, bar w))
        <$> stage_drain env (Settled.in_flight st) (Settled.order_left st)
              (Settled.settled_world st)))
    <$> stage_settled env cps [1%nat] Demo.fresh_pod
  = Some (Throw (Raised "template error"),
          ["/pod/build/broken/index.html"], 1%nat, 1%nat,
          Some (["/pod/build/broken/index.html"; "/pod/build/index.html"],
                2%nat)).
Proof. vm_compute. reflexivity. Qed.



End SettledFacts.
(* ===================================================================== *)
(** ** More about [normalizePath]                                         *)
(* ===================================================================== *)

Module PathLaws.
Import Path.

(** X1. Whatever the URL path, [normalizePath] names a file: the result
    never ends with [/] and always has a file extension. *)
Theorem normalizePath_names_a_file (p : string) :
  Str.endsWith (normalizePath p) "/" = false
  ∧ extname (normalizePath p) ≠ "".
Proof.
  unfold normalizePath. destruct (Str.endsWith p "/") eqn:E.
  - apply StrFacts.endsWith_spec in E as [q ->].
    rewrite StrFacts.app_assoc.
    change ("/" +:+ "index.html") with "/index.html".
    rewrite PathFacts.endsWith_slash_index_html, PathFacts.extname_index_html.
    done.
  - destruct (Str.truthy (extname p)) eqn:T.
    + split; [done|]. by apply StrFacts.truthy_true.
    + rewrite PathFacts.endsWith_slash_index_html, PathFacts.extname_index_html.
      done.
Qed.

(** X2. A URL path that has no extension and does not end with [/], the
    same path followed by [/], and the same path followed by [/index.html]
    all have the same output path. *)
Theorem normalizePath_identifies_directory_urls (p : string) :
  Str.endsWith p "/" = false →
  extname p = "" →
  normalizePath (p +:+ "/") = normalizePath p
  ∧ normalizePath (p +:+ "/index.html") = normalizePath p.
Proof.
  intros Hs He.
  assert (Hp : normalizePath p = p +:+ "/index.html").
  { unfold normalizePath. by rewrite Hs, He. }
  rewrite Hp. split.
  - unfold normalizePath.
    assert (Str.endsWith (p +:+ "/") "/" = true) as ->.
    { apply StrFacts.endsWith_spec. by exists p. }
    by rewrite StrFacts.app_assoc.
  - apply PathFacts.normalizePath_index_html.
Qed.

Lemma normalizePath_identifies_directory_urls_witness :
  normalizePath "/about/" = normalizePath "/about"
  ∧ normalizePath "/about/index.html" = normalizePath "/about".
Proof.
  apply (normalizePath_identifies_directory_urls "/about"); reflexivity.
Defined.

End PathLaws.

(* ===================================================================== *)
(** ** More about the manifest diff                                       *)
(* ===================================================================== *)

Module DiffLaws.
Import Diff DiffFacts.

Lemma filter_all {A} (Q : A → bool) (l : list A) :
  (∀ x, x ∈ l → Q x = true) → filter (λ x, Q x) l = l.
Proof.
  induction l as [|a l IH]; intros H; [done|].
  rewrite filter_cons, decide_True.
  - f_equal. apply IH. intros x Hx. apply H. by right.
  - apply Is_true_true, H. left.
Qed.

Lemma filter_nothing {A} (Q : A → bool) (l : list A) :
  (∀ x, x ∈ l → Q x = false) → filter (λ x, Q x) l = [].
Proof.
  induction l as [|a l IH]; intros H; [done|].
  rewrite filter_cons, decide_False.
  - apply IH. intros x Hx. apply H. by right.
  - rewrite (H a) by left. by intros [].
Qed.

Lemma length_filter_three {A} (Q1 Q2 Q3 : A → bool) (l : list A) :
  (∀ x, ((if Q1 x then 1 else 0) + (if Q2 x then 1 else 0)
         + (if Q3 x then 1 else 0) = 1)%nat) →
  (List.length (filter (λ x, Q1 x) l) + List.length (filter (λ x, Q2 x) l)
   + List.length (filter (λ x, Q3 x) l) = List.length l)%nat.
Proof.
  intros H. induction l as [|a l IH]; [done|].
  rewrite !filter_cons. specialize (H a).
  destruct (Q1 a), (Q2 a), (Q3 a); cbn in H; try lia;
    repeat case_decide; try done; cbn; lia.
Qed.

(** X3. A path is reported as deleted exactly when the export is not
    incremental, the previous manifest lists the path, the new manifest
    does not, and the path is not a name that every object inherits from
    [Object.prototype].  In particular no path of the new manifest is ever
    reported as deleted. *)
Theorem deletes_are_the_vanished_paths
    (P : option BuildManifest) (N : BuildManifest)
    (options : option ExportOptions) (p : string) :
  p ∈ deletes (cleanOutputUsingManifests P N options)
  ↔ patterns_truthy options = false
    ∧ p ∈ previous_paths P
    ∧ p ∉ paths N
    ∧ Js.inherited p = false.
Proof.
  destruct P as [Pm|].
  - rewrite cleanOutputUsingManifests_Some. cbn [deletes previous_paths].
    destruct (patterns_truthy options).
    + split; [intros H; by apply elem_of_nil in H|by intros [? _]].
    + rewrite elem_of_fmap_filter. unfold paths. split.
      * intros (ps & Hin & <- & Hdel). unfold is_delete in Hdel.
        apply negb_True in Hdel. apply Is_true_false in Hdel.
        split_and!; [done|by apply list_elem_of_fmap_2| |].
        -- by apply has_pathShas_false in Hdel.
        -- unfold Js.has in Hdel. by apply orb_false_iff in Hdel as [_ ?].
      * intros (_ & Hin & Hout & Hinh).
        apply list_elem_of_fmap in Hin as (ps & -> & Hin).
        exists ps. split_and!; [done|done|].
        by apply is_delete_iff.
  - cbn. split; [intros H; by apply elem_of_nil in H|].
    intros (_ & H & _). by apply elem_of_nil in H.
Qed.

(** X4. Whatever the two manifests and the options, every file of the new
    manifest is counted once among the adds, the edits and the unchanged:
    the three lists are as long together as the new manifest, and each
    lists paths of the new manifest in the order of the manifest. *)
Theorem new_files_are_counted_once
    (P : option BuildManifest) (N : BuildManifest)
    (options : option ExportOptions) :
  let d := cleanOutputUsingManifests P N options in
  (List.length (adds d) + List.length (edits d) + List.length (noChanges d)
   = List.length (files N))%nat
  ∧ adds d `sublist_of` paths N
  ∧ edits d `sublist_of` paths N
  ∧ noChanges d `sublist_of` paths N.
Proof.
  destruct P as [Pm|]; cbv zeta.
  - rewrite cleanOutputUsingManifests_Some. cbn [adds edits noChanges].
    rewrite !length_fmap. unfold paths. split_and!.
    + apply length_filter_three. intros ps.
      pose proof (classify_exclusive (pathShas (files Pm)) ps). lia.
    + apply fmap_sublist, sublist_filter.
    + apply fmap_sublist, sublist_filter.
    + apply fmap_sublist, sublist_filter.
  - cbn. rewrite length_fmap. unfold paths. split_and!.
    + lia.
    + done.
    + apply sublist_nil_l.
    + apply sublist_nil_l.
Qed.

(** X5. The diff of a manifest against itself, when no two of its files
    have the same path and none is called [__proto__]: nothing is added,
    edited or deleted, and every path is reported unchanged. *)
Theorem diff_of_an_unchanged_build
    (m : BuildManifest) (options : option ExportOptions) :
  NoDup (paths m) →
  "__proto__" ∉ paths m →
  cleanOutputUsingManifests (Some m) m options
  = {| adds := []; edits := []; noChanges := paths m; deletes := [] |}.
Proof.
  intros Hnd Hproto. rewrite cleanOutputUsingManifests_Some.
  assert (Hhas : ∀ ps, ps ∈ files m →
            Js.has (path ps) (pathShas (files m)) = true).
  { intros ps Hps. unfold Js.has. apply orb_true_iff. left.
    apply bool_decide_eq_true, pathShas_is_Some. split.
    - by apply list_elem_of_fmap_2.
    - intros Heq. apply Hproto. unfold paths. rewrite <- Heq.
      by apply list_elem_of_fmap_2. }
  assert (Heq : ∀ ps, ps ∈ files m →
            Js.strict_eq (sha ps) (Js.get (pathShas (files m)) (path ps)) = true).
  { intros [k h] Hps. cbn [path sha]. unfold Js.get.
    assert (pathShas (files m) !! k = Some h) as ->.
    { apply pathShas_lookup; [done|]. split; [done|].
      intros ->. apply Hproto. unfold paths.
      by apply (list_elem_of_fmap_2 path) in Hps. }
    cbn. by apply bool_decide_eq_true. }
  f_equal.
  - rewrite filter_nothing; [done|]. intros ps Hps. unfold is_add.
    by rewrite Hhas.
  - rewrite filter_nothing; [done|]. intros ps Hps. unfold is_edit.
    by rewrite Hhas, Heq.
  - unfold paths. rewrite filter_all; [done|]. intros ps Hps.
    unfold is_noChange. by rewrite Hhas, Heq.
  - destruct (patterns_truthy options); [done|].
    rewrite filter_nothing; [done|]. intros ps Hps. unfold is_delete.
    by rewrite Hhas.
Qed.

Lemma diff_of_an_unchanged_build_witness :
  cleanOutputUsingManifests (Some Demo.old_manifest) Demo.old_manifest None
  = {| adds := []; edits := [];
       noChanges := ["/index.html"; "/old/index.html"]; deletes := [] |}.
Proof.
  apply (diff_of_an_unchanged_build Demo.old_manifest None).
  - apply (bool_decide_unpack _). vm_compute. exact I.
  - apply (bool_decide_unpack _). vm_compute. exact I.
Defined.

End DiffLaws.
(* ===================================================================== *)
(** ** More about the cleanup of stale files                              *)
(* ===================================================================== *)

Module CleanupLaws.
Import Builder MFacts Laws.

Lemma filter_agree {A} (P Q : A → Prop) `{∀ x, Decision (P x)}
    `{∀ x, Decision (Q x)} (l : list A) :
  (∀ x, x ∈ l → P x ↔ Q x) → filter P l = filter Q l.
Proof.
  induction l as [|a l IH]; intros Hl; [done|].
  rewrite !filter_cons. rewrite IH by (intros x Hx; apply Hl; by right).
  destruct (Hl a (list_elem_of_here _ _)) as [H1 H2].
  repeat case_decide; tauto.
Qed.

Section WithEnv.

Variable env : Env.

(** One path, when neither call fails for a reason of its own. *)
Lemma deleteOutputFile_effect (outputPath : string) (w : World) :
  io_fails env (OpUnlink (absOutputPath env outputPath)) = None →
  io_fails env (OpPruneDir (dirname env (absOutputPath env outputPath))) = None →
  ∃ w',
    deleteOutputFile env outputPath w = (Ok tt, w')
    ∧ disk w' = delete (absOutputPath env outputPath) (disk w)
    ∧ staging w' = staging w
    ∧ console w'
      = console w
        ++ (if bool_decide (disk w !! absOutputPath env outputPath = None)
            then [Warning (absOutputPath env outputPath)] else []).
Proof.
  intros Hu Hp. unfold deleteOutputFile, unlinkSync, pruneDirectory.
  fold (absOutputPath env outputPath). set (a := absOutputPath env outputPath) in *.
  unfold_m. rewrite Hu, Hp. cbn.
  destruct (disk w !! a) as [c|] eqn:E; cbn.
  - eexists. split; [reflexivity|]. cbn. by rewrite app_nil_r.
  - rewrite bool_decide_eq_true_2 by done.
    eexists. split; [reflexivity|]. cbn.
    split_and!; [|done|done]. by rewrite delete_id.
Qed.

(** Whatever happens, a file that is not listed keeps its content. *)
Lemma deleteOutputFiles_frame (paths : list string) (w w' : World)
    (res : outcome unit) :
  deleteOutputFiles env paths w = (res, w') →
  staging w' = staging w
  ∧ ∀ q, q ∉ absOutputPath env <$> paths → disk w' !! q = disk w !! q.
Proof.
  unfold deleteOutputFiles. revert w.
  induction paths as [|p paths IH]; intros w H.
  - cbn in H. unfold ret in H. by injection H as <- <-.
  - cbn [forEach] in H. unfold bind at 1 in H.
    destruct (deleteOutputFile env p w) as [r1 w1] eqn:H1.
    assert (Hstep : staging w1 = staging w
                    ∧ ∀ q, q ≠ absOutputPath env p → disk w1 !! q = disk w !! q).
    { unfold deleteOutputFile, unlinkSync, pruneDirectory in H1.
      fold (absOutputPath env p) in H1. unfold_m.
      split_matches; simplify_eq; cbn; (split; [done|]); intros q Hq;
        rewrite ?lookup_delete_ne; done. }
    destruct Hstep as [Hs Hd]. destruct r1 as [[]|err].
    + apply IH in H as [Hs' Hd']. split; [congruence|].
      intros q Hq. rewrite fmap_cons in Hq.
      apply not_elem_of_cons in Hq as [Hq1 Hq2].
      rewrite Hd' by done. by apply Hd.
    + injection H as <- <-. split; [done|]. intros q Hq.
      rewrite fmap_cons in Hq. apply not_elem_of_cons in Hq as [Hq1 _].
      by apply Hd.
Qed.

(** X6. When no [unlink] and no directory clean-up fails for a reason of
    its own, [deleteOutputFiles] returns: afterwards none of the listed
    files is on disk, every other file is as before, and a warning has been
    logged for each listed file that was not there, and for no other (the
    last for a list without repetition). *)
Theorem deleteOutputFiles_removes_the_listed_files
    (paths : list string) (w : World) :
  (∀ p, p ∈ paths →
     io_fails env (OpUnlink (absOutputPath env p)) = None
     ∧ io_fails env (OpPruneDir (dirname env (absOutputPath env p))) = None) →
  ∃ w',
    deleteOutputFiles env paths w = (Ok tt, w')
    ∧ (∀ p, p ∈ paths → disk w' !! absOutputPath env p = None)
    ∧ (∀ q, q ∉ absOutputPath env <$> paths → disk w' !! q = disk w !! q)
    ∧ staging w' = staging w
    ∧ (NoDup (absOutputPath env <$> paths) →
       console w'
       = console w
         ++ (Warning <$> filter (λ a, disk w !! a = None)
                           (absOutputPath env <$> paths))).
Proof.
  revert w. induction paths as [|p paths IH]; intros w Hio.
  - exists w. split_and!; try done.
    + intros p Hp. by apply elem_of_nil in Hp.
    + intros _. cbn. by rewrite app_nil_r.
  - destruct (Hio p (list_elem_of_here _ _)) as [Hu Hp].
    destruct (deleteOutputFile_effect p w Hu Hp) as (w1 & H1 & D1 & S1 & C1).
    destruct (IH w1) as (w' & H2 & A2 & B2 & S2 & C2).
    { intros q Hq. apply Hio. by right. }
    exists w'. split_and!.
    + unfold deleteOutputFiles in *. cbn [forEach].
      by rewrite (bind_Ok _ _ _ _ _ H1).
    + intros q Hq. apply elem_of_cons in Hq as [->|Hq]; [|by apply A2].
      destruct (decide (absOutputPath env p ∈ absOutputPath env <$> paths))
        as [Hin|Hout].
      * apply list_elem_of_fmap in Hin as (q & -> & Hq). by apply A2.
      * rewrite B2 by done. rewrite D1. apply lookup_delete_eq.
    + intros q Hq. rewrite fmap_cons in Hq.
      apply not_elem_of_cons in Hq as [Hq1 Hq2].
      rewrite B2 by done. rewrite D1. by apply lookup_delete_ne.
    + congruence.
    + intros Hnd. rewrite fmap_cons in Hnd.
      apply NoDup_cons in Hnd as [Hp1 Hnd].
      rewrite (C2 Hnd), C1, fmap_cons, filter_cons, <- app_assoc. f_equal.
      assert (filter (λ a, disk w1 !! a = None) (absOutputPath env <$> paths)
              = filter (λ a, disk w !! a = None) (absOutputPath env <$> paths))
        as ->.
      { apply filter_agree. intros a Ha. rewrite D1.
        rewrite lookup_delete_ne; [done|]. intros Heq. by subst a. }
      case_bool_decide; case_decide; done.
Qed.

End WithEnv.

Lemma deleteOutputFiles_removes_the_listed_files_witness :
  ∃ w',
    deleteOutputFiles (Demo.env [] Demo.no_failure [])
      ["/old/index.html"; "/gone.html"] Demo.built_pod = (Ok tt, w')
    ∧ disk w' !! "/pod/build/old/index.html" = None
    ∧ disk w' !! "/pod/build/index.html" = Some "hello".
Proof.
  destruct (deleteOutputFiles_removes_the_listed_files
              (Demo.env [] Demo.no_failure [])
              ["/old/index.html"; "/gone.html"] Demo.built_pod)
    as (w' & H & A & B & _).
  - intros p _. split; reflexivity.
  - exists w'. split_and!; [done| |].
    + apply (A "/old/index.html"). left.
    + rewrite B; [reflexivity|]. vm_compute. intros Hin.
      repeat (apply elem_of_cons in Hin as [Hin|Hin]; [discriminate Hin|]).
      by apply elem_of_nil in Hin.
Defined.

End CleanupLaws.

(* ===================================================================== *)
(** ** More about the selection of routes                                 *)
(* ===================================================================== *)

Module SelectLaws.
Import Builder.

Section WithEnv.

Variable env : Env.

Lemma sublist_List_filter {A} (f : A → bool) (l : list A) :
  List.filter f l `sublist_of` l.
Proof.
  induction l as [|a l IH]; [done|]. cbn. destruct (f a).
  - by apply sublist_skip.
  - by apply sublist_cons.
Qed.

(** X7. The routes an export builds are routes of the pod, in the order of
    the router.  Without [options.patterns] they are all the routes; with
    patterns, every one of them has a [podPath], and it is not empty. *)
Theorem select_routes_keeps_order_and_needs_a_podPath
    (options : option ExportOptions) (routes : list Route) :
  select_routes env options routes `sublist_of` routes
  ∧ (patterns_truthy options = false →
       select_routes env options routes = routes)
  ∧ (patterns_truthy options = true →
       ∀ r, r ∈ select_routes env options routes →
         ∃ p, podPath r = Some p ∧ p ≠ "").
Proof.
  destruct options as [[[pats|]]|]; cbn [select_routes patterns_truthy];
    (split_and!; [try done|try done|try done]).
  - apply sublist_List_filter.
  - intros _ r Hr. apply list_elem_of_In, List.filter_In in Hr as [_ Hr].
    unfold route_matches in Hr. apply List.existsb_exists in Hr as (pat & _ & Hr).
    destruct (podPath r) as [p|]; [|done]. exists p. split; [done|].
    apply andb_true_iff in Hr as [Hr _]. by apply StrFacts.truthy_true.
Qed.

Lemma strip_leading_slash_slash (s : string) :
  strip_leading_slash ("/" +:+ s) = s.
Proof. reflexivity. Qed.

Lemma strip_leading_slash_id (s : string) :
  (∀ q, s ≠ "/" +:+ q) → strip_leading_slash s = s.
Proof.
  intros H. destruct s as [|c s]; [done|]. cbn.
  destruct (Ascii.eqb c "/") eqn:E; [|done].
  apply Ascii.eqb_eq in E. subst c. by destruct (H s).
Qed.

(** X8. A leading [/] in a pattern does not count: putting one in front
    of every pattern selects the same routes. *)
Theorem patterns_match_with_or_without_a_leading_slash
    (pats : list string) (routes : list Route) :
  (∀ pattern q, pattern ∈ pats → pattern ≠ "/" +:+ q) →
  select_routes env (Some {| patterns := Some ((λ p, "/" +:+ p) <$> pats) |}) routes
  = select_routes env (Some {| patterns := Some pats |}) routes.
Proof.
  intros Hp. cbn [select_routes]. apply List.filter_ext. intros r.
  unfold route_matches. induction pats as [|pat pats IH]; [done|].
  cbn [fmap list_fmap existsb]. rewrite IH.
  - rewrite strip_leading_slash_slash, (strip_leading_slash_id pat); [done|].
    intros q. apply Hp. left.
  - intros pattern q Hin. apply Hp. by right.
Qed.

End WithEnv.

Lemma patterns_match_with_or_without_a_leading_slash_witness :
  select_routes (Demo.env [] Demo.no_failure [])
    (Some {| patterns := Some ["/content/about.md"] |}) [Demo.home; Demo.about]
  = select_routes (Demo.env [] Demo.no_failure [])
      (Some {| patterns := Some ["content/about.md"] |}) [Demo.home; Demo.about].
Proof.
  apply (patterns_match_with_or_without_a_leading_slash
           (Demo.env [] Demo.no_failure []) ["content/about.md"]).
  intros pattern q Hin. apply list_elem_of_singleton in Hin. subst pattern.
  discriminate.
Defined.

End SelectLaws.
(* ===================================================================== *)
(** ** What a build that goes through has produced                        *)
(* ===================================================================== *)

Module BuildLaws.
Import Builder Props MFacts Laws.
Import StagingFacts MoveFacts ExportFacts.

Lemma NoDup_fmap_inj {A B} (f : A → B) (l : list A) (x y : A) :
  NoDup (f <$> l) → x ∈ l → y ∈ l → f x = f y → x = y.
Proof.
  induction l as [|a l IH]; intros Hnd Hx Hy Hf.
  - by apply elem_of_nil in Hx.
  - rewrite fmap_cons in Hnd. apply NoDup_cons in Hnd as [Ha Hnd].
    apply elem_of_cons in Hx as [->|Hx]; apply elem_of_cons in Hy as [->|Hy].
    + done.
    + exfalso. apply Ha. rewrite Hf. by apply list_elem_of_fmap_2.
    + exfalso. apply Ha. rewrite <- Hf. by apply list_elem_of_fmap_2.
    + by apply IH.
Qed.

Section WithEnv.

Variable env : Env.

(** *** Staging *)

Lemma stage_start_staging (cp : CreatedPath) (w w' : World)
    (r : StageState + unit) :
  stage_start env cp w = (Ok r, w') → staging w' = staging w.
Proof.
  unfold stage_start, ensureDirectoryExists, bookkeeping. intros H.
  destruct (is_staticDir cp); unfold_m; split_matches; by simplify_eq.
Qed.

Lemma stage_resume_staged (s : StageState) (w w' : World)
    (r : StageState + unit) :
  stage_resume env s w = (Ok r, w') →
  state_ok env s →
  match r with
  | inl _ => staging w' = staging w
  | inr _ =>
      ∃ c, output_of env (disk w) (stage_cp s) = Some c
           ∧ staging w' = <[tempPath (stage_cp s) := c]> (staging w)
  end.
Proof.
  unfold stage_resume, ensureDirectoryExists, bookkeeping,
    copyFile_to_staging, writeFile_to_staging.
  intros H Hok. destruct s as [cp|cp|cp content]; cbn [state_ok stage_cp] in *.
  - destruct Hok as [Hs He]. unfold_m. split_matches; simplify_eq.
    cbn in *. eexists. split; [|reflexivity]. unfold output_of. by rewrite Hs.
  - unfold_m. split_matches; by simplify_eq.
  - destruct Hok as (Hs & Hb & He). unfold_m. split_matches; simplify_eq.
    cbn. eexists. split; [|reflexivity]. unfold output_of. by rewrite Hs, Hb.
Qed.

Section Staged.

Variable createdPaths : list CreatedPath.
Variable w0 : World.
Hypothesis tempPaths_differ : NoDup (tempPath <$> createdPaths).

Lemma staged_inv_perm (p : list CreatedPath) (r r' : list StageState) (w : World) :
  r ≡ₚ r' →
  staged_inv env createdPaths w0 p r w → staged_inv env createdPaths w0 p r' w.
Proof.
  intros Hr (Hd & Hs & Hp & Hc). split_and!; [done| |done|].
  - intros s Hin. apply Hs. by rewrite Hr.
  - intros cp Hcp. destruct (Hc cp Hcp) as [H|[H|H]]; auto.
    right. left. by rewrite <- Hr.
Qed.

Lemma staged_start (t : CreatedPath) (p : list CreatedPath)
    (r : list StageState) (w : World) (s : StageState) (w' : World) :
  staged_inv env createdPaths w0 (t :: p) r w →
  stage_start env t w = (Ok (inl s), w') →
  staged_inv env createdPaths w0 p (s :: r) w'.
Proof.
  intros (Hd & Hs & Hp & Hc) Hst.
  destruct (stage_start_ok _ _ _ _ _ Hst) as [Hcp Hok].
  pose proof (stage_start_staging _ _ _ _ Hst) as Hsame.
  apply stage_start_spec in Hst as ((Hdisk & _) & _).
  split_and!; [congruence| | |].
  - intros s1 Hin. apply elem_of_cons in Hin as [->|Hin]; [|by apply Hs].
    split; [done|]. rewrite Hcp. apply Hp. left.
  - intros cp Hin. apply Hp. by right.
  - intros cp Hin. destruct (Hc cp Hin) as [H|[H|[H1 H2]]].
    + apply elem_of_cons in H as [->|H]; [|by left].
      right. left. rewrite fmap_cons, Hcp. left.
    + right. left. rewrite fmap_cons. by right.
    + right. right. split; [done|]. by rewrite Hsame.
Qed.

Lemma staged_resume_suspends (p : list CreatedPath) (s : StageState)
    (r : list StageState) (w : World) (s' : StageState) (w' : World) :
  staged_inv env createdPaths w0 p (s :: r) w →
  stage_resume env s w = (Ok (inl s'), w') →
  staged_inv env createdPaths w0 p (s' :: r) w'.
Proof.
  intros (Hd & Hs & Hp & Hc) Hst.
  destruct (Hs s (list_elem_of_here _ _)) as [Hok Hin].
  destruct (stage_resume_ok _ _ _ _ _ Hst Hok) as [Hcp Hok'].
  pose proof (stage_resume_staged _ _ _ _ Hst Hok) as Hsame. cbn in Hsame.
  apply stage_resume_spec in Hst as ((Hdisk & _) & _).
  split_and!; [congruence| |done|].
  - intros s1 Hs1. apply elem_of_cons in Hs1 as [->|Hs1].
    + split; [done|]. by rewrite Hcp.
    + apply Hs. by right.
  - intros cp Hcpin. rewrite fmap_cons, Hcp.
    destruct (Hc cp Hcpin) as [H|[H|[H1 H2]]]; [by left|by right; left|].
    right. right. split; [done|]. by rewrite Hsame.
Qed.

Lemma staged_resume_resolves (p : list CreatedPath) (s : StageState)
    (r : list StageState) (w : World) (u : unit) (w' : World) :
  staged_inv env createdPaths w0 p (s :: r) w →
  stage_resume env s w = (Ok (inr u), w') →
  staged_inv env createdPaths w0 p r w'.
Proof.
  intros (Hd & Hs & Hp & Hc) Hst.
  destruct (Hs s (list_elem_of_here _ _)) as [Hok Hin].
  destruct (stage_resume_staged _ _ _ _ Hst Hok) as (c & Hout & Hnew).
  rewrite Hd in Hout.
  apply stage_resume_spec in Hst as ((Hdisk & _) & _).
  assert (Hmine : staged env (disk w0) w' (stage_cp s)).
  { split; [by rewrite Hout|]. by rewrite Hnew, lookup_insert_eq. }
  split_and!; [congruence| |done|].
  - intros s1 Hs1. apply Hs. by right.
  - intros cp Hcpin. destruct (Hc cp Hcpin) as [H|[H|[H1 H2]]].
    + by left.
    + rewrite fmap_cons in H. apply elem_of_cons in H as [->|H]; auto.
    + right. right.
      destruct (decide (tempPath cp = tempPath (stage_cp s))) as [Heq|Hne].
      * by rewrite (NoDup_fmap_inj tempPath createdPaths cp (stage_cp s)).
      * split; [done|]. by rewrite Hnew, lookup_insert_ne.
Qed.

(** A staging pass that goes through has staged the output of every
    route, and has left the disk alone. *)
Lemma stage_all_staged (order : list nat) (w' : World) (u : unit) :
  stage_all env createdPaths order w0 = (Ok u, w') →
  disk w' = disk w0
  ∧ ∀ cp, cp ∈ createdPaths → staged env (disk w0) w' cp.
Proof.
  intros H. pose proof (stage_all_run env createdPaths order w0) as Hrun.
  rewrite H in Hrun.
  assert (Hnever : ∀ t p r w u1 w1,
            staged_inv env createdPaths w0 (t :: p) r w →
            stage_start env t w = (Ok (inr u1), w1) →
            staged_inv env createdPaths w0 p r w1).
  { intros t p r w1 u1 w2 _ Hst.
    apply stage_start_spec in Hst as (_ & [(Hres & _)|([Hres|[e Hres]] & _)]);
      discriminate. }
  assert (Hinit : staged_inv env createdPaths w0 createdPaths [] w0).
  { split_and!; [done| |done|].
    - intros s Hin. by apply elem_of_nil in Hin.
    - intros cp Hin. by left. }
  pose proof (AsyncFacts.run_invariant (stage_start env) (stage_resume env)
                NumConcurrentBuilds (staged_inv env createdPaths w0)
                (λ _, True) staged_inv_perm staged_start Hnever
                (λ _ _ _ _ _ _ _ _, I)
                staged_resume_suspends staged_resume_resolves
                (λ _ _ _ _ _ _ _ _, I)
                _ _ _ _ _ (Ok u) w' Hinit Hrun) as (Hd & _ & _ & Hc).
  split; [done|].
  intros cp Hin. destruct (Hc cp Hin) as [Hc1|[Hc1|Hc1]]; [|
    |done]; by apply elem_of_nil in Hc1.
Qed.

End Staged.

(** *** Hashing, measuring and moving *)

Lemma static_routes_middle (l1 l2 : list CreatedPath) (cp : CreatedPath) :
  List.length (static_routes (l1 ++ cp :: l2))
  = (List.length (static_routes (l1 ++ l2))
     + if is_staticDir cp then 1 else 0)%nat.
Proof.
  unfold static_routes. rewrite !filter_app, filter_cons, !length_app.
  destruct (is_staticDir cp); case_decide; try done; cbn; lia.
Qed.

Lemma document_routes_middle (l1 l2 : list CreatedPath) (cp : CreatedPath) :
  List.length (document_routes (l1 ++ cp :: l2))
  = (List.length (document_routes (l1 ++ l2))
     + if is_staticDir cp then 0 else 1)%nat.
Proof.
  unfold document_routes. rewrite !filter_app, filter_cons, !length_app.
  destruct (is_staticDir cp); case_decide; try done; cbn; lia.
Qed.

Lemma static_routes_perm (l l' : list CreatedPath) :
  l ≡ₚ l' → static_routes l ≡ₚ static_routes l'.
Proof. intros H. unfold static_routes. by rewrite H. Qed.

Lemma document_routes_perm (l l' : list CreatedPath) :
  l ≡ₚ l' → document_routes l ≡ₚ document_routes l'.
Proof. intros H. unfold document_routes. by rewrite H. Qed.

Lemma output_size_perm (files : gmap string string) (l l' : list CreatedPath) :
  l ≡ₚ l' → output_size env files l = output_size env files l'.
Proof. intros H. unfold output_size. by rewrite H. Qed.

Lemma output_size_static_middle (files : gmap string string)
    (l1 l2 : list CreatedPath) (cp : CreatedPath) :
  output_size env files (static_routes (l1 ++ cp :: l2))
  = output_size env files (static_routes (l1 ++ l2))
    + if is_staticDir cp
      then Z.of_nat (String.length (content_of env files cp)) else 0.
Proof.
  unfold output_size, static_routes.
  rewrite !filter_app, filter_cons, !sum_list_with_app.
  destruct (is_staticDir cp); case_decide; try done; cbn; lia.
Qed.

Lemma output_size_document_middle (files : gmap string string)
    (l1 l2 : list CreatedPath) (cp : CreatedPath) :
  output_size env files (document_routes (l1 ++ cp :: l2))
  = output_size env files (document_routes (l1 ++ l2))
    + if is_staticDir cp
      then 0 else Z.of_nat (String.length (content_of env files cp)).
Proof.
  unfold output_size, document_routes.
  rewrite !filter_app, filter_cons, !sum_list_with_app.
  destruct (is_staticDir cp); case_decide; try done; cbn; lia.
Qed.

Section Moving.

Variable showMoveProgressBar : bool.

(** What one resumption that does not raise has done. *)
Lemma move_resume_effect (s : MoveState) (w w' : World) (r : MoveState + unit) :
  move_resume env showMoveProgressBar s w = (Ok r, w') →
  artifacts w' = artifacts w ∧ bar w' = bar w
  ∧ match s with
    | AwaitHash cp =>
        r = inl (AwaitStat cp)
        ∧ disk w' = disk w ∧ staging w' = staging w
        ∧ buildMetrics w' = buildMetrics w ∧ moveBar w' = moveBar w
        ∧ ∃ c, staging w !! tempPath cp = Some c
               ∧ manifest_files w'
                 = manifest_files w
                   ++ [{| path := normalPath cp; sha := sha1_hex env c |}]
    | AwaitStat cp =>
        r = inl (AwaitRename cp)
        ∧ disk w' = disk w ∧ staging w' = staging w
        ∧ manifest_files w' = manifest_files w ∧ moveBar w' = moveBar w
        ∧ ∃ c, staging w !! tempPath cp = Some c
               ∧ buildMetrics w'
                 = count_route cp (Z.of_nat (String.length c)) (buildMetrics w)
    | AwaitRename cp =>
        manifest_files w' = manifest_files w
        ∧ buildMetrics w' = buildMetrics w
        ∧ ((r = inl (AwaitFallbackCopy cp)
            ∧ disk w' = disk w ∧ staging w' = staging w
            ∧ moveBar w' = moveBar w)
           ∨ (r = inr tt
              ∧ moveBar w'
                = (if showMoveProgressBar then S (moveBar w) else moveBar w)
              ∧ ∃ c, staging w !! tempPath cp = Some c
                     ∧ disk w' = <[realPath cp := c]> (disk w)
                     ∧ staging w' = delete (tempPath cp) (staging w)))
    | AwaitFallbackCopy cp =>
        manifest_files w' = manifest_files w
        ∧ buildMetrics w' = buildMetrics w
        ∧ r = inr tt
        ∧ moveBar w'
          = (if showMoveProgressBar then S (moveBar w) else moveBar w)
        ∧ ∃ c, staging w !! tempPath cp = Some c
               ∧ disk w' = <[realPath cp := c]> (disk w)
               ∧ staging w' = staging w
    end.
Proof.
  unfold move_resume, move_done, getFileSha, stat_size, ensureDirectoryExists,
    rename, copyFile_to_disk.
  intros H. destruct s as [cp|cp|cp|cp]; destruct showMoveProgressBar;
    unfold_m; split_matches; simplify_eq; cbn in *;
    (split_and!; try done); eauto 10.
Qed.

(** **** The numbers *)

Section Counting.

Variable createdPaths : list CreatedPath.
Variable w0 : World.

Lemma count_inv_perm (p : list CreatedPath) (r r' : list MoveState) (w : World) :
  r ≡ₚ r' →
  count_inv showMoveProgressBar createdPaths w0 p r w →
  count_inv showMoveProgressBar createdPaths w0 p r' w.
Proof.
  intros Hr (fin & H1 & (l & H2 & H3) & H4 & H5 & H6).
  exists fin. split_and!.
  - by rewrite <- Hr.
  - exists l. split; [done|]. by rewrite <- Hr.
  - rewrite H4. do 2 f_equal. apply Permutation_length, static_routes_perm.
    by rewrite Hr.
  - rewrite H5. do 2 f_equal. apply Permutation_length, document_routes_perm.
    by rewrite Hr.
  - apply H6.
  - apply H6.
  - apply H6.
  - apply H6.
  - apply H6.
Qed.

Lemma count_start (t : CreatedPath) (p : list CreatedPath)
    (r : list MoveState) (w : World) (s : MoveState) (w' : World) :
  count_inv showMoveProgressBar createdPaths w0 (t :: p) r w →
  move_start t w = (Ok (inl s), w') →
  count_inv showMoveProgressBar createdPaths w0 p (s :: r) w'.
Proof.
  intros (fin & H1 & H2 & H3 & H4 & H5 & H6 & H7 & H8 & H9) Hst.
  apply move_start_spec in Hst as [[= ->] ->].
  exists fin. cbn [fmap list_fmap omap list_omap move_cp hashed measured].
  split_and!; try done.
  rewrite <- H1. apply Permutation_app_head. cbn. apply Permutation_middle.
Qed.

Lemma count_resume_suspends (p : list CreatedPath) (s : MoveState)
    (r : list MoveState) (w : World) (s' : MoveState) (w' : World) :
  count_inv showMoveProgressBar createdPaths w0 p (s :: r) w →
  move_resume env showMoveProgressBar s w = (Ok (inl s'), w') →
  count_inv showMoveProgressBar createdPaths w0 p (s' :: r) w'.
Proof.
  intros (fin & H1 & (l & H2 & H3) & H4 & H5 & H6 & H7 & H8 & H9 & H10) Hres.
  apply move_resume_effect in Hres as (Ha & Hb & Hres).
  exists fin. destruct s as [cp|cp|cp|cp]; cbn [move_cp hashed measured omap
    list_omap fmap list_fmap] in *.
  - destruct Hres as ([= ->] & E1 & E2 & E3 & E4 & c & E5 & E6).
    cbn [move_cp hashed measured omap list_omap fmap list_fmap].
    rewrite E3, E4. split_and!; try done; [|congruence|congruence].
    eexists. split; [rewrite E6, H2, <- app_assoc; reflexivity|].
    rewrite fmap_app, H3, !fmap_app. cbn.
    rewrite <- app_assoc. apply Permutation_app_head.
    symmetry. apply Permutation_cons_append.
  - destruct Hres as ([= ->] & E1 & E2 & E3 & E4 & c & E5 & E6).
    cbn [move_cp hashed measured omap list_omap fmap list_fmap].
    rewrite E3, E4, E6.
    rewrite static_routes_middle, document_routes_middle.
    unfold count_route.
    split_and!; try done; [|destruct (is_staticDir cp); cbn; lia
      |destruct (is_staticDir cp); cbn; lia
      |by destruct (is_staticDir cp)|by destruct (is_staticDir cp)
      |congruence|congruence].
    by exists l.
  - destruct Hres as (E1 & E2 & [([= ->] & E3 & E4 & E5)|([=] & _)]).
    cbn [move_cp hashed measured omap list_omap fmap list_fmap].
    rewrite E1, E2, E5. split_and!; try done; [|congruence|congruence].
    by exists l.
  - by destruct Hres as (_ & _ & [=] & _).
Qed.

Lemma count_resume_resolves (p : list CreatedPath) (s : MoveState)
    (r : list MoveState) (w : World) (u : unit) (w' : World) :
  count_inv showMoveProgressBar createdPaths w0 p (s :: r) w →
  move_resume env showMoveProgressBar s w = (Ok (inr u), w') →
  count_inv showMoveProgressBar createdPaths w0 p r w'.
Proof.
  intros (fin & H1 & (l & H2 & H3) & H4 & H5 & H6 & H7 & H8 & H9 & H10) Hres.
  apply move_resume_effect in Hres as (Ha & Hb & Hres).
  assert (∃ cp, move_cp s = cp ∧ hashed s = Some cp ∧ measured s = Some cp
                ∧ manifest_files w' = manifest_files w
                ∧ buildMetrics w' = buildMetrics w
                ∧ moveBar w'
                  = (if showMoveProgressBar then S (moveBar w) else moveBar w))
    as (cp & C1 & C2 & C3 & C4 & C5 & C6).
  { destruct s as [cp|cp|cp|cp].
    - by destruct Hres as ([=] & _).
    - by destruct Hres as ([=] & _).
    - destruct Hres as (E1 & E2 & [([=] & _)|(_ & E3 & _)]).
      exists cp. by split_and!.
    - destruct Hres as (E1 & E2 & _ & E3 & _). exists cp. by split_and!. }
  cbn [fmap list_fmap omap list_omap] in *. rewrite C1 in H1.
  rewrite C2 in H3. rewrite C3 in H4, H5.
  exists (fin ++ [cp]). rewrite <- !app_assoc. cbn [app].
  rewrite C4, C5, C6. split_and!; try done; [| |congruence|congruence].
  - by exists l.
  - rewrite H8, length_app. cbn. destruct showMoveProgressBar; lia.
Qed.

(** A second pass that goes through, in numbers. *)
Lemma move_all_counts (order : list nat) (w' : World) (u : unit) :
  move_all env showMoveProgressBar createdPaths order w0 = (Ok u, w') →
  count_inv showMoveProgressBar createdPaths w0 [] [] w'.
Proof.
  intros H.
  pose proof (move_all_run env showMoveProgressBar createdPaths order w0) as Hrun.
  rewrite H in Hrun.
  assert (Hinit : count_inv showMoveProgressBar createdPaths w0 createdPaths [] w0).
  { exists []. cbn. split_and!; try done; try lia.
    - exists []. by rewrite app_nil_r.
    - destruct showMoveProgressBar; lia. }
  exact (AsyncFacts.run_invariant move_start
           (move_resume env showMoveProgressBar)
           NumConcurrentCopies (count_inv showMoveProgressBar createdPaths w0)
           (λ _, True) count_inv_perm count_start
           (λ t p r w u1 w1 _ Hst,
              match proj1 (move_start_spec _ _ _ _ Hst) with end)
           (λ _ _ _ _ _ _ _ _, I)
           count_resume_suspends count_resume_resolves
           (λ _ _ _ _ _ _ _ _, I)
           _ _ _ _ _ (Ok u) w' Hinit Hrun).
Qed.

End Counting.

(** **** The contents *)

Lemma others_differ {B} (f : CreatedPath → B)
    (fin rest p createdPaths : list CreatedPath) (cp : CreatedPath) :
  NoDup (f <$> createdPaths) →
  fin ++ (cp :: rest) ++ p ≡ₚ createdPaths →
  ∀ cp', cp' ∈ fin ++ rest ++ p → f cp' ≠ f cp.
Proof.
  intros Hnd Hperm cp' Hin Heq. rewrite <- Hperm in Hnd.
  cbn [app] in Hnd. rewrite <- Permutation_middle, fmap_cons in Hnd.
  apply NoDup_cons in Hnd as [Hout _]. apply Hout. rewrite <- Heq.
  by apply list_elem_of_fmap_2.
Qed.

Lemma staged_content (files : gmap string string) (w : World)
    (cp : CreatedPath) (c : string) :
  staged env files w cp → staging w !! tempPath cp = Some c →
  output_of env files cp = Some c ∧ content_of env files cp = c.
Proof.
  intros [_ H] Hc. rewrite Hc in H. unfold content_of. by rewrite <- H.
Qed.

Section Contents.

Variable createdPaths : list CreatedPath.
Variable w0 : World.
Variable files : gmap string string.
Hypothesis tempPaths_differ : NoDup (tempPath <$> createdPaths).
Hypothesis realPaths_differ : NoDup (realPath <$> createdPaths).

Lemma content_inv_perm (p : list CreatedPath) (r r' : list MoveState) (w : World) :
  r ≡ₚ r' →
  content_inv env files createdPaths w0 p r w →
  content_inv env files createdPaths w0 p r' w.
Proof.
  intros Hr (fin & H1 & H2 & H3 & (l & H4 & H5) & H6 & H7).
  exists fin. split_and!.
  - by rewrite <- Hr.
  - intros cp Hcp. apply H2. by rewrite Hr.
  - done.
  - exists l. split; [done|]. by rewrite <- Hr.
  - rewrite H6. f_equal. apply output_size_perm, static_routes_perm.
    by rewrite Hr.
  - rewrite H7. f_equal. apply output_size_perm, document_routes_perm.
    by rewrite Hr.
Qed.

Lemma content_start (t : CreatedPath) (p : list CreatedPath)
    (r : list MoveState) (w : World) (s : MoveState) (w' : World) :
  content_inv env files createdPaths w0 (t :: p) r w →
  move_start t w = (Ok (inl s), w') →
  content_inv env files createdPaths w0 p (s :: r) w'.
Proof.
  intros (fin & H1 & H2 & H3 & H4 & H5 & H6) Hst.
  apply move_start_spec in Hst as [[= ->] ->].
  exists fin. cbn [fmap list_fmap omap list_omap move_cp hashed measured].
  split_and!; try done.
  - rewrite <- H1. apply Permutation_app_head. cbn. apply Permutation_middle.
  - intros cp Hcp. apply H2. cbn in Hcp.
    apply elem_of_cons in Hcp as [->|Hcp].
    + apply elem_of_app. right. left.
    + apply elem_of_app in Hcp as [Hcp|Hcp]; apply elem_of_app; auto.
      right. by right.
Qed.

Lemma content_resume_suspends (p : list CreatedPath) (s : MoveState)
    (r : list MoveState) (w : World) (s' : MoveState) (w' : World) :
  content_inv env files createdPaths w0 p (s :: r) w →
  move_resume env showMoveProgressBar s w = (Ok (inl s'), w') →
  content_inv env files createdPaths w0 p (s' :: r) w'.
Proof.
  intros (fin & H1 & H2 & H3 & (l & H4 & H5) & H6 & H7) Hres.
  apply move_resume_effect in Hres as (Ha & Hb & Hres).
  assert (Hmine : staged env files w (move_cp s)).
  { apply H2. cbn. left. }
  exists fin. destruct s as [cp|cp|cp|cp]; cbn [move_cp hashed measured omap
    list_omap fmap list_fmap] in *.
  - destruct Hres as ([= ->] & E1 & E2 & E3 & E4 & c & E5 & E6).
    destruct (staged_content _ _ _ _ Hmine E5) as [_ Hc].
    cbn [move_cp hashed measured omap list_omap fmap list_fmap].
    rewrite E1, E3. unfold staged in *. rewrite E2.
    split_and!; try done.
    eexists. split; [rewrite E6, H4, <- app_assoc; reflexivity|].
    rewrite H5, !fmap_app. cbn. rewrite <- app_assoc.
    apply Permutation_app_head. rewrite <- Hc.
    symmetry. apply (Permutation_cons_append _ (entry_of env files cp)).
  - destruct Hres as ([= ->] & E1 & E2 & E3 & E4 & c & E5 & E6).
    destruct (staged_content _ _ _ _ Hmine E5) as [_ Hc].
    cbn [move_cp hashed measured omap list_omap fmap list_fmap].
    rewrite E1, E3, E6. unfold staged in *. rewrite E2.
    rewrite output_size_static_middle, output_size_document_middle, Hc.
    unfold count_route.
    split_and!; try done;
      [by exists l|destruct (is_staticDir cp); cbn; lia
      |destruct (is_staticDir cp); cbn; lia].
  - destruct Hres as (E1 & E2 & [([= ->] & E3 & E4 & E5)|([=] & _)]).
    cbn [move_cp hashed measured omap list_omap fmap list_fmap].
    rewrite E1, E2, E3. unfold staged in *. rewrite E4.
    split_and!; try done. by exists l.
  - by destruct Hres as (_ & _ & [=] & _).
Qed.

Lemma content_resume_resolves (p : list CreatedPath) (s : MoveState)
    (r : list MoveState) (w : World) (u : unit) (w' : World) :
  content_inv env files createdPaths w0 p (s :: r) w →
  move_resume env showMoveProgressBar s w = (Ok (inr u), w') →
  content_inv env files createdPaths w0 p r w'.
Proof.
  intros (fin & H1 & H2 & H3 & (l & H4 & H5) & H6 & H7) Hres.
  apply move_resume_effect in Hres as (Ha & Hb & Hres).
  assert (Hmine : staged env files w (move_cp s)).
  { apply H2. cbn. left. }
  assert (∃ cp c, move_cp s = cp ∧ hashed s = Some cp ∧ measured s = Some cp
                ∧ manifest_files w' = manifest_files w
                ∧ buildMetrics w' = buildMetrics w
                ∧ staging w !! tempPath cp = Some c
                ∧ disk w' = <[realPath cp := c]> (disk w)
                ∧ (staging w' = staging w
                   ∨ staging w' = delete (tempPath cp) (staging w)))
    as (cp & c & C1 & C2 & C3 & C4 & C5 & C6 & C7 & C8).
  { destruct s as [cp|cp|cp|cp].
    - by destruct Hres as ([=] & _).
    - by destruct Hres as ([=] & _).
    - destruct Hres as (E1 & E2 & [([=] & _)|(_ & _ & c & E3 & E4 & E5)]).
      exists cp, c. split_and!; auto.
    - destruct Hres as (E1 & E2 & _ & _ & c & E3 & E4 & E5).
      exists cp, c. split_and!; auto. }
  cbn [fmap list_fmap omap list_omap] in *. rewrite C1 in *.
  rewrite C2 in H5. rewrite C3 in H6, H7.
  destruct (staged_content _ _ _ _ Hmine C6) as [Hout _].
  pose proof (others_differ tempPath _ _ _ _ _ tempPaths_differ H1) as Htemp.
  pose proof (others_differ realPath _ _ _ _ _ realPaths_differ H1) as Hreal.
  exists (fin ++ [cp]). rewrite <- !app_assoc. cbn [app].
  rewrite C4, C5. split_and!; try done.
  - intros cp' Hcp'. destruct (H2 cp') as [G1 G2].
    { cbn. by right. }
    split; [done|]. rewrite <- G2.
    destruct C8 as [->| ->]; [done|]. apply lookup_delete_ne.
    intros Heq. apply (Htemp cp'); [|done]. apply elem_of_app. by right.
  - intros cp' Hcp'. apply elem_of_app in Hcp' as [Hcp'|Hcp'].
    + destruct (H3 cp' Hcp') as [G1 G2]. split; [done|].
      rewrite C7, <- G2. apply lookup_insert_ne.
      intros Heq. apply (Hreal cp'); [|done]. apply elem_of_app. by left.
    + apply list_elem_of_singleton in Hcp' as ->.
      rewrite Hout. split; [done|]. by rewrite C7, lookup_insert_eq.
  - by exists l.
Qed.

(** A second pass that goes through, in contents, when it starts with the
    output of every route staged. *)
Lemma move_all_contents (order : list nat) (w' : World) (u : unit) :
  (∀ cp, cp ∈ createdPaths → staged env files w0 cp) →
  move_all env showMoveProgressBar createdPaths order w0 = (Ok u, w') →
  content_inv env files createdPaths w0 [] [] w'.
Proof.
  intros Hstaged H.
  pose proof (move_all_run env showMoveProgressBar createdPaths order w0) as Hrun.
  rewrite H in Hrun.
  assert (Hinit : content_inv env files createdPaths w0 createdPaths [] w0).
  { exists []. cbn. split_and!; try done.
    - intros cp Hcp. by apply elem_of_nil in Hcp.
    - exists []. by rewrite app_nil_r.
    - unfold output_size. cbn. lia.
    - unfold output_size. cbn. lia. }
  exact (AsyncFacts.run_invariant move_start
           (move_resume env showMoveProgressBar)
           NumConcurrentCopies (content_inv env files createdPaths w0)
           (λ _, True) content_inv_perm content_start
           (λ t p r w u1 w1 _ Hst,
              match proj1 (move_start_spec _ _ _ _ Hst) with end)
           (λ _ _ _ _ _ _ _ _, I)
           content_resume_suspends content_resume_resolves
           (λ _ _ _ _ _ _ _ _, I)
           _ _ _ _ _ (Ok u) w' Hinit Hrun).
Qed.

End Contents.

End Moving.

(** *** [export], part by part, when it goes through *)

Lemma export_prelude_locals (w w1 : World)
    (pre : option BuildManifest * list Route) :
  export_prelude env w = (Ok pre, w1) →
  disk w1 = disk w
  ∧ router_routes env = Ok (snd pre)
  ∧ artifacts w1 = [] ∧ bar w1 = 0%nat ∧ moveBar w1 = 0%nat
  ∧ manifest_files w1 = [] ∧ buildMetrics w1 = buildMetrics0.
Proof.
  unfold export_prelude, trigger, getExistingManifest, fileExists, readFile,
    mkdtempSync.
  intros H. unfold_m. split_matches; simplify_eq; cbn; done.
Qed.

Lemma export_build_ok (options : option ExportOptions) (routes : list Route)
    (w w' : World) (bm : BuildManifest) (mt : BuildMetrics) :
  export_build env options routes w = (Ok (bm, mt), w') →
  let cps := createdPath_of env <$> select_routes env options routes in
  ∃ w1 w2 u1 u2,
    stage_all env cps (build_completion_order env) w = (Ok u1, w1)
    ∧ move_all env
        (bool_decide (ShowMoveProgressBarThreshold ≤ List.length (artifacts w1))%nat)
        cps (move_completion_order env) w1 = (Ok u2, w2)
    ∧ bm = {| branch := None; built := built_date env; commit := None;
              files := manifest_files w2 |}
    ∧ mt = count_missing env (set_memoryUsage (heapUsed env) (buildMetrics w2))
    ∧ disk w' = disk w2 ∧ staging w' = ∅
    ∧ moveBar w' = moveBar w2 ∧ bar w' = bar w2.
Proof.
  rewrite export_build_unfold. cbv zeta.
  set (cps := createdPath_of env <$> select_routes env options routes).
  case_bool_decide as Hlen; [discriminate|]. intros H.
  apply bind_Ok_inv in H as (u1 & w1 & Hs & H1).
  apply bind_Ok_inv in H1 as (w1' & w1'' & Hg & H2).
  unfold get_world in Hg. injection Hg as <- <-.
  apply bind_Ok_inv in H2 as (u2 & w2 & Hm & H3).
  exists w1, w2, u1, u2. split; [done|]. split; [done|].
  unfold deleteDirectoryRecursive in H3. unfold_m.
  split_matches; simplify_eq. cbn. done.
Qed.

Lemma write_manifest_and_metrics_ok (bm : BuildManifest) (mt : BuildMetrics)
    (w w1 : World) :
  write_manifest_and_metrics env bm mt w = (Ok tt, w1) →
  disk w1
  = <[getAbsoluteFilePath env (metricsPodPath env) := stringify_metrics env mt]>
      (<[getAbsoluteFilePath env (manifestPodPath env)
         := stringify_manifest env bm]> (disk w))
  ∧ staging w1 = staging w ∧ moveBar w1 = moveBar w ∧ bar w1 = bar w.
Proof.
  unfold write_manifest_and_metrics, writeFile_to_disk, ensureDirectoryExists.
  intros H. unfold_m. split_matches; simplify_eq; cbn; done.
Qed.

Lemma deleteOutputFiles_locals (paths : list string) (w w' : World)
    (res : outcome unit) :
  deleteOutputFiles env paths w = (res, w') →
  moveBar w' = moveBar w ∧ bar w' = bar w.
Proof.
  unfold deleteOutputFiles. revert w.
  induction paths as [|p paths IH]; intros w H.
  - cbn in H. unfold ret in H. by injection H as <- <-.
  - cbn [forEach] in H. unfold bind at 1 in H.
    destruct (deleteOutputFile env p w) as [r1 w1] eqn:H1.
    assert (Hstep : moveBar w1 = moveBar w ∧ bar w1 = bar w).
    { unfold deleteOutputFile, unlinkSync, pruneDirectory in H1. unfold_m.
      split_matches; simplify_eq; cbn; done. }
    destruct r1 as [[]|err].
    + apply IH in H as [-> ->]. done.
    + by injection H as <- <-.
Qed.

(** The last part: what is returned, and what has changed on disk. *)
Lemma export_finish_ok (options : option ExportOptions)
    (P : option BuildManifest) (bm : BuildManifest) (mt : BuildMetrics)
    (w w' : World) (result : BuildResult) :
  export_finish env options P bm mt w = (Ok result, w') →
  result = {| metrics := mt; manifest := bm;
              diff := Diff.cleanOutputUsingManifests P bm options |}
  ∧ staging w' = staging w ∧ moveBar w' = moveBar w ∧ bar w' = bar w
  ∧ ∀ q, q ∉ absOutputPath env <$> deletes (diff result) →
      disk w' !! q
      = <[getAbsoluteFilePath env (metricsPodPath env) := stringify_metrics env mt]>
          (<[getAbsoluteFilePath env (manifestPodPath env)
             := stringify_manifest env bm]> (disk w)) !! q.
Proof.
  unfold export_finish, export_after_write. intros H.
  apply bind_Ok_inv in H as ([] & w1 & Hw & H1).
  apply write_manifest_and_metrics_ok in Hw as (W1 & W2 & W3 & W4).
  apply bind_Ok_inv in H1 as ([] & w2 & Hd & H2).
  assert (Hdel : staging w2 = staging w1 ∧ moveBar w2 = moveBar w1
                 ∧ bar w2 = bar w1
                 ∧ ∀ q, q ∉ absOutputPath env
                              <$> deletes (Diff.cleanOutputUsingManifests P bm options) →
                     disk w2 !! q = disk w1 !! q).
  { destruct (negb (patterns_truthy options)).
    - pose proof (deleteOutputFiles_locals _ _ _ _ Hd) as [? ?].
      apply CleanupLaws.deleteOutputFiles_frame in Hd as [? ?]. done.
    - unfold ret in Hd. by injection Hd as <-. }
  destruct Hdel as (D1 & D2 & D3 & D4).
  unfold trigger in H2. unfold_m. split_matches; simplify_eq; cbn;
    (split_and!; try congruence);
    intros q Hq; rewrite <- W1; by apply D4.
Qed.

Lemma normalPath_createdPath (sel : list Route) :
  normalPath <$> (createdPath_of env <$> sel) = outputPath_of <$> sel.
Proof. by rewrite <- list_fmap_compose. Qed.

Lemma static_routes_createdPath (sel : list Route) :
  List.length (static_routes (createdPath_of env <$> sel))
  = List.length (filter (λ r, is_static r = true) sel).
Proof.
  unfold static_routes. induction sel as [|r sel IH]; [done|].
  rewrite fmap_cons, !filter_cons.
  change (is_staticDir (createdPath_of env r)) with (is_static r).
  case_decide; cbn; by rewrite IH.
Qed.

Lemma document_routes_createdPath (sel : list Route) :
  List.length (document_routes (createdPath_of env <$> sel))
  = List.length (filter (λ r, is_static r = false) sel).
Proof.
  unfold document_routes. induction sel as [|r sel IH]; [done|].
  rewrite fmap_cons, !filter_cons.
  change (is_staticDir (createdPath_of env r)) with (is_static r).
  case_decide; cbn; by rewrite IH.
Qed.

Lemma foldl_add_total {A} (f : A → Z) (l : list A) (n : Z) :
  foldl (λ n x, n + f x) n l = n + total (f <$> l).
Proof.
  unfold total. revert n. induction l as [|a l IH]; intros n; cbn; [lia|].
  rewrite IH. lia.
Qed.

Lemma total_skip_zero {A} (f : A → Z) (keep : A → bool) (l : list A) :
  total (f <$> List.filter (λ x, keep x && negb (f x =? 0)) l)
  = total (f <$> List.filter keep l).
Proof.
  unfold total. induction l as [|a l IH]; [done|]. cbn.
  destruct (keep a); cbn; [|done].
  destruct (f a =? 0) eqn:E; cbn; rewrite IH; [|done].
  apply Z.eqb_eq in E. lia.
Qed.

(** The numbers of an export that goes through. *)
Lemma export_ok_counts (options : option ExportOptions) (w w' : World)
    (result : BuildResult) (routes : list Route) :
  export env options w = (Ok result, w') →
  router_routes env = Ok routes →
  let sel := select_routes env options routes in
  Diff.paths (manifest result) ≡ₚ outputPath_of <$> sel
  ∧ numStaticRoutes (metrics result)
    = Z.of_nat (List.length (filter (λ r, is_static r = true) sel))
  ∧ numDocumentRoutes (metrics result)
    = Z.of_nat (List.length (filter (λ r, is_static r = false) sel))
  ∧ memoryUsage (metrics result) = heapUsed env
  ∧ numMissingTranslations (metrics result)
    = total (recordedStrings_size
               <$> List.filter (λ l, negb (is_defaultLocale l)) (cache_locales env))
  ∧ bar w' = List.length sel
  ∧ moveBar w'
    = (if bool_decide (ShowMoveProgressBarThreshold ≤ List.length sel)%nat
       then List.length sel else 0%nat).
Proof.
  unfold export. intros H Hroutes.
  apply bind_Ok_inv in H as ([P routes'] & w1 & Hpre & H1).
  apply bind_Ok_inv in H1 as ([bm mt] & w2 & Hbuild & H2). cbn [fst snd] in *.
  apply export_prelude_locals in Hpre as (_ & Hr & L1 & L2 & L3 & L4 & L5).
  cbn [snd] in Hr. assert (routes' = routes) as -> by congruence.
  apply export_finish_ok in H2 as (-> & F1 & F2 & F3 & _).
  apply export_build_ok in Hbuild
    as (w3 & w4 & u1 & u2 & Hs & Hm & -> & -> & B1 & B2 & B3 & B4).
  cbv zeta. set (sel := select_routes env options routes) in *.
  set (cps := createdPath_of env <$> sel) in *.
  apply stage_all_spec in Hs
    as (al & A1 & A2 & A3 & (_ & A4 & A5 & A6 & _) & _).
  cbn [fmap list_fmap omap list_omap app] in A2. rewrite app_nil_r in A2.
  assert (Hn : List.length al = List.length sel).
  { rewrite A2. unfold cps. by rewrite !length_fmap. }
  rewrite A1, L1 in Hm. cbn [app] in Hm. rewrite Hn in Hm.
  apply move_all_counts in Hm
    as (fin & C1 & (l & C2 & C3) & C4 & C5 & C6 & C7 & C8 & C9 & C10).
  cbn [fmap list_fmap omap list_omap app] in *. rewrite !app_nil_r in *.
  assert (Hfin : List.length fin = List.length sel).
  { rewrite C1. unfold cps. by rewrite length_fmap. }
  cbn [manifest metrics]. subst cps. split_and!.
  - unfold Diff.paths. cbn [files]. rewrite C2, A4, L4. cbn [app].
    rewrite C3, C1. by rewrite normalPath_createdPath.
  - cbn. rewrite C4, A5, L5. cbn.
    rewrite (Permutation_length (static_routes_perm _ _ C1)).
    by rewrite static_routes_createdPath.
  - cbn. rewrite C5, A5, L5. cbn.
    rewrite (Permutation_length (document_routes_perm _ _ C1)).
    by rewrite document_routes_createdPath.
  - reflexivity.
  - cbn. rewrite foldl_add_total, C7, A5, L5. cbn.
    rewrite <- (total_skip_zero recordedStrings_size
                  (λ l, negb (is_defaultLocale l))).
    rewrite Z.add_0_l. do 2 f_equal. apply List.filter_ext. intros l0.
    by destruct (is_defaultLocale l0), (recordedStrings_size l0 =? 0).
  - rewrite F3, B4, C10, A3, L2, Hn. lia.
  - rewrite F2, B3, C8, A6, L3, Hfin. cbn.
    by destruct (bool_decide (ShowMoveProgressBarThreshold ≤ List.length sel)%nat).
Qed.

(** The contents of a build that goes through, when no two routes share a
    staged file or a final file. *)
Lemma export_build_contents (options : option ExportOptions)
    (routes : list Route) (w w' : World) (bm : BuildManifest) (mt : BuildMetrics) :
  export_build env options routes w = (Ok (bm, mt), w') →
  let cps := createdPath_of env <$> select_routes env options routes in
  NoDup (tempPath <$> cps) →
  NoDup (realPath <$> cps) →
  (∀ cp, cp ∈ cps →
     is_Some (output_of env (disk w) cp)
     ∧ disk w' !! realPath cp = output_of env (disk w) cp)
  ∧ (∃ l, files bm = manifest_files w ++ l
          ∧ l ≡ₚ entry_of env (disk w) <$> cps)
  ∧ outputSizeStaticFiles mt
    = outputSizeStaticFiles (buildMetrics w)
      + output_size env (disk w) (static_routes cps)
  ∧ outputSizeDocuments mt
    = outputSizeDocuments (buildMetrics w)
      + output_size env (disk w) (document_routes cps).
Proof.
  intros H cps Htemp Hreal.
  apply export_build_ok in H
    as (w1 & w2 & u1 & u2 & Hs & Hm & -> & -> & B1 & B2 & B3 & B4).
  fold cps in Hs, Hm.
  destruct (stage_all_staged cps w Htemp _ _ _ Hs) as [S1 S2].
  apply stage_all_spec in Hs as (al & _ & _ & _ & (_ & A4 & A5 & _) & _).
  apply (move_all_contents _ cps w1 (disk w) Htemp Hreal) in Hm; [|done].
  destruct Hm as (fin & C1 & _ & C3 & (l & C4 & C5) & C6 & C7).
  cbn [fmap list_fmap omap list_omap app] in *. rewrite !app_nil_r in *.
  split_and!.
  - intros cp Hcp. rewrite B1. apply C3. by rewrite C1.
  - exists l. cbn [files]. split; [congruence|]. by rewrite C5, C1.
  - cbn. rewrite C6, A5. f_equal.
    apply output_size_perm, static_routes_perm, C1.
  - cbn. rewrite C7, A5. f_equal.
    apply output_size_perm, document_routes_perm, C1.
Qed.

End WithEnv.

End BuildLaws.
(* ===================================================================== *)
(** ** What [export] returns and leaves behind                            *)
(* ===================================================================== *)

Module ExportLaws.
Import Builder Props MFacts Laws.
Import StagingFacts MoveFacts ExportFacts BuildLaws.

Section WithEnv.

Variable env : Env.

(** X9. The manifest that [export] returns lists the output path of every
    selected route, once for each route, and nothing else. *)
Theorem export_lists_every_selected_route
    (options : option ExportOptions) (w w' : World) (result : BuildResult)
    (routes : list Route) :
  export env options w = (Ok result, w') →
  router_routes env = Ok routes →
  Diff.paths (manifest result)
  ≡ₚ outputPath_of <$> select_routes env options routes.
Proof.
  intros H Hr. by destruct (export_ok_counts env _ _ _ _ _ H Hr) as (? & _).
Qed.

(** X10. In the metrics that [export] returns, [numStaticRoutes] is the
    number of selected routes whose provider is a static directory,
    [numDocumentRoutes] the number of the other selected routes,
    [memoryUsage] the heap in use, and [numMissingTranslations] the number
    of recorded strings over the locales other than the default one. *)
Theorem export_counts_the_routes
    (options : option ExportOptions) (w w' : World) (result : BuildResult)
    (routes : list Route) :
  export env options w = (Ok result, w') →
  router_routes env = Ok routes →
  let sel := select_routes env options routes in
  numStaticRoutes (metrics result)
  = Z.of_nat (List.length (filter (λ r, is_static r = true) sel))
  ∧ numDocumentRoutes (metrics result)
    = Z.of_nat (List.length (filter (λ r, is_static r = false) sel))
  ∧ numStaticRoutes (metrics result) + numDocumentRoutes (metrics result)
    = Z.of_nat (List.length sel)
  ∧ memoryUsage (metrics result) = heapUsed env
  ∧ numMissingTranslations (metrics result)
    = total (recordedStrings_size
               <$> List.filter (λ l, negb (is_defaultLocale l))
                     (cache_locales env)).
Proof.
  intros H Hr sel.
  destruct (export_ok_counts env _ _ _ _ _ H Hr)
    as (_ & C1 & C2 & C3 & C4 & _).
  fold sel in C1, C2. split_and!; try done.
  rewrite C1, C2, <- Nat2Z.inj_add. f_equal.
  clear. induction sel as [|r sel IH]; [done|].
  rewrite !filter_cons. destruct (is_static r); repeat case_decide; try done;
    cbn; lia.
Qed.

(** X11. The progress bar of the second pass is used exactly when there
    are at least [ShowMoveProgressBarThreshold] (1000) selected routes; when
    [export] returns it has then been incremented once for each route, and
    the first bar has been incremented once for each route in any case. *)
Theorem export_shows_the_second_bar_from_a_thousand_routes
    (options : option ExportOptions) (w w' : World) (result : BuildResult)
    (routes : list Route) :
  export env options w = (Ok result, w') →
  router_routes env = Ok routes →
  let n := List.length (select_routes env options routes) in
  bar w' = n
  ∧ moveBar w' = (if bool_decide (1000 ≤ n)%nat then n else 0%nat).
Proof.
  intros H Hr n.
  by destruct (export_ok_counts env _ _ _ _ _ H Hr) as (_ & _ & _ & _ & _ & ? & ?).
Qed.

(** X12. When [export] returns, the final path of every selected route
    holds the output of the route: a copy of the source file for a static
    route, the content the route was built to otherwise.  This is for an
    export in which no two routes share a staged file or a final file, and
    in which neither the manifest, nor the metrics, nor a file deleted as
    stale is the final file of a route. *)
Theorem export_writes_the_output_of_every_route
    (options : option ExportOptions) (w w' : World) (result : BuildResult)
    (routes : list Route) :
  export env options w = (Ok result, w') →
  router_routes env = Ok routes →
  let cps := createdPath_of env <$> select_routes env options routes in
  NoDup (tempPath <$> cps) →
  NoDup (realPath <$> cps) →
  getAbsoluteFilePath env (manifestPodPath env) ∉ realPath <$> cps →
  getAbsoluteFilePath env (metricsPodPath env) ∉ realPath <$> cps →
  (∀ p, p ∈ deletes (diff result) → absOutputPath env p ∉ realPath <$> cps) →
  (∀ cp, cp ∈ cps →
     is_Some (output_of env (disk w) cp)
     ∧ disk w' !! realPath cp = output_of env (disk w) cp)
  ∧ staging w' = ∅.
Proof.
  intros H Hroutes cps Htemp Hreal Hman Hmet Hdel. unfold export in H.
  apply bind_Ok_inv in H as ([P routes'] & w1 & Hpre & H1).
  apply bind_Ok_inv in H1 as ([bm mt] & w2 & Hbuild & H2). cbn [fst snd] in *.
  apply export_prelude_locals in Hpre as (D1 & Hr & _).
  cbn [snd] in Hr. assert (routes' = routes) as -> by congruence.
  pose proof (export_build_ok env _ _ _ _ _ _ Hbuild)
    as (_ & _ & _ & _ & _ & _ & _ & _ & _ & Hst & _).
  destruct (export_build_contents env _ _ _ _ _ _ Hbuild Htemp Hreal)
    as (B1 & _).
  apply export_finish_ok in H2 as (Hres & F1 & _ & _ & F4).
  split; [|congruence].
  intros cp Hcp. fold cps in B1. destruct (B1 cp Hcp) as [G1 G2].
  rewrite D1 in G1, G2. split; [done|]. rewrite <- G2.
  assert (Hin : realPath cp ∈ realPath <$> cps) by (by apply list_elem_of_fmap_2).
  rewrite F4.
  - rewrite !lookup_insert_ne; [done| |]; by intros Heq; rewrite Heq in *.
  - intros Hq. apply list_elem_of_fmap in Hq as (p & Hp & Hq).
    apply (Hdel p Hq). by rewrite <- Hp.
Qed.

(** X13. In the manifest that [export] returns every selected route has
    one entry, made of its output path and the digest of its output, and
    there is no other entry; the two size totals of the metrics are the
    sizes of those outputs added up, static files on one side and built
    documents on the other.  This is for an export in which no two routes
    share a staged file or a final file. *)
Theorem export_hashes_and_measures_every_output
    (options : option ExportOptions) (w w' : World) (result : BuildResult)
    (routes : list Route) :
  export env options w = (Ok result, w') →
  router_routes env = Ok routes →
  let cps := createdPath_of env <$> select_routes env options routes in
  NoDup (tempPath <$> cps) →
  NoDup (realPath <$> cps) →
  files (manifest result) ≡ₚ entry_of env (disk w) <$> cps
  ∧ outputSizeStaticFiles (metrics result)
    = output_size env (disk w) (static_routes cps)
  ∧ outputSizeDocuments (metrics result)
    = output_size env (disk w) (document_routes cps).
Proof.
  intros H Hroutes cps Htemp Hreal. unfold export in H.
  apply bind_Ok_inv in H as ([P routes'] & w1 & Hpre & H1).
  apply bind_Ok_inv in H1 as ([bm mt] & w2 & Hbuild & H2). cbn [fst snd] in *.
  apply export_prelude_locals in Hpre as (D1 & Hr & _ & _ & _ & L4 & L5).
  cbn [snd] in Hr. assert (routes' = routes) as -> by congruence.
  destruct (export_build_contents env _ _ _ _ _ _ Hbuild Htemp Hreal)
    as (_ & (l & B2 & B3) & B4 & B5).
  apply export_finish_ok in H2 as (-> & _). cbn [manifest metrics].
  fold cps in B3, B4, B5. rewrite D1 in B3, B4, B5.
  rewrite L5 in B4, B5. cbn in B4, B5. rewrite L4 in B2. cbn in B2.
  split_and!; [by rewrite B2|lia|lia].
Qed.

(** X14. When [export] returns, [manifest.json] holds the serialisation of
    the manifest it returns and [metrics.json] that of the metrics it
    returns, provided they are two files and neither is deleted as stale. *)
Theorem export_persists_what_it_returns
    (options : option ExportOptions) (w w' : World) (result : BuildResult) :
  let manifestPath := getAbsoluteFilePath env (manifestPodPath env) in
  let metricsPath := getAbsoluteFilePath env (metricsPodPath env) in
  export env options w = (Ok result, w') →
  manifestPath ≠ metricsPath →
  (∀ p, p ∈ deletes (diff result) →
     absOutputPath env p ≠ manifestPath ∧ absOutputPath env p ≠ metricsPath) →
  disk w' !! manifestPath = Some (stringify_manifest env (manifest result))
  ∧ disk w' !! metricsPath = Some (stringify_metrics env (metrics result)).
Proof.
  intros manifestPath metricsPath H Hne Hdel. unfold export in H.
  apply bind_Ok_inv in H as ([P routes'] & w1 & Hpre & H1).
  apply bind_Ok_inv in H1 as ([bm mt] & w2 & Hbuild & H2). cbn [fst snd] in *.
  apply export_finish_ok in H2 as (Hres & _ & _ & _ & F4).
  fold manifestPath metricsPath in F4.
  assert (Hout : ∀ q, (q = manifestPath ∨ q = metricsPath) →
            q ∉ absOutputPath env <$> deletes (diff result)).
  { intros q Hq Hin. apply list_elem_of_fmap in Hin as (p & Hp & Hin).
    destruct (Hdel p Hin) as [N1 N2]. destruct Hq; congruence. }
  rewrite !F4 by auto. rewrite Hres. cbn [manifest metrics]. split.
  - rewrite lookup_insert_ne by done. by rewrite lookup_insert_eq.
  - by rewrite lookup_insert_eq.
Qed.

(** *** The hooks *)

Ltac hook_trace :=
  cbn; rewrite <- ?app_assoc; cbn [app];
  eexists; (split; [reflexivity|]); by repeat constructor.

Lemma export_prelude_trace (w w1 : World)
    (res : outcome (option BuildManifest * list Route)) :
  export_prelude env w = (res, w1) →
  ∃ ops, trace w1 = trace w ++ OpHook "beforeBuild" :: ops
         ∧ Forall (λ op, is_not_hook op = true) ops.
Proof.
  unfold export_prelude, trigger, getExistingManifest, fileExists, readFile,
    mkdtempSync.
  intros H. unfold_m. split_matches; simplify_eq; hook_trace.
Qed.

Lemma deleteOutputFiles_no_hook (paths : list string) (w w' : World)
    (res : outcome unit) :
  deleteOutputFiles env paths w = (res, w') → only_ops is_not_hook w w'.
Proof.
  revert w. induction paths as [|p paths IH]; intros w H.
  - unfold deleteOutputFiles in H. cbn in H. unfold ret in H.
    injection H as <- <-. apply only_ops_refl.
  - unfold deleteOutputFiles in H. cbn [forEach] in H. unfold bind at 1 in H.
    destruct (deleteOutputFile env p w) as [r1 w1] eqn:H1.
    assert (only_ops is_not_hook w w1) as Ho.
    { unfold deleteOutputFile, unlinkSync, pruneDirectory in H1. unfold_m.
      split_matches; simplify_eq; unfold only_ops; hook_trace. }
    destruct r1 as [[]|err].
    + eapply only_ops_trans; [exact Ho|]. by eapply IH.
    + by injection H as <- <-.
Qed.

Lemma export_finish_trace (options : option ExportOptions)
    (P : option BuildManifest) (bm : BuildManifest) (mt : BuildMetrics)
    (w w' : World) (res : outcome BuildResult) :
  export_finish env options P bm mt w = (res, w') →
  ∃ ops,
    trace w' = trace w ++ ops
    ∧ ((Forall (λ op, is_not_hook op = true) ops ∧ ∃ err, res = Throw err)
       ∨ ∃ mid,
           ops = mid ++ [OpHook "afterBuild"]
           ∧ Forall (λ op, is_not_hook op = true) mid
           ∧ match hook_fails env "afterBuild" with
             | Some what => res = Throw (Raised what)
             | None => ∃ result, res = Ok result
             end).
Proof.
  unfold export_finish, export_after_write. intros H. unfold bind at 1 in H.
  destruct (write_manifest_and_metrics env bm mt w) as [r1 w1] eqn:H1.
  assert (only_ops is_not_hook w w1) as (ops1 & T1 & N1).
  { unfold write_manifest_and_metrics, writeFile_to_disk,
      ensureDirectoryExists in H1.
    unfold_m. split_matches; simplify_eq; unfold only_ops; hook_trace. }
  destruct r1 as [[]|err].
  2:{ injection H as <- <-. exists ops1. split; [done|]. left. eauto. }
  unfold bind at 1 in H.
  destruct ((if negb (patterns_truthy options)
             then deleteOutputFiles env
                    (deletes (Diff.cleanOutputUsingManifests P bm options))
             else ret tt) w1) as [r2 w2] eqn:H2.
  assert (only_ops is_not_hook w1 w2) as (ops2 & T2 & N2).
  { destruct (negb (patterns_truthy options)).
    - by eapply deleteOutputFiles_no_hook.
    - unfold ret in H2. injection H2 as <- <-. apply only_ops_refl. }
  destruct r2 as [[]|err].
  2:{ injection H as <- <-. exists (ops1 ++ ops2).
      split; [by rewrite T2, T1, app_assoc|]. left.
      split; [by apply Forall_app|eauto]. }
  exists ((ops1 ++ ops2) ++ [OpHook "afterBuild"]).
  unfold trigger in H. unfold_m.
  destruct (hook_fails env "afterBuild") as [what|] eqn:Hh;
    injection H as <- <-; cbn; rewrite T2, T1, <- !app_assoc;
    (split; [done|]); right; exists (ops1 ++ ops2);
    rewrite <- !app_assoc; (split_and!; [done|by apply Forall_app|eauto]).
Qed.

(** X15. Every export starts by triggering [beforeBuild].  [afterBuild] is
    triggered only as the last step of an export that has built, written
    and cleaned up everything: an export that returns has triggered these
    two hooks and no other, first and last; an export that fails has not
    triggered [afterBuild], unless [afterBuild] is what failed. *)
Theorem hooks_bracket_the_export (options : option ExportOptions) (w : World) :
  let r := export env options w in
  ∃ ops,
    trace (snd r) = trace w ++ OpHook "beforeBuild" :: ops
    ∧ match fst r with
      | Ok _ =>
          ∃ mid, ops = mid ++ [OpHook "afterBuild"]
                 ∧ Forall (λ op, is_not_hook op = true) mid
      | Throw err =>
          Forall (λ op, is_not_hook op = true) ops
          ∨ ∃ mid what,
              ops = mid ++ [OpHook "afterBuild"]
              ∧ Forall (λ op, is_not_hook op = true) mid
              ∧ hook_fails env "afterBuild" = Some what
              ∧ err = Raised what
      end.
Proof.
  cbv zeta. unfold export, bind.
  destruct (export_prelude env w) as [r0 w0] eqn:H0.
  apply export_prelude_trace in H0 as (ops0 & T0 & N0).
  destruct r0 as [[P routes]|err]; cbn [fst snd].
  2:{ exists ops0. split; [done|]. by left. }
  destruct (export_build env options routes w0) as [r1 w1] eqn:H1.
  apply export_build_spec in H1 as ((_ & _ & _ & (ops1 & T1 & N1)) & _).
  assert (N1' : Forall (λ op, is_not_hook op = true) ops1).
  { eapply Forall_impl; [exact N1|]. by intros []. }
  destruct r1 as [[bm mt]|err]; cbn [fst snd].
  2:{ exists (ops0 ++ ops1). split.
      - by rewrite T1, T0, <- app_assoc.
      - left. by apply Forall_app. }
  destruct (export_finish env options P bm mt w1) as [r2 w2] eqn:H2.
  apply export_finish_trace in H2 as (ops2 & T2 & Hops). cbn [fst snd].
  exists (ops0 ++ ops1 ++ ops2). split.
  { rewrite T2, T1, T0, <- !app_assoc. done. }
  destruct Hops as [[N2 [err ->]]|(mid & -> & N2 & Hh)].
  - left. by repeat (apply Forall_app_2; [done|]).
  - destruct (hook_fails env "afterBuild") as [what|] eqn:Hw.
    + subst r2. right. exists (ops0 ++ ops1 ++ mid), what.
      rewrite <- !app_assoc. split_and!; try done.
      by repeat (apply Forall_app_2; [done|]).
    + destruct Hh as [result ->]. exists (ops0 ++ ops1 ++ mid).
      rewrite <- !app_assoc. split; [done|]. by repeat (apply Forall_app_2; [done|]).
Qed.

(** *** The previous manifest *)

(** X16. When [manifest.json] is there and can be read but [JSON.parse]
    throws on its content, [export] fails with what [JSON.parse] threw,
    right after reading the file: no temporary directory has been created,
    no route has been asked for, built or copied, and no file has changed. *)
Theorem export_stops_at_a_manifest_that_does_not_parse
    (options : option ExportOptions) (w : World) (content : string)
    (err : Error) :
  let manifestPath := getAbsoluteFilePath env (manifestPodPath env) in
  hook_fails env "beforeBuild" = None →
  io_fails env (OpRead manifestPath) = None →
  disk w !! manifestPath = Some content →
  JSON_parse env content = Throw err →
  ∃ w',
    export env options w = (Throw err, w')
    ∧ disk w' = disk w ∧ staging w' = staging w
    ∧ trace w'
      = trace w ++ [OpHook "beforeBuild"; OpExists manifestPath;
                    OpRead manifestPath].
Proof.
  intros manifestPath Hh Hio Hd Hp.
  unfold export, export_prelude, trigger, getExistingManifest, fileExists,
    readFile. fold manifestPath.
  unfold_m. rewrite Hh. cbn. rewrite Hd.
  rewrite bool_decide_eq_true_2 by eauto. cbn. rewrite Hio. cbn.
  rewrite Hd, Hp. eexists. split; [reflexivity|]. cbn.
  by rewrite <- !app_assoc.
Qed.

(** X17. An export of a pod that has no [manifest.json] reports every
    file of the manifest it returns as added, and nothing as edited,
    unchanged or deleted. *)
Theorem first_export_adds_everything
    (options : option ExportOptions) (w w' : World) (result : BuildResult) :
  disk w !! getAbsoluteFilePath env (manifestPodPath env) = None →
  export env options w = (Ok result, w') →
  diff result
  = {| adds := Diff.paths (manifest result); edits := [];
       noChanges := []; deletes := [] |}.
Proof.
  intros Hd H. unfold export in H.
  apply bind_Ok_inv in H as ([P routes'] & w1 & Hpre & H1).
  apply bind_Ok_inv in H1 as ([bm mt] & w2 & Hbuild & H2). cbn [fst snd] in *.
  apply export_finish_ok in H2 as (-> & _). cbn [diff manifest].
  assert (P = None) as ->; [|done].
  unfold export_prelude, trigger, getExistingManifest, fileExists, readFile,
    mkdtempSync in Hpre.
  unfold_m. split_matches; simplify_eq; try done.
  all: cbn in *; rewrite Hd in *;
    match goal with
    | E : bool_decide (is_Some None) = true |- _ =>
        apply bool_decide_eq_true in E; by destruct E
    end.
Qed.

(** *** The temporary directory *)

Lemma no_rmtree_of_stage (w w' : World) :
  only_ops is_stage_op w w' → only_ops (λ op, negb (is_rmtree op)) w w'.
Proof. apply only_ops_mono. by intros []. Qed.

Lemma no_rmtree_of_move (w w' : World) :
  only_ops is_move_op w w' → only_ops (λ op, negb (is_rmtree op)) w w'.
Proof. apply only_ops_mono. by intros []. Qed.

Lemma export_build_throws_before_cleaning (options : option ExportOptions)
    (routes : list Route) (w w' : World) (err : Error) :
  export_build env options routes w = (Throw err, w') →
  io_fails env (OpRmTree (tempDirRoot env)) = None →
  only_ops (λ op, negb (is_rmtree op)) w w'.
Proof.
  rewrite export_build_unfold. cbv zeta.
  set (cps := createdPath_of env <$> select_routes env options routes).
  intros H Hio. case_bool_decide as Hlen.
  - unfold throw in H. injection H as _ <-. apply only_ops_refl.
  - unfold bind at 1 in H.
    destruct (stage_all env cps (build_completion_order env) w)
      as [r1 w1] eqn:Hs.
    pose proof (stage_all_spec env _ _ _ _ _ Hs) as Hspec.
    assert (Hf1 : only_ops (λ op, negb (is_rmtree op)) w w1).
    { apply no_rmtree_of_stage. destruct r1.
      - by destruct Hspec as (l & _ & _ & _ & (_ & _ & _ & _ & _ & Ho) & _).
      - by destruct Hspec as (l & _ & _ & _ & _ & (_ & _ & _ & _ & _ & Ho)). }
    destruct r1 as [[]|e1]; [|by injection H as _ <-].
    unfold bind at 1, get_world in H. unfold bind at 1 in H.
    set (show := bool_decide
                   (ShowMoveProgressBarThreshold ≤ List.length (artifacts w1))%nat)
      in H.
    destruct (move_all env show cps (move_completion_order env) w1)
      as [r2 w2] eqn:Hm.
    pose proof (move_all_spec env _ _ _ _ _ _ Hm) as ((ops & Ht & Hk & _) & _).
    assert (Hf2 : only_ops (λ op, negb (is_rmtree op)) w1 w2).
    { apply no_rmtree_of_move. by exists ops. }
    destruct r2 as [[]|e2].
    + exfalso. unfold deleteDirectoryRecursive in H. unfold_m.
      rewrite Hio in H. discriminate H.
    + injection H as _ <-. by eapply only_ops_trans.
Qed.

(** X18. The temporary directory is removed only once every staged file
    has been moved: when an export fails on an empty selection, while
    staging, or while hashing, measuring and moving, the directory that
    [mkdtempSync] created is left behind. *)
Theorem failed_build_leaves_the_temporary_directory
    (options : option ExportOptions) (w w1 w2 : World)
    (pre : option BuildManifest * list Route) (err : Error) :
  export_prelude env w = (Ok pre, w1) →
  export_build env options (snd pre) w1 = (Throw err, w2) →
  io_fails env (OpRmTree (tempDirRoot env)) = None →
  export env options w = (Throw err, w2)
  ∧ ∃ ops1 ops2,
      trace w2 = trace w ++ ops1 ++ OpMkdtemp (tempDirRoot env) :: ops2
      ∧ Forall (λ op, is_rmtree op = false) (ops1 ++ ops2).
Proof.
  intros Hpre Hbuild Hio. split.
  { unfold export. rewrite (bind_Ok _ _ _ _ _ Hpre). by apply bind_Throw. }
  apply export_build_throws_before_cleaning in Hbuild as (ops & T & N); [|done].
  assert (∃ ops1, trace w1 = trace w ++ ops1 ++ [OpMkdtemp (tempDirRoot env)]
                  ∧ Forall (λ op, is_rmtree op = false) ops1)
    as (ops1 & T1 & N1).
  { unfold export_prelude, trigger, getExistingManifest, fileExists, readFile,
      mkdtempSync in Hpre.
    unfold_m. split_matches; simplify_eq; cbn; rewrite <- ?app_assoc;
      cbn [app];
      match goal with
      | |- ∃ ops1, _ ++ ?l = _ ++ ops1 ++ [?x] ∧ _ =>
          exists (removelast l)
      end; cbn; (split; [reflexivity|]); by repeat constructor. }
  exists ops1, ops. rewrite T, T1, <- !app_assoc. cbn [app]. split; [done|].
  apply Forall_app. split; [done|].
  eapply Forall_impl; [exact N|]. intros op Hop. cbn in Hop.
  by destruct (is_rmtree op).
Qed.

End WithEnv.

Lemma export_lists_every_selected_route_witness :
  ∃ result w',
    export (Demo.env [Demo.home; Demo.stylesheet] Demo.no_failure []) None
      Demo.fresh_pod = (Ok result, w')
    ∧ Diff.paths (manifest result) ≡ₚ ["/index.html"; "/static/app.css"].
Proof.
  destruct (export (Demo.env [Demo.home; Demo.stylesheet] Demo.no_failure [])
              None Demo.fresh_pod) as [[result|err] w'] eqn:E;
    [|exfalso; vm_compute in E; discriminate E].
  exists result, w'. split; [done|].
  apply (export_lists_every_selected_route _ None Demo.fresh_pod w' result
           [Demo.home; Demo.stylesheet] E eq_refl).
Defined.

Lemma export_counts_the_routes_witness :
  ∃ result w',
    export (Demo.env [Demo.home; Demo.stylesheet] Demo.no_failure []) None
      Demo.fresh_pod = (Ok result, w')
    ∧ numStaticRoutes (metrics result) = 1
    ∧ numDocumentRoutes (metrics result) = 1.
Proof.
  destruct (export (Demo.env [Demo.home; Demo.stylesheet] Demo.no_failure [])
              None Demo.fresh_pod) as [[result|err] w'] eqn:E;
    [|exfalso; vm_compute in E; discriminate E].
  exists result, w'. split; [done|].
  destruct (export_counts_the_routes _ None Demo.fresh_pod w' result
              [Demo.home; Demo.stylesheet] E eq_refl) as (H1 & H2 & _).
  split; [exact H1|exact H2].
Defined.

Lemma export_shows_the_second_bar_from_a_thousand_routes_witness :
  ∃ result w',
    export (Demo.env [Demo.home; Demo.stylesheet] Demo.no_failure []) None
      Demo.fresh_pod = (Ok result, w')
    ∧ bar w' = 2%nat ∧ moveBar w' = 0%nat.
Proof.
  destruct (export (Demo.env [Demo.home; Demo.stylesheet] Demo.no_failure [])
              None Demo.fresh_pod) as [[result|err] w'] eqn:E;
    [|exfalso; vm_compute in E; discriminate E].
  exists result, w'. split; [done|].
  apply (export_shows_the_second_bar_from_a_thousand_routes _ None
           Demo.fresh_pod w' result [Demo.home; Demo.stylesheet] E eq_refl).
Defined.

Lemma export_writes_the_output_of_every_route_witness :
  ∃ result w',
    export (Demo.env [Demo.home; Demo.stylesheet] Demo.no_failure []) None
      Demo.fresh_pod = (Ok result, w')
    ∧ disk w' !! "/pod/build/index.html" = Some "hello"
    ∧ disk w' !! "/pod/build/static/app.css" = Some "body {}".
Proof.
  destruct (export (Demo.env [Demo.home; Demo.stylesheet] Demo.no_failure [])
              None Demo.fresh_pod) as [[result|err] w'] eqn:E;
    [|exfalso; vm_compute in E; discriminate E].
  exists result, w'. split; [done|].
  assert (Hd : deletes (diff result) = []).
  { pose proof E as E1. vm_compute in E1. by injection E1 as <- _. }
  destruct (export_writes_the_output_of_every_route _ None Demo.fresh_pod w'
              result [Demo.home; Demo.stylesheet] E eq_refl) as [H _].
  - apply (bool_decide_unpack _). vm_compute. exact I.
  - apply (bool_decide_unpack _). vm_compute. exact I.
  - apply (bool_decide_unpack _). vm_compute. exact I.
  - apply (bool_decide_unpack _). vm_compute. exact I.
  - intros p Hp. rewrite Hd in Hp. by apply elem_of_nil in Hp.
  - split.
    + apply (H (createdPath_of (Demo.env [Demo.home; Demo.stylesheet]
                                  Demo.no_failure []) Demo.home)). left.
    + apply (H (createdPath_of (Demo.env [Demo.home; Demo.stylesheet]
                                  Demo.no_failure []) Demo.stylesheet)).
      right. left.
Defined.

Lemma export_hashes_and_measures_every_output_witness :
  ∃ result w',
    export (Demo.env [Demo.home; Demo.stylesheet] Demo.no_failure []) None
      Demo.fresh_pod = (Ok result, w')
    ∧ files (manifest result)
      ≡ₚ [mkPodPathSha "/index.html" "sha1:hello";
          mkPodPathSha "/static/app.css" "sha1:body {}"]
    ∧ outputSizeStaticFiles (metrics result) = 7
    ∧ outputSizeDocuments (metrics result) = 5.
Proof.
  destruct (export (Demo.env [Demo.home; Demo.stylesheet] Demo.no_failure [])
              None Demo.fresh_pod) as [[result|err] w'] eqn:E;
    [|exfalso; vm_compute in E; discriminate E].
  exists result, w'. split; [done|].
  apply (export_hashes_and_measures_every_output _ None Demo.fresh_pod w'
           result [Demo.home; Demo.stylesheet] E eq_refl).
  - apply (bool_decide_unpack _). vm_compute. exact I.
  - apply (bool_decide_unpack _). vm_compute. exact I.
Defined.

Lemma export_persists_what_it_returns_witness :
  ∃ result w',
    export (Demo.env [Demo.home; Demo.stylesheet] Demo.no_failure []) None
      Demo.fresh_pod = (Ok result, w')
    ∧ disk w' !! "/pod/build/.amagaki/manifest.json"
      = Some (Demo.print_manifest (manifest result))
    ∧ disk w' !! "/pod/build/.amagaki/metrics.json"
      = Some (Demo.print_metrics (metrics result)).
Proof.
  destruct (export (Demo.env [Demo.home; Demo.stylesheet] Demo.no_failure [])
              None Demo.fresh_pod) as [[result|err] w'] eqn:E;
    [|exfalso; vm_compute in E; discriminate E].
  exists result, w'. split; [done|].
  assert (Hd : deletes (diff result) = []).
  { pose proof E as E1. vm_compute in E1. by injection E1 as <- _. }
  apply (export_persists_what_it_returns _ None Demo.fresh_pod w' result E).
  - discriminate.
  - intros p Hp. rewrite Hd in Hp. by apply elem_of_nil in Hp.
Defined.

Lemma export_stops_at_a_manifest_that_does_not_parse_witness :
  ∃ w',
    export (Demo.env [Demo.home] Demo.no_failure []) None
      (Demo.world [("/pod/build/.amagaki/manifest.json", "{")])
    = (Throw (Raised "SyntaxError"), w')
    ∧ trace w'
      = [OpHook "beforeBuild";
         OpExists "/pod/build/.amagaki/manifest.json";
         OpRead "/pod/build/.amagaki/manifest.json"].
Proof.
  destruct (export_stops_at_a_manifest_that_does_not_parse
              (Demo.env [Demo.home] Demo.no_failure []) None
              (Demo.world [("/pod/build/.amagaki/manifest.json", "{")])
              "{" (Raised "SyntaxError"))
    as (w' & H & _ & _ & T); try reflexivity.
  exists w'. split; [exact H|exact T].
Defined.

Lemma first_export_adds_everything_witness :
  ∃ result w',
    export (Demo.env [Demo.home; Demo.stylesheet] Demo.no_failure []) None
      Demo.fresh_pod = (Ok result, w')
    ∧ adds (diff result) = Diff.paths (manifest result)
    ∧ deletes (diff result) = [].
Proof.
  destruct (export (Demo.env [Demo.home; Demo.stylesheet] Demo.no_failure [])
              None Demo.fresh_pod) as [[result|err] w'] eqn:E;
    [|exfalso; vm_compute in E; discriminate E].
  exists result, w'. split; [done|].
  rewrite (first_export_adds_everything
             (Demo.env [Demo.home; Demo.stylesheet] Demo.no_failure [])
             None Demo.fresh_pod w' result eq_refl E).
  split; reflexivity.
Defined.

Lemma failed_build_leaves_the_temporary_directory_witness :
  let env := Demo.env [Demo.home; Demo.broken] Demo.no_failure [] in
  fst (export env None Demo.fresh_pod) = Throw (Raised "template error")
  ∧ OpMkdtemp "/tmp/amagaki-build-a1b2c3" ∈ trace (snd (export env None Demo.fresh_pod))
  ∧ OpRmTree "/tmp/amagaki-build-a1b2c3" ∉ trace (snd (export env None Demo.fresh_pod)).
Proof.
  intros env.
  set (p := export_prelude env Demo.fresh_pod).
  set (b := export_build env None [Demo.home; Demo.broken] (snd p)).
  destruct (failed_build_leaves_the_temporary_directory env None
              Demo.fresh_pod (snd p) (snd b) (None, [Demo.home; Demo.broken])
              (Raised "template error"))
    as (He & ops1 & ops2 & T & N); try reflexivity.
  rewrite He. cbn [fst snd]. rewrite T. split; [done|]. split.
  - apply elem_of_app. right. apply elem_of_app. right. left.
  - change (trace Demo.fresh_pod) with (@nil Op). cbn [app].
    rewrite Forall_forall in N. intros Hin.
    apply elem_of_app in Hin as [Hin|Hin].
    + specialize (N (OpRmTree "/tmp/amagaki-build-a1b2c3")).
      rewrite elem_of_app in N. by specialize (N (or_introl Hin)).
    + apply elem_of_cons in Hin as [Hin|Hin]; [discriminate Hin|].
      specialize (N (OpRmTree "/tmp/amagaki-build-a1b2c3")).
      rewrite elem_of_app in N. by specialize (N (or_intror Hin)).
Defined.

End ExportLaws.
(* ===================================================================== *)
(** ** Registering plugins and triggering hooks                           *)
(* ===================================================================== *)

Module PluginsFacts.
Import Plugins.

Lemma find_app {A} (f : A → bool) (l1 l2 : list A) :
  List.find f (l1 ++ l2)
  = match List.find f l1 with
    | Some x => Some x
    | None => List.find f l2
    end.
Proof.
  induction l1 as [|a l1 IH]; [done|]. cbn. by destruct (f a).
Qed.

(** X19. [register] appends the new instance, and [get] returns the
    first registered instance of a class name: after a [register], [get]
    answers as before for every name that had an instance, and with the new
    instance for its class name if that had none.  When the constructor of
    the plugin throws, [register] throws the same and registers nothing. *)
Theorem get_after_register (created : outcome PluginComponent)
    (plugins : list PluginComponent) (name : string) :
  match created with
  | Ok plugin =>
      fst (register created plugins) = Ok tt
      ∧ get name (snd (register created plugins))
        = match get name plugins with
          | Some earlier => Some earlier
          | None =>
              if bool_decide (constructor_name plugin = name)
              then Some plugin else None
          end
  | Throw err => register created plugins = (Throw err, plugins)
  end.
Proof.
  destruct created as [plugin|err]; [|done]. split; [done|].
  cbn. unfold get. rewrite find_app. cbn.
  by destruct (bool_decide (constructor_name plugin = name)).
Qed.

Section WithArg.

Context {Arg : Type}.
Implicit Types (log : list (Event Arg)) (plugins : list PluginComponent).

(** *** [triggerSync] *)

Lemma triggerSync_loop_spec (hookName : string) (args : Arg) plugins log :
  triggerSync_loop hookName args plugins log
  = (match first_throw hookName plugins with
     | Some err => Throw err
     | None => Ok tt
     end,
     log ++ (hooked hookName (through_first_throw hookName plugins)
             ≫= called hookName args)).
Proof.
  revert log. induction plugins as [|plugin rest IH]; intros log.
  - cbn. by rewrite app_nil_r.
  - cbn [triggerSync_loop through_first_throw first_throw]. unfold throws.
    destruct (method plugin (eventMethodName hookName)) as [b|] eqn:E.
    + destruct b as [err| |err]; cbv zeta.
      * unfold hooked. cbn [List.filter]. rewrite E. cbn.
        unfold called, calling. by rewrite <- ?app_assoc.
      * rewrite IH. unfold hooked. cbn [List.filter]. rewrite E. cbn.
        unfold called, calling. by rewrite <- ?app_assoc.
      * rewrite IH. unfold hooked. cbn [List.filter]. rewrite E. cbn.
        unfold called, calling. by rewrite <- ?app_assoc.
    + rewrite IH. unfold hooked. cbn [List.filter]. by rewrite E.
Qed.

(** X20. [triggerSync] calls the hook of every plugin that has it, in the
    order of registration, up to and including the first call that throws;
    it throws what that call threw, and returns when none throws.  Every
    call sits between the start and the stop of the timer of its plugin, and
    all of them between the start and the stop of the timer of the hook,
    whatever the outcome. *)
Theorem triggerSync_calls_in_order_and_stops_every_timer
    (hookName : string) (args : Arg) plugins log :
  triggerSync hookName args plugins log
  = (match first_throw hookName plugins with
     | Some err => Throw err
     | None => Ok tt
     end,
     log ++ [TimerStart (hook_key hookName)]
         ++ (hooked hookName (through_first_throw hookName plugins)
             ≫= called hookName args)
         ++ [TimerStop (hook_key hookName)]).
Proof.
  unfold triggerSync. rewrite triggerSync_loop_spec.
  by rewrite <- !app_assoc.
Qed.

(** *** [trigger] *)

Lemma trigger_loop_spec (hookName : string) (args : Arg) plugins
    (promises : list Triggered) log :
  trigger_loop hookName args plugins promises log
  = (match first_throw hookName plugins with
     | Some err => Throw err
     | None => Ok tt
     end,
     promises
     ++ (to_triggered hookName
         <$> List.filter (returns hookName)
               (through_first_throw hookName plugins)),
     log ++ (hooked hookName (through_first_throw hookName plugins)
             ≫= calling hookName args)).
Proof.
  revert promises log.
  induction plugins as [|plugin rest IH]; intros promises log.
  - cbn. by rewrite !app_nil_r.
  - cbn [trigger_loop through_first_throw first_throw]. unfold throws.
    destruct (method plugin (eventMethodName hookName)) as [b|] eqn:E.
    + destruct b as [err| |err]; cbv zeta.
      * unfold hooked, returns. cbn [List.filter]. rewrite E. cbn.
        by rewrite !app_nil_r.
      * rewrite IH. unfold hooked, returns. cbn [List.filter]. rewrite E. cbn.
        unfold calling, to_triggered; rewrite ?E; by rewrite <- ?app_assoc.
      * rewrite IH. unfold hooked, returns. cbn [List.filter]. rewrite E. cbn.
        unfold calling, to_triggered; rewrite ?E; by rewrite <- ?app_assoc.
    + rewrite IH. unfold hooked, returns. cbn [List.filter]. by rewrite E.
Qed.

Lemma through_first_throw_all (hookName : string) plugins :
  first_throw hookName plugins = None →
  through_first_throw hookName plugins = plugins.
Proof.
  induction plugins as [|plugin rest IH]; [done|]. cbn.
  destruct (throws hookName plugin); [done|]. intros H. by rewrite IH.
Qed.

(** The timers of the promises that are (going to be) fulfilled are those
    of the plugins whose hook fulfils. *)
Lemma fulfilled_timers (hookName : string) plugins :
  triggered_timer
    <$> filter (λ p, fulfilled p = true)
          (to_triggered hookName <$> List.filter (returns hookName) plugins)
  = plugin_key hookName
      <$> filter (λ plugin, fulfils hookName plugin = true)
            (hooked hookName plugins).
Proof.
  induction plugins as [|plugin rest IH]; [done|].
  assert (Hf : fulfilled (to_triggered hookName plugin) = fulfils hookName plugin
               ∨ returns hookName plugin = false).
  { unfold fulfilled, fulfils, to_triggered, returns. cbn.
    destruct (method plugin (eventMethodName hookName)) as [[err| |err]|]; auto. }
  assert (Hh : fulfils hookName plugin = true → returns hookName plugin = true).
  { unfold fulfils, returns.
    by destruct (method plugin (eventMethodName hookName)) as [[err| |err]|]. }
  assert (Hk : returns hookName plugin = true →
               hooked hookName (plugin :: rest) = plugin :: hooked hookName rest).
  { unfold hooked, returns. cbn [List.filter].
    by destruct (method plugin (eventMethodName hookName)) as [[err| |err]|]. }
  assert (Hn : fulfils hookName plugin = false →
               filter (λ plugin, fulfils hookName plugin = true)
                 (hooked hookName (plugin :: rest))
               = filter (λ plugin, fulfils hookName plugin = true)
                   (hooked hookName rest)).
  { intros Hfl. unfold hooked. cbn [List.filter].
    destruct (method plugin (eventMethodName hookName)); [|done].
    rewrite filter_cons, decide_False; [done|]. by rewrite Hfl. }
  cbn [List.filter]. destruct (returns hookName plugin) eqn:Hr.
  - destruct Hf as [Hf|Hf]; [|done]. rewrite fmap_cons, filter_cons.
    destruct (fulfils hookName plugin) eqn:Hfl.
    + rewrite decide_True by done. rewrite Hk by done.
      rewrite filter_cons, decide_True by done. rewrite !fmap_cons.
      by rewrite IH.
    + rewrite decide_False by (by rewrite Hf). rewrite Hn by done. exact IH.
  - rewrite Hn; [exact IH|].
    destruct (fulfils hookName plugin) eqn:Hfl; [|done].
    by specialize (Hh eq_refl).
Qed.

Lemma promise_all_spec (turns : nat) :
  ∀ (pending : list Triggered) (order : list nat) log,
    (List.length pending ≤ turns)%nat →
    let a := promise_all turns pending order log in
    ∃ before,
      awaited_log a = log ++ (TimerStop <$> before)
      ∧ before
        ++ (triggered_timer <$> filter (λ p, fulfilled p = true) (still_pending a))
        ≡ₚ triggered_timer <$> filter (λ p, fulfilled p = true) pending
      ∧ match awaited_outcome a with
        | Ok _ =>
            (∀ p, p ∈ pending → triggered_result p = Ok tt)
            ∧ still_pending a = []
        | Throw err => ∃ p, p ∈ pending ∧ triggered_result p = Throw err
        end.
Proof.
  induction turns as [|turns IH]; intros pending order log Hlen; cbv zeta.
  - destruct pending; [|cbn in Hlen; lia].
    exists []. cbn. rewrite app_nil_r. split_and!; try done.
    intros p Hp. by apply elem_of_nil in Hp.
  - destruct pending as [|p0 pending0] eqn:Hp.
    { exists []. cbn. rewrite app_nil_r. split_and!; try done.
      intros p Hin. by apply elem_of_nil in Hin. }
    cbn [promise_all]. rewrite <- Hp in *.
    set (k := Nat.modulo (hd O order) (List.length pending)).
    assert (Hlt : (k < List.length pending)%nat).
    { apply Nat.mod_upper_bound. subst pending. cbn. lia. }
    destruct (lookup_lt_is_Some_2 pending k Hlt) as [p Hk]. rewrite Hk.
    assert (Hperm : pending ≡ₚ p :: delete k pending)
      by (by apply delete_Permutation).
    destruct (triggered_result p) as [[]|err] eqn:Hres.
    + destruct (IH (delete k pending) (tail order)
                  (log ++ [TimerStop (triggered_timer p)])) as (before & H1 & H2 & H3).
      { rewrite length_delete by eauto. lia. }
      exists (triggered_timer p :: before). split_and!.
      * rewrite H1. by rewrite <- app_assoc.
      * rewrite (filter_Permutation _ _ _ Hperm), filter_cons, decide_True
          by (unfold fulfilled; by rewrite Hres).
        rewrite fmap_cons. cbn [app]. by rewrite H2.
      * destruct (awaited_outcome
                    (promise_all turns (delete k pending) (tail order)
                       (log ++ [TimerStop (triggered_timer p)]))) as [[]|err].
        -- destruct H3 as [H3 H4]. split; [|done].
           intros q Hq. rewrite Hperm in Hq.
           apply elem_of_cons in Hq as [->|Hq]; [done|by apply H3].
        -- destruct H3 as (q & Hq & Hqe). exists q. split; [|done].
           rewrite Hperm. by right.
    + exists []. cbn. rewrite app_nil_r. split_and!; [done| |].
      * rewrite (filter_Permutation _ _ _ Hperm), filter_cons, decide_False; [done|].
        unfold fulfilled. by rewrite Hres.
      * exists p. split; [|done]. by eapply list_elem_of_lookup_2.
Qed.

Lemma afterwards_spec (turns : nat) :
  ∀ (pending : list Triggered) (order : list nat),
    (List.length pending ≤ turns)%nat →
    ∃ after,
      afterwards (Arg := Arg) turns pending order = TimerStop <$> after
      ∧ after ≡ₚ triggered_timer <$> filter (λ p, fulfilled p = true) pending.
Proof.
  induction turns as [|turns IH]; intros pending order Hlen.
  - destruct pending; [|cbn in Hlen; lia]. by exists [].
  - destruct pending as [|p0 pending0] eqn:Hp; [by exists []|].
    cbn [afterwards]. rewrite <- Hp in *.
    set (k := Nat.modulo (hd O order) (List.length pending)).
    assert (Hlt : (k < List.length pending)%nat).
    { apply Nat.mod_upper_bound. subst pending. cbn. lia. }
    destruct (lookup_lt_is_Some_2 pending k Hlt) as [p Hk]. rewrite Hk.
    assert (Hperm : pending ≡ₚ p :: delete k pending)
      by (by apply delete_Permutation).
    destruct (IH (delete k pending) (tail order)) as (after & H1 & H2).
    { rewrite length_delete by eauto. lia. }
    rewrite H1. destruct (fulfilled p) eqn:Hf.
    + exists (triggered_timer p :: after). split; [done|].
      rewrite (filter_Permutation _ _ _ Hperm), filter_cons, decide_True by done.
      by rewrite fmap_cons, H2.
    + exists after. split; [done|].
      rewrite (filter_Permutation _ _ _ Hperm), filter_cons, decide_False
        by (by rewrite Hf).
      done.
Qed.

Lemma to_triggered_result (hookName : string) (plugin : PluginComponent)
    (b : Behaviour) :
  method plugin (eventMethodName hookName) = Some b →
  throws hookName plugin = None →
  match triggered_result (to_triggered hookName plugin) with
  | Ok _ => b = Fulfils
  | Throw err => b = Rejects err
  end.
Proof.
  unfold to_triggered, throws. intros -> H. cbn. by destruct b.
Qed.

Lemma first_throw_none (hookName : string) plugins (plugin : PluginComponent) :
  first_throw hookName plugins = None → plugin ∈ plugins →
  throws hookName plugin = None.
Proof.
  induction plugins as [|q rest IH]; intros H Hin.
  - by apply elem_of_nil in Hin.
  - cbn in H. destruct (throws hookName q) eqn:E; [done|].
    apply elem_of_cons in Hin as [->|Hin]; [done|by apply IH].
Qed.

Lemma elem_of_hooked (hookName : string) plugins (plugin : PluginComponent) :
  plugin ∈ hooked hookName plugins
  ↔ plugin ∈ plugins ∧ is_Some (method plugin (eventMethodName hookName)).
Proof.
  unfold hooked. rewrite list_elem_of_In, List.filter_In, <- list_elem_of_In.
  destruct (method plugin (eventMethodName hookName)) as [b|]; split;
    intros [H1 H2]; split; try done; try (by exists b); by destruct H2.
Qed.

Lemma returns_hooked (hookName : string) plugins :
  first_throw hookName plugins = None →
  List.filter (returns hookName) plugins = hooked hookName plugins.
Proof.
  induction plugins as [|plugin rest IH]; [done|].
  cbn [first_throw]. unfold throws, returns, hooked in *. cbn [List.filter].
  destruct (method plugin (eventMethodName hookName)) as [[err| |err]|];
    try done; intros H; by rewrite IH.
Qed.

(** X21. [trigger] calls the hook of every plugin that has it, in the
    order of registration, before it waits for any of the promises: a
    promise that is going to be rejected does not keep the later hooks from
    being called, only a call that throws cuts the loop short.  [trigger]
    resolves when every promise is fulfilled, every plugin's timer having
    been stopped before the timer of the hook; otherwise it rejects with
    what the throwing call or a rejected promise carries.  The timer of a
    plugin is stopped exactly when its promise is fulfilled, and then once:
    before the timer of the hook if the promise is fulfilled before
    [trigger] settles, after it otherwise, and always after it when a call
    has thrown.  The timers of rejected promises and of the call that
    throws are never stopped. *)
Theorem trigger_calls_every_hook_before_it_waits
    (hookName : string) (args : Arg) (order : list nat) plugins log :
  let t := trigger hookName args order plugins log in
  let asked := hooked hookName (through_first_throw hookName plugins) in
  ∃ before after,
    trigger_log t
    = log ++ [TimerStart (hook_key hookName)]
          ++ (asked ≫= calling hookName args)
          ++ (TimerStop <$> before)
          ++ [TimerStop (hook_key hookName)]
    ∧ trigger_later t = TimerStop <$> after
    ∧ before ++ after
      ≡ₚ plugin_key hookName
           <$> filter (λ plugin, fulfils hookName plugin = true) asked
    ∧ match first_throw hookName plugins with
      | Some err => trigger_outcome t = Throw err ∧ before = []
      | None =>
          match trigger_outcome t with
          | Ok _ =>
              after = []
              ∧ ∀ plugin, plugin ∈ asked →
                  method plugin (eventMethodName hookName) = Some Fulfils
          | Throw err =>
              ∃ plugin, plugin ∈ asked
                ∧ method plugin (eventMethodName hookName) = Some (Rejects err)
          end
      end.
Proof.
  cbv zeta. unfold trigger. rewrite trigger_loop_spec. cbn [app].
  set (tft := through_first_throw hookName plugins).
  set (promises := to_triggered hookName <$> List.filter (returns hookName) tft).
  set (log1 := (log ++ [TimerStart (hook_key hookName)])
               ++ (hooked hookName tft ≫= calling hookName args)).
  pose proof (fulfilled_timers hookName tft) as Htimers. fold promises in Htimers.
  destruct (first_throw hookName plugins) as [err|] eqn:Hft.
  { destruct (afterwards_spec (List.length promises) promises order)
      as (after & H1 & H2); [done|].
    exists [], after. cbn [trigger_log trigger_later trigger_outcome].
    split_and!; try done.
    - unfold log1. by rewrite <- !app_assoc.
    - cbn [app]. by rewrite H2, Htimers. }
  assert (Htft : tft = plugins) by (by apply through_first_throw_all).
  assert (Hpr : promises = to_triggered hookName <$> hooked hookName plugins).
  { unfold promises. by rewrite Htft, returns_hooked. }
  destruct (promise_all_spec (List.length promises) promises order log1)
    as (before & H1 & H2 & H3); [done|].
  cbv zeta in H1, H2, H3.
  set (a := promise_all (List.length promises) promises order log1) in *.
  destruct (afterwards_spec (List.length (still_pending a)) (still_pending a)
              (awaited_order a)) as (after & H4 & H5); [done|].
  exists before, after. cbn [trigger_log trigger_later trigger_outcome].
  split_and!.
  - rewrite H1. unfold log1. by rewrite <- !app_assoc.
  - done.
  - by rewrite H5, H2, Htimers.
  - assert (Hb : ∀ plugin, plugin ∈ hooked hookName plugins →
              ∃ b, method plugin (eventMethodName hookName) = Some b
                   ∧ match triggered_result (to_triggered hookName plugin) with
                     | Ok _ => b = Fulfils
                     | Throw err => b = Rejects err
                     end).
    { intros plugin Hin. apply elem_of_hooked in Hin as [Hin [b Hb]].
      exists b. split; [done|]. apply to_triggered_result; [done|].
      by eapply first_throw_none. }
    rewrite Htft. destruct (awaited_outcome a) as [[]|err].
    + destruct H3 as [H3 H6]. split.
      * rewrite H6 in H5. cbn in H5. by apply Permutation_nil_r in H5.
      * intros plugin Hin. destruct (Hb plugin Hin) as (b & Hm & Hr).
        rewrite (H3 (to_triggered hookName plugin)) in Hr.
        -- by subst b.
        -- rewrite Hpr. by apply list_elem_of_fmap_2.
    + destruct H3 as (p & Hp & Hpe). rewrite Hpr in Hp.
      apply list_elem_of_fmap in Hp as (plugin & -> & Hin).
      exists plugin. split; [done|]. destruct (Hb plugin Hin) as (b & Hm & Hr).
      rewrite Hpe in Hr. by subst b.
Qed.

End WithArg.

End PluginsFacts.
(* ===================================================================== *)
(** ** Creating, moving and removing files and directories                *)
(* ===================================================================== *)

Module FsFacts.
Import Fs.

(** *** Running the helpers *)

Example delete_the_build_tree :
  let r := deleteDirectoryRecursive 5 ["tmp"; "build"] demo in
  fst r = Ok tt
  ∧ snd r = list_to_map [([], Directory); (["tmp"], Directory);
                         (["tmp"; "notes.txt"], File "keep")].
Proof. vm_compute. split; reflexivity. Qed.

Example delete_too_deep_a_tree :
  fst (deleteDirectoryRecursive 2 ["tmp"] demo) = Throw RangeError.
Proof. vm_compute. reflexivity. Qed.

Example write_below_missing_directories :
  let r := writeFileAsync ["tmp"; "out"; "a"; "index.html"] "page" demo in
  fst r = Ok tt
  ∧ snd r !! ["tmp"; "out"; "a"] = Some Directory
  ∧ snd r !! ["tmp"; "out"; "a"; "index.html"] = Some (File "page").
Proof. vm_compute. repeat split. Qed.

(** *** Paths *)

Lemma child_name_spec (dir q : list string) (name : string) :
  child_name dir q = Some name ↔ q = dir ++ [name].
Proof.
  unfold child_name. split.
  - case_decide as Ht; [|done].
    destruct (drop (List.length dir) q) as [|n [|n' rest]] eqn:Hd; try done.
    intros [= ->]. by rewrite <- (take_drop (List.length dir) q), Ht, Hd.
  - intros ->. rewrite take_app_length, decide_True by done.
    by rewrite drop_app_length.
Qed.

Lemma elem_of_children (dir : list string) (fs : Files) (name : string) :
  name ∈ children dir fs ↔ is_Some (fs !! (dir ++ [name])).
Proof.
  unfold children. rewrite list_elem_of_omap. split.
  - intros ([q e] & Hin & Hc). apply child_name_spec in Hc. cbn in Hc. subst q.
    apply elem_of_map_to_list in Hin. eauto.
  - intros [e He]. exists (dir ++ [name], e). split.
    + by apply elem_of_map_to_list.
    + by apply child_name_spec.
Qed.

Lemma NoDup_omap_inj {A B} (f : A → option B) (l : list A) :
  NoDup l →
  (∀ x y z, x ∈ l → y ∈ l → f x = Some z → f y = Some z → x = y) →
  NoDup (omap f l).
Proof.
  induction l as [|a l IH]; intros Hnd Hinj; [constructor|].
  apply NoDup_cons in Hnd as [Ha Hnd]. cbn.
  assert (IH' : NoDup (omap f l)).
  { apply IH; [done|]. intros x y z Hx Hy. apply Hinj; by right. }
  destruct (f a) as [b|] eqn:E; [|done].
  apply NoDup_cons. split; [|done].
  intros Hin. apply list_elem_of_omap in Hin as (y & Hy & Hfy).
  apply Ha. rewrite (Hinj a y b); [done|left|by right|done|done].
Qed.

Lemma NoDup_children (dir : list string) (fs : Files) :
  NoDup (children dir fs).
Proof.
  unfold children. apply NoDup_omap_inj; [apply NoDup_map_to_list|].
  intros [q1 e1] [q2 e2] name H1 H2 C1 C2. cbn in C1, C2.
  apply child_name_spec in C1, C2. subst q1 q2.
  apply elem_of_map_to_list in H1, H2. congruence.
Qed.

Lemma prefix_child_inj (p : list string) (m n : string) :
  (p ++ [m]) `prefix_of` (p ++ [n]) → m = n.
Proof.
  intros H. apply prefix_app_inv in H. by apply prefix_cons_inv_1 in H.
Qed.

Lemma prefix_strict (p q : list string) :
  p `prefix_of` q → q ≠ p → ∃ name, (p ++ [name]) `prefix_of` q.
Proof.
  intros [k ->] Hne. destruct k as [|name k].
  - by rewrite app_nil_r in Hne.
  - exists name. exists k. by rewrite <- app_assoc.
Qed.

Lemma well_formed_ancestor (fs : Files) (p k : list string) :
  well_formed fs → is_Some (fs !! (p ++ k)) → k ≠ [] →
  fs !! p = Some Directory.
Proof.
  intros Hwf. induction k as [|name k IH] using rev_ind; [done|].
  intros Hsome _. rewrite app_assoc in Hsome.
  pose proof (Hwf _ _ Hsome) as Hd.
  destruct k as [|n0 k0]; [by rewrite app_nil_r in Hd|].
  apply IH; [by rewrite Hd|done].
Qed.

Lemma without_well_formed (p : list string) (fs fs' : Files) :
  well_formed fs → without p fs fs' → well_formed fs'.
Proof.
  intros Hwf Hw path name Hsome. rewrite (Hw (path ++ [name])) in Hsome.
  rewrite (Hw path).
  case_decide as H1; [by destruct Hsome|].
  rewrite decide_False; [by apply (Hwf path name)|].
  intros H2. apply H1. by apply prefix_app_r.
Qed.

Lemma without_unlink (p : list string) (fs : Files) (content : string) :
  well_formed fs → fs !! p = Some (File content) → without p fs (delete p fs).
Proof.
  intros Hwf Hp q. case_decide as Hpre.
  - destruct (decide (q = p)) as [->|Hne]; [apply lookup_delete_eq|].
    rewrite lookup_delete_ne by done.
    destruct (fs !! q) eqn:E; [|done]. exfalso.
    destruct Hpre as [k ->].
    assert (fs !! p = Some Directory) as Hd.
    { apply (well_formed_ancestor fs p k); [done|by rewrite E|].
      intros ->. by rewrite app_nil_r in Hne. }
    congruence.
  - apply lookup_delete_ne. by intros ->.
Qed.

(** *** [deleteDirectoryRecursive] *)

Lemma deleteDirectoryRecursive_spec (depth : nat) :
  ∀ (path : list string) (fs : Files),
    well_formed fs →
    fs !! path = Some Directory →
    path ≠ [] →
    shallower depth path fs →
    ∃ fs',
      deleteDirectoryRecursive depth path fs = (Ok tt, fs')
      ∧ without path fs fs'
      ∧ well_formed fs'.
Proof.
  induction depth as [|depth IH]; intros path fs Hwf Hdir Hne Hsh.
  { exfalso. specialize (Hsh path). rewrite Hdir in Hsh.
    specialize (Hsh (mk_is_Some _ _ eq_refl) (reflexivity _)). lia. }
  cbn [deleteDirectoryRecursive]. unfold mbind at 1, fs_bind at 1, existsSync.
  rewrite bool_decide_eq_true_2 by (by rewrite Hdir).
  unfold mbind at 1, fs_bind at 1, readdirSync. rewrite Hdir.
  set (body := λ filePath : string,
         isDirectory ← lstatSync_isDirectory (path ++ [filePath]);
         if isDirectory : bool
         then deleteDirectoryRecursive depth (path ++ [filePath])
         else unlinkSync (path ++ [filePath])).
  assert (Hloop : ∀ todo finished fs_i,
            NoDup (finished ++ todo) →
            (∀ name, name ∈ todo → is_Some (fs !! (path ++ [name]))) →
            well_formed fs_i →
            (∀ q, fs_i !! q
                  = if decide (Exists (λ name, (path ++ [name]) `prefix_of` q)
                                 finished)
                    then None else fs !! q) →
            ∃ fs_e,
              forEach body todo fs_i = (Ok tt, fs_e)
              ∧ well_formed fs_e
              ∧ ∀ q, fs_e !! q
                     = if decide (Exists (λ name, (path ++ [name]) `prefix_of` q)
                                    (finished ++ todo))
                       then None else fs !! q).
  { induction todo as [|name todo IHt]; intros finished fs_i Hnd Hex Hwfi Hi.
    { exists fs_i. by rewrite app_nil_r. }
    set (cur := path ++ [name]).
    assert (Hcur : fs_i !! cur = fs !! cur).
    { rewrite Hi, decide_False; [done|]. intros Hx.
      apply Exists_exists in Hx as (m & Hm & Hpre).
      apply prefix_child_inj in Hpre. subst m.
      apply NoDup_app in Hnd as (_ & Hnd & _). apply (Hnd name Hm). left. }
    assert (Hstep : ∃ fs1, body name fs_i = (Ok tt, fs1) ∧ without cur fs_i fs1).
    { destruct (Hex name (list_elem_of_here _ _)) as [e He].
      unfold body, mbind, fs_bind, lstatSync_isDirectory. fold cur in He |- *.
      rewrite Hcur, He. destruct e as [content|].
      - unfold unlinkSync. rewrite Hcur, He. eexists. split; [done|].
        eapply without_unlink; [done|]. by rewrite Hcur.
      - destruct (IH cur fs_i) as (fs1 & H1 & H2 & _); [done|congruence| |
          |by exists fs1].
        + unfold cur. by destruct path.
        + intros q Hq Hpre. rewrite Hi in Hq.
          case_decide; [by destruct Hq|].
          assert (path `prefix_of` q) as Hp by (by eapply prefix_app_l).
          specialize (Hsh q Hq Hp). unfold cur. rewrite length_app. cbn. lia. }
    destruct Hstep as (fs1 & Hb & Hw).
    destruct (IHt (finished ++ [name]) fs1) as (fs_e & He1 & He2 & He3).
    - by rewrite <- app_assoc.
    - intros m Hm. apply Hex. by right.
    - by eapply without_well_formed.
    - intros q. rewrite (Hw q), Hi.
      destruct (decide (cur `prefix_of` q)) as [Hc|Hc].
      + rewrite decide_True; [done|]. apply Exists_app. right. by constructor.
      + destruct (decide (Exists (λ n, (path ++ [n]) `prefix_of` q) finished))
          as [Hx|Hx].
        * rewrite decide_True; [done|]. apply Exists_app. by left.
        * rewrite decide_False; [done|]. intros Hy.
          apply Exists_app in Hy as [Hy|Hy]; [done|].
          apply Exists_cons in Hy as [Hy|Hy]; [done|].
          by apply Exists_nil in Hy.
    - exists fs_e. split_and!; [|done|].
      + cbn [forEach]. unfold mbind, fs_bind. by rewrite Hb.
      + intros q. rewrite He3. by rewrite <- app_assoc. }
  destruct (Hloop (children path fs) [] fs) as (fs_e & He1 & He2 & He3).
  { apply NoDup_children. }
  { intros name Hn. by apply elem_of_children. }
  { done. }
  { intros q. rewrite decide_False; [done|]. by intros H%Exists_nil. }
  cbn [app] in He3. unfold mbind, fs_bind. rewrite He1.
  assert (Hp : fs_e !! path = Some Directory).
  { rewrite He3, decide_False; [done|]. intros Hx.
    apply Exists_exists in Hx as (m & _ & Hpre).
    by apply prefix_snoc_not in Hpre. }
  assert (Hempty : children path fs_e = []).
  { apply elem_of_nil_inv. intros m Hm. apply elem_of_children in Hm.
    rewrite He3 in Hm. case_decide as Hx; [by destruct Hm|].
    apply Hx. apply Exists_exists. exists m. split; [|done].
    by apply elem_of_children. }
  unfold rmdirSync. rewrite Hp.
  destruct path as [|a path']; [done|]. rewrite Hempty.
  assert (Hw : without (a :: path') fs (delete (a :: path') fs_e)).
  { intros q. destruct (decide (q = a :: path')) as [->|Hq].
    - rewrite lookup_delete_eq. by rewrite decide_True.
    - rewrite lookup_delete_ne by done. rewrite He3.
      destruct (decide ((a :: path') `prefix_of` q)) as [Hpre|Hpre].
      + destruct (prefix_strict _ _ Hpre Hq) as [m Hm].
        destruct (fs !! q) eqn:E; [|by case_decide].
        rewrite decide_True; [done|]. apply Exists_exists. exists m.
        split; [|done]. apply elem_of_children.
        destruct Hm as [k ->]. destruct k as [|k0 k].
        * rewrite app_nil_r in E. by rewrite E.
        * rewrite (well_formed_ancestor fs ((a :: path') ++ [m]) (k0 :: k));
            [done|done|by rewrite E|done].
      + rewrite decide_False; [done|]. intros Hx.
        apply Exists_exists in Hx as (m & _ & Hm). apply Hpre.
        by eapply prefix_app_l. }
  eexists. split_and!; [reflexivity|exact Hw|].
  eapply without_well_formed; [exact Hwf|exact Hw].
Qed.

(** X22. On a directory other than the root, in a tree that fits the call
    stack, [deleteDirectoryRecursive] returns, and has then removed the
    directory with everything below it: no entry at or below the path is
    left, every other entry is as before, and what is left is still a
    tree. *)
Theorem deleteDirectoryRecursive_removes_the_tree
    (depth : nat) (path : list string) (fs : Files) :
  well_formed fs →
  fs !! path = Some Directory →
  path ≠ [] →
  shallower depth path fs →
  ∃ fs',
    deleteDirectoryRecursive depth path fs = (Ok tt, fs')
    ∧ (∀ q, path `prefix_of` q → fs' !! q = None)
    ∧ (∀ q, ¬ path `prefix_of` q → fs' !! q = fs !! q)
    ∧ well_formed fs'.
Proof.
  intros Hwf Hdir Hne Hsh.
  destruct (deleteDirectoryRecursive_spec depth path fs Hwf Hdir Hne Hsh)
    as (fs' & H1 & H2 & H3).
  exists fs'. split_and!; [done| | |done].
  - intros q Hq. by rewrite (H2 q), decide_True.
  - intros q Hq. by rewrite (H2 q), decide_False.
Qed.

(** X23. Where there is no directory: on a path that does not exist
    [deleteDirectoryRecursive] returns and changes nothing, so that running
    it a second time after it has removed a tree does nothing; on a path
    that is a file it throws [ENOTDIR], and the file stays. *)
Theorem deleteDirectoryRecursive_where_there_is_no_directory
    (depth : nat) (path : list string) (fs : Files) :
  (fs !! path = None →
     deleteDirectoryRecursive (S depth) path fs = (Ok tt, fs))
  ∧ (∀ content, fs !! path = Some (File content) →
       deleteDirectoryRecursive (S depth) path fs = (Throw ENOTDIR, fs))
  ∧ (∀ fs0 depth0,
       well_formed fs0 → fs0 !! path = Some Directory → path ≠ [] →
       shallower depth0 path fs0 →
       deleteDirectoryRecursive depth0 path fs0 = (Ok tt, fs) →
       deleteDirectoryRecursive (S depth) path fs = (Ok tt, fs)).
Proof.
  assert (Hnone : fs !! path = None →
            deleteDirectoryRecursive (S depth) path fs = (Ok tt, fs)).
  { intros H. cbn [deleteDirectoryRecursive].
    unfold mbind, fs_bind, existsSync.
    rewrite bool_decide_eq_false_2; [done|]. rewrite H. by intros []. }
  split_and!; [done| |].
  - intros content H. cbn [deleteDirectoryRecursive].
    unfold mbind, fs_bind, existsSync, readdirSync.
    rewrite bool_decide_eq_true_2 by (by rewrite H). by rewrite H.
  - intros fs0 depth0 Hwf Hdir Hne Hsh Hrun. apply Hnone.
    destruct (deleteDirectoryRecursive_spec depth0 path fs0 Hwf Hdir Hne Hsh)
      as (fs' & H1 & H2 & _).
    assert (fs' = fs) as -> by congruence.
    by rewrite (H2 path), decide_True.
Qed.

(** *** [ensureDirectoryExists] and the helpers that use it *)

Lemma elem_of_chain (below : list string) :
  ∀ (here q : list string),
    q ∈ chain here below ↔ ∃ k, k `prefix_of` below ∧ q = here ++ k.
Proof.
  induction below as [|name below IH]; intros here q; cbn [chain].
  - rewrite list_elem_of_singleton. split.
    + intros ->. exists []. by rewrite app_nil_r.
    + intros (k & Hk & ->). apply prefix_nil_inv in Hk. subst k.
      by rewrite app_nil_r.
  - rewrite elem_of_cons, IH. split.
    + intros [->|(k & Hk & ->)].
      * exists []. split; [apply prefix_nil|by rewrite app_nil_r].
      * exists (name :: k). split; [by apply prefix_cons|].
        by rewrite <- app_assoc.
    + intros (k & Hk & ->). destruct k as [|n k].
      * left. by rewrite app_nil_r.
      * right. pose proof (prefix_cons_inv_1 _ _ _ _ Hk) as ->.
        apply prefix_cons_inv_2 in Hk. exists k. split; [done|].
        by rewrite <- app_assoc.
Qed.

Lemma mkdir_from_spec (below : list string) :
  ∀ (here : list string) (fs : Files),
    (∀ q content, q ∈ chain here below → fs !! q ≠ Some (File content)) →
    ∃ fs',
      mkdir_from here below fs = (Ok tt, fs')
      ∧ ∀ q, fs' !! q
             = if decide (q ∈ chain here below) then Some Directory
               else fs !! q.
Proof.
  induction below as [|name below IH]; intros here fs Hfree.
  - cbn [mkdir_from chain] in *.
    assert (Hh : ∀ content, fs !! here ≠ Some (File content)).
    { intros content. apply Hfree. left. }
    exists (<[here := Directory]> fs). split.
    + destruct (fs !! here) as [[content|]|]; [by destruct (Hh content)|done..].
    + intros q. case_decide as Hq.
      * apply list_elem_of_singleton in Hq. subst q. apply lookup_insert_eq.
      * apply lookup_insert_ne. intros ->. apply Hq. left.
  - cbn [mkdir_from chain] in *.
    assert (Hh : ∀ content, fs !! here ≠ Some (File content)).
    { intros content. apply Hfree. left. }
    destruct (IH (here ++ [name]) (<[here := Directory]> fs))
      as (fs' & H1 & H2).
    { intros q content Hq. destruct (decide (q = here)) as [->|Hne].
      - by rewrite lookup_insert_eq.
      - rewrite lookup_insert_ne by done. apply Hfree. by right. }
    exists fs'. split.
    + destruct (fs !! here) as [[content|]|]; [by destruct (Hh content)|done..].
    + intros q. rewrite H2.
      destruct (decide (q ∈ chain (here ++ [name]) below)) as [Hq|Hq].
      * rewrite decide_True; [done|by right].
      * destruct (decide (q = here)) as [->|Hne].
        -- rewrite lookup_insert_eq. rewrite decide_True; [done|left].
        -- rewrite lookup_insert_ne by done. rewrite decide_False; [done|].
           intros Hin. apply elem_of_cons in Hin as [?|?]; done.
Qed.

Lemma ensureDirectoryExists_spec (path : list string) (fs : Files) :
  well_formed fs →
  (∀ q content, q `prefix_of` dirname path → fs !! q ≠ Some (File content)) →
  ∃ fs1,
    ensureDirectoryExists path fs = (Ok tt, fs1)
    ∧ ∀ q, fs1 !! q
           = if decide (q `prefix_of` dirname path) then Some Directory
             else fs !! q.
Proof.
  intros Hwf Hfree. unfold ensureDirectoryExists, mbind, fs_bind, existsSync.
  destruct (fs !! dirname path) as [e|] eqn:E.
  - rewrite bool_decide_eq_true_2 by eauto. cbn. exists fs. split; [done|].
    assert (e = Directory) as ->.
    { destruct e as [content|]; [|done].
      by destruct (Hfree (dirname path) content (reflexivity _)). }
    intros q. case_decide as Hq; [|done].
    destruct (decide (q = dirname path)) as [->|Hne]; [done|].
    destruct Hq as [k Hk]. apply (well_formed_ancestor fs q k); [done| |].
    + rewrite <- Hk. by rewrite E.
    + intros ->. by rewrite app_nil_r in Hk.
  - rewrite bool_decide_eq_false_2 by (by intros []). cbn.
    unfold mkdirSync_recursive.
    destruct (mkdir_from_spec (dirname path) [] fs) as (fs1 & H1 & H2).
    { intros q content Hq. apply Hfree. apply elem_of_chain in Hq as (k & Hk & ->).
      done. }
    exists fs1. split; [done|]. intros q. rewrite H2.
    destruct (decide (q `prefix_of` dirname path)) as [Hq|Hq].
    + rewrite decide_True; [done|]. apply elem_of_chain. by exists q.
    + rewrite decide_False; [done|]. intros Hin. apply Hq.
      by apply elem_of_chain in Hin as (k & Hk & ->).
Qed.

Lemma dirname_snoc (path : list string) :
  path ≠ [] → ∃ name, path = dirname path ++ [name].
Proof.
  intros H. destruct (exists_last H) as (l & name & ->). exists name.
  unfold dirname. by rewrite removelast_last.
Qed.

Lemma not_prefix_of_dirname (path : list string) :
  path ≠ [] → ¬ path `prefix_of` dirname path.
Proof.
  intros H Hpre. destruct (dirname_snoc path H) as [name Hn].
  rewrite Hn in Hpre at 1. by apply prefix_snoc_not in Hpre.
Qed.

Lemma dirname_neq (path : list string) : path ≠ [] → dirname path ≠ path.
Proof.
  intros H Heq. apply (not_prefix_of_dirname path H). by rewrite Heq.
Qed.

(** The file system after a file has been put at [path], below directories
    that have been created where they were missing. *)
Lemma put_well_formed (path : list string) (entry : Entry) (fs fs' : Files) :
  well_formed fs → path ≠ [] →
  fs !! path ≠ Some Directory →
  (∀ q, fs' !! q
        = if decide (q = path) then Some entry
          else if decide (q `prefix_of` dirname path) then Some Directory
          else fs !! q) →
  well_formed fs'.
Proof.
  intros Hwf Hne Hnd Hfs' q name Hsome.
  destruct (dirname_snoc path Hne) as [last Hlast].
  rewrite Hfs' in Hsome. rewrite Hfs'.
  destruct (decide (q ++ [name] = path)) as [Heq|Hneq].
  - rewrite Hlast in Heq. apply app_inj_tail in Heq as [-> _].
    rewrite decide_False by (by apply dirname_neq).
    by rewrite decide_True.
  - destruct (decide ((q ++ [name]) `prefix_of` dirname path)) as [Hpre|Hpre].
    + assert (q `prefix_of` dirname path) as Hq by (by eapply prefix_app_l).
      rewrite decide_False.
      * by rewrite decide_True.
      * intros ->. by apply (not_prefix_of_dirname path Hne).
    + pose proof (Hwf q name Hsome) as Hd.
      rewrite decide_False by congruence.
      by case_decide.
Qed.

(** X24. [writeFileAsync] puts the content at the path and creates the
    directories on the way that are missing, when no file is in the way and
    the path is not a directory: afterwards the path holds the content,
    every directory above it exists, every other entry is as before, and
    what is there is still a tree.  [copyFileAsync] does the same with the
    content of its source. *)
Theorem writeFileAsync_creates_the_file_and_its_directories
    (outputPath : list string) (content : string) (fs : Files) :
  well_formed fs →
  outputPath ≠ [] →
  (∀ q c, q `prefix_of` dirname outputPath → fs !! q ≠ Some (File c)) →
  fs !! outputPath ≠ Some Directory →
  ∃ fs',
    writeFileAsync outputPath content fs = (Ok tt, fs')
    ∧ fs' !! outputPath = Some (File content)
    ∧ (∀ q, q `prefix_of` dirname outputPath → fs' !! q = Some Directory)
    ∧ (∀ q, q ≠ outputPath → ¬ q `prefix_of` dirname outputPath →
         fs' !! q = fs !! q)
    ∧ well_formed fs'
    ∧ ∀ source, fs !! source = Some (File content) →
        copyFileAsync outputPath source fs = (Ok tt, fs').
Proof.
  intros Hwf Hne Hfree Hnd.
  destruct (ensureDirectoryExists_spec outputPath fs Hwf Hfree) as (fs1 & H1 & H2).
  pose proof (not_prefix_of_dirname outputPath Hne) as Hnp.
  assert (Hdir : fs1 !! dirname outputPath = Some Directory).
  { by rewrite H2, decide_True. }
  assert (Hout : fs1 !! outputPath ≠ Some Directory).
  { by rewrite H2, decide_False. }
  assert (Hwrite : writeFile outputPath content fs1
                   = (Ok tt, <[outputPath := File content]> fs1)).
  { unfold writeFile. destruct outputPath as [|a p]; [done|]. rewrite Hdir.
    by destruct (fs1 !! (a :: p)) as [[c|]|]. }
  assert (Hall : ∀ q, <[outputPath := File content]> fs1 !! q
                      = if decide (q = outputPath) then Some (File content)
                        else if decide (q `prefix_of` dirname outputPath)
                             then Some Directory else fs !! q).
  { intros q. case_decide as Hq.
    - subst q. apply lookup_insert_eq.
    - rewrite lookup_insert_ne by done. apply H2. }
  exists (<[outputPath := File content]> fs1). split_and!.
  - unfold writeFileAsync, mbind, fs_bind. by rewrite H1.
  - apply lookup_insert_eq.
  - intros q Hq. rewrite Hall, decide_False, decide_True; [done|done|].
    by intros ->.
  - intros q Hq1 Hq2. by rewrite Hall, !decide_False.
  - by eapply (put_well_formed outputPath (File content) fs).
  - intros source Hs. unfold copyFileAsync, mbind, fs_bind. rewrite H1.
    unfold copyFile.
    assert (fs1 !! source = Some (File content)) as ->; [|done].
    rewrite H2, decide_False; [done|]. intros Hpre.
    by destruct (Hfree source content Hpre).
Qed.

(** X25. [moveFileAsync] leaves the content of the file at the new path,
    with the directories above it created where they were missing, when no
    file is in the way and the new path is not a directory.  The old path
    is gone when the two are on one device; when they are not, so that
    [rename] fails with [EXDEV], the file is copied and the old path
    stays. *)
Theorem moveFileAsync_moves_or_copies
    (crossDevice : bool) (beforePath afterPath : list string)
    (content : string) (fs : Files) :
  well_formed fs →
  fs !! beforePath = Some (File content) →
  afterPath ≠ [] →
  (∀ q c, q `prefix_of` dirname afterPath → fs !! q ≠ Some (File c)) →
  fs !! afterPath ≠ Some Directory →
  ∃ fs',
    moveFileAsync crossDevice beforePath afterPath fs = (Ok tt, fs')
    ∧ fs' !! afterPath = Some (File content)
    ∧ (beforePath ≠ afterPath →
         fs' !! beforePath
         = if crossDevice then Some (File content) else None)
    ∧ (∀ q, q ≠ beforePath → q ≠ afterPath →
         ¬ q `prefix_of` dirname afterPath → fs' !! q = fs !! q).
Proof.
  intros Hwf Hb Hne Hfree Hnd.
  destruct (ensureDirectoryExists_spec afterPath fs Hwf Hfree) as (fs1 & H1 & H2).
  pose proof (not_prefix_of_dirname afterPath Hne) as Hnp.
  assert (Hdir : fs1 !! dirname afterPath = Some Directory).
  { by rewrite H2, decide_True. }
  assert (Hout : fs1 !! afterPath ≠ Some Directory).
  { by rewrite H2, decide_False. }
  assert (Hb1 : fs1 !! beforePath = Some (File content)).
  { rewrite H2, decide_False; [done|]. intros Hpre.
    by destruct (Hfree beforePath content Hpre). }
  unfold moveFileAsync, mbind, fs_bind. rewrite H1.
  unfold catch, rename. rewrite Hb1. destruct crossDevice.
  - rewrite bool_decide_eq_true_2 by done.
    unfold copyFile. rewrite Hb1. unfold writeFile.
    exists (<[afterPath := File content]> fs1). split_and!.
    + destruct afterPath as [|a p]; [done|]. rewrite Hdir.
      by destruct (fs1 !! (a :: p)) as [[c|]|].
    + apply lookup_insert_eq.
    + intros Hd. by rewrite lookup_insert_ne.
    + intros q Hq1 Hq2 Hq3. rewrite lookup_insert_ne by done.
      by rewrite H2, decide_False.
  - exists (<[afterPath := File content]> (delete beforePath fs1)). split_and!.
    + destruct afterPath as [|a p]; [done|]. rewrite Hdir.
      by destruct (fs1 !! (a :: p)) as [[c|]|].
    + apply lookup_insert_eq.
    + intros Hd. rewrite lookup_insert_ne by done. apply lookup_delete_eq.
    + intros q Hq1 Hq2 Hq3. rewrite lookup_insert_ne by done.
      rewrite lookup_delete_ne by done. by rewrite H2, decide_False.
Qed.

(** *** Checking a tree *)

Lemma well_formed_check (fs : Files) :
  map_Forall (λ q _, q = [] ∨ fs !! dirname q = Some Directory) fs →
  well_formed fs.
Proof.
  intros H path name [e He]. destruct (H _ _ He) as [Hq|Hq].
  - by destruct path.
  - unfold dirname in Hq. by rewrite removelast_last in Hq.
Qed.

Lemma shallower_check (depth : nat) (path : list string) (fs : Files) :
  map_Forall (λ q _, (List.length q < List.length path + depth)%nat) fs →
  shallower depth path fs.
Proof. intros H q [e He] _. by apply (H _ _ He). Qed.

Lemma well_formed_demo : well_formed demo.
Proof.
  apply well_formed_check, (bool_decide_unpack _). vm_compute. exact I.
Qed.

Lemma deleteDirectoryRecursive_removes_the_tree_witness :
  ∃ fs',
    deleteDirectoryRecursive 5 ["tmp"; "build"] demo = (Ok tt, fs')
    ∧ fs' !! ["tmp"; "build"; "static"; "app.css"] = None
    ∧ fs' !! ["tmp"; "notes.txt"] = Some (File "keep").
Proof.
  destruct (deleteDirectoryRecursive_removes_the_tree 5 ["tmp"; "build"] demo)
    as (fs' & H & Hin & Hout & _).
  - apply well_formed_demo.
  - reflexivity.
  - discriminate.
  - apply shallower_check, (bool_decide_unpack _). vm_compute. exact I.
  - exists fs'. split_and!; [done| |].
    + apply Hin. by exists ["static"; "app.css"].
    + rewrite Hout; [reflexivity|]. intros [k Hk]. discriminate Hk.
Defined.

Lemma no_file_on_the_way (path : list string) (fs : Files) :
  Forall (λ q, ∀ c, fs !! q ≠ Some (File c)) (chain [] path) →
  ∀ q c, q `prefix_of` path → fs !! q ≠ Some (File c).
Proof.
  intros H q c Hq. rewrite Forall_forall in H. apply H.
  apply elem_of_chain. by exists q.
Qed.

Lemma writeFileAsync_creates_the_file_and_its_directories_witness :
  ∃ fs',
    writeFileAsync ["tmp"; "out"; "a"; "index.html"] "page" demo = (Ok tt, fs')
    ∧ fs' !! ["tmp"; "out"; "a"; "index.html"] = Some (File "page")
    ∧ fs' !! ["tmp"; "out"] = Some Directory
    ∧ fs' !! ["tmp"; "notes.txt"] = Some (File "keep").
Proof.
  destruct (writeFileAsync_creates_the_file_and_its_directories
              ["tmp"; "out"; "a"; "index.html"] "page" demo)
    as (fs' & H & H1 & H2 & H3 & _).
  - apply well_formed_demo.
  - discriminate.
  - apply no_file_on_the_way. cbn. repeat constructor; intros c; vm_compute;
      discriminate.
  - vm_compute. discriminate.
  - exists fs'. split_and!; [done|done| |].
    + apply H2. by exists ["a"].
    + rewrite H3; [reflexivity|discriminate|].
      intros [k Hk]. discriminate Hk.
Defined.

Lemma moveFileAsync_moves_or_copies_witness :
  (∃ fs',
     moveFileAsync false ["tmp"; "build"; "index.html"]
       ["tmp"; "site"; "index.html"] demo = (Ok tt, fs')
     ∧ fs' !! ["tmp"; "site"; "index.html"] = Some (File "hello")
     ∧ fs' !! ["tmp"; "build"; "index.html"] = None)
  ∧ (∃ fs',
       moveFileAsync true ["tmp"; "build"; "index.html"]
         ["tmp"; "site"; "index.html"] demo = (Ok tt, fs')
       ∧ fs' !! ["tmp"; "site"; "index.html"] = Some (File "hello")
       ∧ fs' !! ["tmp"; "build"; "index.html"] = Some (File "hello")).
Proof.
  split.
  - destruct (moveFileAsync_moves_or_copies false
                ["tmp"; "build"; "index.html"] ["tmp"; "site"; "index.html"]
                "hello" demo)
      as (fs' & H & H1 & H2 & _).
    + apply well_formed_demo.
    + reflexivity.
    + discriminate.
    + apply no_file_on_the_way. cbn. repeat constructor; intros c; vm_compute;
        discriminate.
    + vm_compute. discriminate.
    + exists fs'. split_and!; [done|done|]. by apply H2.
  - destruct (moveFileAsync_moves_or_copies true
                ["tmp"; "build"; "index.html"] ["tmp"; "site"; "index.html"]
                "hello" demo)
      as (fs' & H & H1 & H2 & _).
    + apply well_formed_demo.
    + reflexivity.
    + discriminate.
    + apply no_file_on_the_way. cbn. repeat constructor; intros c; vm_compute;
        discriminate.
    + vm_compute. discriminate.
    + exists fs'. split_and!; [done|done|]. by apply H2.
Defined.

End FsFacts.
